(** * Pokémon Golden Cards: the data-access layer, verified

    A shallow embedding of the data-access layer of the repository
    (the [Pokemon] model class, the [PokemonApiService] with its request
    queue, retrying transport, batch and search operations, and the
    sorting of [PokemonController]) together with the properties the
    specification states about them.

    JavaScript values are embedded as a first-order data type, JavaScript
    exceptions as an error monad, asynchronous code as explicit state
    passing over an event loop with logical time. *)

From Stdlib Require Import ZArith String Ascii List Bool Lia DecimalString.
From Stdlib Require Import Permutation Sorted.
From Stdlib Require Import QArith Qround.
From Equations Require Import Equations.
Import ListNotations.

Set Warnings "-register-all".

Local Open Scope string_scope.
Local Open Scope list_scope.
Local Open Scope Z_scope.

(* ===================================================================== *)
(** * JavaScript values and the built-ins the program relies on          *)
(* ===================================================================== *)

Module JS.

(** Numbers.  The numeric fields of the catalog (ids, heights, weights,
    base stats) are integers; a number is an integer, [NaN] or a signed
    infinity, and arithmetic on integers is exact. *)
Inductive number : Type :=
| NaN
| Infinity (negative : bool)
| Fin (z : Z).

(** Values as [response.json()] and plain object literals produce them.
    An object is a sequence of bindings with pairwise distinct keys; a
    property read takes the first binding of the key. *)
Inductive JsVal : Type :=
| JUndefined
| JNull
| JBool (b : bool)
| JNum (n : number)
| JStr (s : string)
| JArr (items : list JsVal)
| JObj (fields : list (string * JsVal)).

Inductive ErrorKind : Type := ErrorK | TypeErrorK | SyntaxErrorK.

Record JsError : Type := mkError { kind : ErrorKind; message : string }.

(** The outcome of evaluating code that may throw. *)
Inductive completion (A : Type) : Type :=
| Normal (a : A)
| Throw (e : JsError).

Arguments Normal {A} a.
Arguments Throw {A} e.

Definition bind {A B : Type} (c : completion A) (k : A -> completion B)
  : completion B :=
  match c with
  | Normal a => k a
  | Throw e => Throw e
  end.

Definition typeof (v : JsVal) : string :=
  match v with
  | JUndefined => "undefined"
  | JNull => "object"
  | JBool _ => "boolean"
  | JNum _ => "number"
  | JStr _ => "string"
  | JArr _ => "object"
  | JObj _ => "object"
  end.

Definition isArray (v : JsVal) : bool :=
  match v with
  | JArr _ => true
  | _ => false
  end.

(** [ToBoolean]: what [!v], [v ? a : b], [v || d] and [filter(Boolean)]
    test. *)
Definition truthy (v : JsVal) : bool :=
  match v with
  | JUndefined => false
  | JNull => false
  | JBool b => b
  | JNum NaN => false
  | JNum (Infinity _) => true
  | JNum (Fin z) => negb (z =? 0)%Z
  | JStr s => negb (s =? "")%string
  | JArr _ => true
  | JObj _ => true
  end.

(** ** Strings: sequences of 8-bit characters, with the white space and
    the case mapping of ASCII (the catalog's names are ASCII). *)

Definition is_white_space (c : ascii) : bool :=
  let n := nat_of_ascii c in
  ((n =? 9) || (n =? 10) || (n =? 11) || (n =? 12) || (n =? 13)
   || (n =? 32))%nat.

Fixpoint trimStart (s : string) : string :=
  match s with
  | EmptyString => EmptyString
  | String c s' => if is_white_space c then trimStart s' else s
  end.

Fixpoint trimEnd (s : string) : string :=
  match s with
  | EmptyString => EmptyString
  | String c s' =>
      match trimEnd s' with
      | EmptyString => if is_white_space c then EmptyString
                       else String c EmptyString
      | t => String c t
      end
  end.

Definition trim (s : string) : string := trimEnd (trimStart s).

Definition lower_char (c : ascii) : ascii :=
  let n := nat_of_ascii c in
  if ((65 <=? n) && (n <=? 90))%nat then ascii_of_nat (n + 32) else c.

Fixpoint toLowerCase (s : string) : string :=
  match s with
  | EmptyString => EmptyString
  | String c s' => String (lower_char c) (toLowerCase s')
  end.

(** [s.includes(sub)]: [sub] occurs in [s] as a contiguous substring. *)
Fixpoint includes (s sub : string) : bool :=
  prefix sub s
  || match s with
     | EmptyString => false
     | String _ s' => includes s' sub
     end.

(** ** Conversions *)

Definition NumberToString (n : number) : string :=
  match n with
  | NaN => "NaN"
  | Infinity false => "Infinity"
  | Infinity true => "-Infinity"
  | Fin z => NilZero.string_of_int (Z.to_int z)
  end.

Fixpoint ToString (v : JsVal) : string :=
  match v with
  | JUndefined => "undefined"
  | JNull => "null"
  | JBool true => "true"
  | JBool false => "false"
  | JNum n => NumberToString n
  | JStr s => s
  | JArr items =>
      String.concat ","
        (map (fun x => match x with
                       | JUndefined => ""
                       | JNull => ""
                       | _ => ToString x
                       end) items)
  | JObj _ => "[object Object]"
  end.

Definition digit_value (c : ascii) : option Z :=
  let n := nat_of_ascii c in
  if ((48 <=? n) && (n <=? 57))%nat then Some (Z.of_nat (n - 48)) else None.

Fixpoint parse_digits (acc : Z) (s : string) : option Z :=
  match s with
  | EmptyString => Some acc
  | String c s' =>
      match digit_value c with
      | Some d => parse_digits (10 * acc + d) s'
      | None => None
      end
  end.

Definition parse_unsigned (s : string) : number :=
  if (s =? "Infinity")%string then Infinity false
  else match s with
       | EmptyString => NaN
       | _ => match parse_digits 0 s with
              | Some z => Fin z
              | None => NaN
              end
       end.

Definition number_neg (n : number) : number :=
  match n with
  | NaN => NaN
  | Infinity s => Infinity (negb s)
  | Fin z => Fin (- z)
  end.

(** [Number(s)] on a string, for the literals of the integer number
    model: surrounding white space is dropped, the empty string is 0, an
    optionally signed run of decimal digits is that integer, an optionally
    signed [Infinity] is that infinity, anything else is [NaN]. *)
Definition StringToNumber (s : string) : number :=
  match trim s with
  | EmptyString => Fin 0
  | String "+" r => parse_unsigned r
  | String "-" r => number_neg (parse_unsigned r)
  | t => parse_unsigned t
  end.

(** [ToPrimitive]: arrays and plain objects convert through [toString]. *)
Definition ToPrimitive (v : JsVal) : JsVal :=
  match v with
  | JArr _ => JStr (ToString v)
  | JObj _ => JStr (ToString v)
  | _ => v
  end.

Definition ToNumber (v : JsVal) : number :=
  match ToPrimitive v with
  | JUndefined => NaN
  | JNull => Fin 0
  | JBool true => Fin 1
  | JBool false => Fin 0
  | JNum n => n
  | JStr s => StringToNumber s
  | _ => NaN
  end.

(** The global [isNaN(v)]. *)
Definition isNaN (v : JsVal) : bool :=
  match ToNumber v with
  | NaN => true
  | _ => false
  end.

(** ** Operators *)

Definition number_add (a b : number) : number :=
  match a, b with
  | NaN, _ => NaN
  | _, NaN => NaN
  | Infinity s, Infinity t => if Bool.eqb s t then Infinity s else NaN
  | Infinity s, Fin _ => Infinity s
  | Fin _, Infinity s => Infinity s
  | Fin x, Fin y => Fin (x + y)
  end.

(** [a + b]: concatenation as soon as one primitive operand is a string,
    numeric addition otherwise. *)
Definition js_add (a b : JsVal) : JsVal :=
  let pa := ToPrimitive a in
  let pb := ToPrimitive b in
  match pa, pb with
  | JStr _, _ => JStr (ToString pa ++ ToString pb)%string
  | _, JStr _ => JStr (ToString pa ++ ToString pb)%string
  | _, _ => JNum (number_add (ToNumber pa) (ToNumber pb))
  end.

(** Ordering of numbers; [None] when one side is [NaN]. *)
Definition number_compare (a b : number) : option comparison :=
  match a, b with
  | NaN, _ => None
  | _, NaN => None
  | Infinity s, Infinity t =>
      Some (if Bool.eqb s t then Eq else if s then Lt else Gt)
  | Infinity s, Fin _ => Some (if s then Lt else Gt)
  | Fin _, Infinity s => Some (if s then Gt else Lt)
  | Fin x, Fin y => Some (x ?= y)
  end.

(** The abstract relational comparison behind [<], [>], [<=], [>=]: two
    strings compare by character codes, anything else numerically. *)
Definition js_compare (a b : JsVal) : option comparison :=
  match ToPrimitive a, ToPrimitive b with
  | JStr x, JStr y => Some (String.compare x y)
  | pa, pb => number_compare (ToNumber pa) (ToNumber pb)
  end.

Definition js_lt (a b : JsVal) : bool :=
  match js_compare a b with
  | Some Lt => true
  | _ => false
  end.

Definition js_gt (a b : JsVal) : bool :=
  match js_compare a b with
  | Some Gt => true
  | _ => false
  end.

Definition js_ge (a b : JsVal) : bool :=
  match js_compare a b with
  | Some Gt => true
  | Some Eq => true
  | _ => false
  end.

(** Equality of values is decidable. *)
Definition number_eq_dec (a b : number) : {a = b} + {a <> b}.
Proof. decide equality; [apply bool_dec | apply Z.eq_dec]. Defined.

Fixpoint JsVal_eq_dec (a b : JsVal) {struct a} : {a = b} + {a <> b}.
Proof.
  decide equality.
  - apply bool_dec.
  - apply number_eq_dec.
  - apply string_dec.
  - apply (list_eq_dec JsVal_eq_dec).
  - apply list_eq_dec. decide equality. apply string_dec.
Defined.

(** How a promise settles; what [Promise.allSettled] reports. *)
Inductive Settled (A : Type) : Type :=
| Fulfilled (value : A)
| Rejected (reason : JsError).

Arguments Fulfilled {A} value.
Arguments Rejected {A} reason.

(** ** Property access *)

Fixpoint lookup (k : string) (fields : list (string * JsVal)) : JsVal :=
  match fields with
  | [] => JUndefined
  | (k', v) :: rest => if (k =? k')%string then v else lookup k rest
  end.

(** [v.k] for the property names this program reads (none of them is
    [length], an index or a prototype member): a [TypeError] on [null]
    and [undefined], the binding on an object, [undefined] elsewhere. *)
Definition Get (v : JsVal) (k : string) : completion JsVal :=
  match v with
  | JUndefined | JNull =>
      Throw (mkError TypeErrorK
               ("Cannot read properties of " ++ ToString v
                ++ " (reading '" ++ k ++ "')")%string)
  | JObj fields => Normal (lookup k fields)
  | _ => Normal JUndefined
  end.

(** [v?.k] *)
Definition GetOpt (v : JsVal) (k : string) : JsVal :=
  match v with
  | JObj fields => lookup k fields
  | _ => JUndefined
  end.

End JS.

Export JS.

Notation "x <- c ;; k" := (bind c (fun x => k))
  (at level 61, c at next level, right associativity).

(* ===================================================================== *)
(** * The [Pokemon] model class (models/Pokemon.js)                      *)
(* ===================================================================== *)

Module PokemonModel.

(** An instance, with the fields [validateAndSet] assigns. *)
Record Pokemon : Type := mkPokemon {
  id : number;
  name : string;
  height : number;
  weight : number;
  base_experience : number;
  types : list JsVal;
  abilities : list JsVal;
  stats : list JsVal;
  sprites : JsVal;
  cries : JsVal;
  imageUrl : JsVal;
  typeNames : list JsVal;
  abilityNames : list JsVal;
  primaryType : JsVal;
  statTotal : JsVal
}.

Definition validateString (value : JsVal) (fieldName : string)
  (required : bool) : completion string :=
  if required
     && (negb (truthy value)
         || negb (typeof value =? "string")%string
         || match value with
            | JStr s => (trim s =? "")%string
            | _ => false
            end)
  then Throw (mkError ErrorK
                (fieldName ++ " is required and must be a non-empty string"))
  else Normal (match value with
               | JStr s => trim s
               | _ => ""
               end).

Definition validateNumber (value : JsVal) (fieldName : string)
  (required : bool) : completion number :=
  if required
     && (match value with JNull => true | _ => false end
         || match value with JUndefined => true | _ => false end
         || isNaN value)
  then Throw (mkError ErrorK
                (fieldName ++ " is required and must be a valid number"))
  else Normal (let n := ToNumber value in
               if truthy (JNum n) then n else Fin 0).

Definition validateArray (value : JsVal) (fieldName : string)
  (required : bool) : completion (list JsVal) :=
  if required
     && (negb (isArray value)
         || match value with
            | JArr items => (length items =? 0)%nat
            | _ => false
            end)
  then Throw (mkError ErrorK
                (fieldName ++ " is required and must be a non-empty array"))
  else Normal (match value with
               | JArr items => items
               | _ => []
               end).

Definition validateObject (value : JsVal) (fieldName : string)
  (required : bool) : completion JsVal :=
  if required
     && (negb (truthy value)
         || negb (typeof value =? "object")%string
         || isArray value)
  then Throw (mkError ErrorK
                (fieldName ++ " is required and must be an object"))
  else Normal (if truthy value
                  && (typeof value =? "object")%string
                  && negb (isArray value)
               then value
               else JObj []).

Definition getImageUrl (sprites : JsVal) : JsVal :=
  let other := GetOpt sprites "other" in
  let official :=
    GetOpt (GetOpt other "official-artwork") "front_default" in
  let dream := GetOpt (GetOpt other "dream_world") "front_default" in
  let front := GetOpt sprites "front_default" in
  if truthy official then official
  else if truthy dream then dream
  else if truthy front then front
  else JStr "/placeholder-pokemon.png".

(** The callback of [getTypeNames] and [getAbilityNames]:
    [e => typeof e === 'object' && e[k] ? e[k].name : e]. *)
Definition nameOf (k : string) (e : JsVal) : completion JsVal :=
  if (typeof e =? "object")%string
  then inner <- Get e k ;;
       if truthy inner then Get inner "name" else Normal e
  else Normal e.

(** [xs.map(f)] for a callback that may throw. *)
Fixpoint mapM {A B : Type} (f : A -> completion B) (xs : list A)
  : completion (list B) :=
  match xs with
  | [] => Normal []
  | x :: rest => y <- f x ;; ys <- mapM f rest ;; Normal (y :: ys)
  end.

Definition getTypeNames (types : list JsVal) : completion (list JsVal) :=
  names <- mapM (nameOf "type") types ;; Normal (filter truthy names).

Definition getAbilityNames (abilities : list JsVal)
  : completion (list JsVal) :=
  names <- mapM (nameOf "ability") abilities ;; Normal (filter truthy names).

Definition getPrimaryType (typeNames : list JsVal) : JsVal :=
  match typeNames with
  | first :: _ => if truthy first then first else JStr "unknown"
  | [] => JStr "unknown"
  end.

(** The reducer of [getStatTotal]. *)
Definition statValue (stat : JsVal) : completion JsVal :=
  if (typeof stat =? "object")%string
  then base <- Get stat "base_stat" ;;
       Normal (if truthy base then base else JNum (Fin 0))
  else Normal (JNum (Fin 0)).

(** [xs.reduce(f, init)] for a callback that may throw. *)
Fixpoint reduceM {A B : Type} (f : B -> A -> completion B) (xs : list A)
  (acc : B) : completion B :=
  match xs with
  | [] => Normal acc
  | x :: rest => acc' <- f acc x ;; reduceM f rest acc'
  end.

Definition getStatTotal (stats : list JsVal) : completion JsVal :=
  reduceM (fun total stat => value <- statValue stat ;;
                             Normal (js_add total value))
          stats (JNum (Fin 0)).

Definition validateAndSet (data : JsVal) : completion Pokemon :=
  v <- Get data "id" ;;
  id <- validateNumber v "ID" true ;;
  v <- Get data "name" ;;
  name <- validateString v "Name" true ;;
  v <- Get data "height" ;;
  height <- validateNumber v "Height" false ;;
  v <- Get data "weight" ;;
  weight <- validateNumber v "Weight" false ;;
  v <- Get data "base_experience" ;;
  base_experience <- validateNumber v "Base Experience" false ;;
  v <- Get data "types" ;;
  types <- validateArray v "Types" false ;;
  v <- Get data "abilities" ;;
  abilities <- validateArray v "Abilities" false ;;
  v <- Get data "stats" ;;
  stats <- validateArray v "Stats" false ;;
  v <- Get data "sprites" ;;
  sprites <- validateObject v "Sprites" false ;;
  v <- Get data "cries" ;;
  cries <- validateObject v "Cries" false ;;
  let imageUrl := getImageUrl sprites in
  typeNames <- getTypeNames types ;;
  abilityNames <- getAbilityNames abilities ;;
  let primaryType := getPrimaryType typeNames in
  statTotal <- getStatTotal stats ;;
  Normal (mkPokemon id name height weight base_experience types abilities
            stats sprites cries imageUrl typeNames abilityNames primaryType
            statTotal).

(** [new Pokemon(data)], with the default parameter [data = {}]. *)
Definition new_Pokemon (data : JsVal) : completion Pokemon :=
  validateAndSet (match data with
                  | JUndefined => JObj []
                  | _ => data
                  end).

(** [Pokemon.fromAPI]: logs and rethrows what the constructor throws. *)
Definition fromAPI (apiData : JsVal) : completion Pokemon :=
  new_Pokemon apiData.

Definition getRarity (p : Pokemon) : string :=
  let total := statTotal p in
  if js_ge total (JNum (Fin 600)) then "legendary"
  else if js_ge total (JNum (Fin 500)) then "rare"
  else if js_ge total (JNum (Fin 400)) then "uncommon"
  else "common".

(** Payloads used below. *)
Definition stat (n : Z) : JsVal := JObj [("base_stat", JNum (Fin n))].

Definition bulbasaur : JsVal :=
  JObj [("id", JNum (Fin 1)); ("name", JStr "bulbasaur");
        ("height", JNum (Fin 7)); ("weight", JNum (Fin 69));
        ("base_experience", JNum (Fin 64));
        ("types", JArr [JObj [("slot", JNum (Fin 1));
                              ("type", JObj [("name", JStr "grass")])];
                        JObj [("slot", JNum (Fin 2));
                              ("type", JObj [("name", JStr "poison")])]]);
        ("stats", JArr (map stat [45; 49; 49; 65; 65; 45]));
        ("sprites", JObj [("front_default", JStr "sprites/1.png")])].

End PokemonModel.

Import PokemonModel.


(* ===================================================================== *)
(** * The retrying transport: [PokemonApiService.makeRequest]            *)
(* ===================================================================== *)

Module Transport.

(** What [response.json()] gives. *)
Inductive Body : Type :=
| JsonBody (payload : JsVal)
| MalformedBody (message : string).

(** What one call of [fetch(url)] gives: a rejection (the network could
    not be reached) or a response with its status line and body. *)
Inductive FetchOutcome : Type :=
| NetworkFailure (message : string)
| Response (status : Z) (statusText : string) (body : Body).

(** [response.ok]: the status is in the range 200-299. *)
Definition ok (status : Z) : bool := (200 <=? status) && (status <=? 299).

(** The network: the outcome of the [n]-th call of [fetch], on a URL. *)
Definition Network : Type := nat -> string -> FetchOutcome.

(** The part of the world [makeRequest] acts on: the number of calls of
    [fetch] made so far, and the delays waited, oldest first. *)
Record World : Type := mkWorld {
  calls : nat;
  sleeps : list Z
}.

Definition elapsed (w : World) : Z := fold_right Z.add 0 (sleeps w).

Definition maxRetries : nat := 3.
Definition retryDelay : Z := 1000.

(** [await this.delay(ms)] *)
Definition delay (ms : Z) (w : World) : World :=
  mkWorld (calls w) (sleeps w ++ [ms]).

(** The [try] block of [makeRequest]: one call of [fetch], the check of
    [response.ok], the decoding of the body. *)
Definition attempt (net : Network) (url : string) (w : World)
  : completion JsVal * World :=
  let w' := mkWorld (S (calls w)) (sleeps w) in
  match net (calls w) url with
  | NetworkFailure m => (Throw (mkError TypeErrorK m), w')
  | Response status statusText body =>
      if negb (ok status)
      then (Throw (mkError ErrorK
                     ("HTTP " ++ NumberToString (Fin status) ++ ": "
                      ++ statusText)%string), w')
      else match body with
           | JsonBody payload => (Normal payload, w')
           | MalformedBody m => (Throw (mkError SyntaxErrorK m), w')
           end
  end.

Equations makeRequest (net : Network) (url : string) (retries : nat)
  (w : World) : completion JsVal * World
  by wf (maxRetries - retries)%nat lt :=
makeRequest net url retries w with attempt net url w => {
  | (Normal payload, w1) => (Normal payload, w1)
  | (Throw error, w1) with lt_dec retries maxRetries => {
    | left _ =>
        makeRequest net url (S retries)
          (delay (retryDelay * 2 ^ Z.of_nat retries) w1)
    | right _ =>
        (Throw (mkError ErrorK
                  ("Failed to fetch " ++ url ++ " after "
                   ++ NumberToString (Fin (Z.of_nat maxRetries))
                   ++ " retries: " ++ message error)%string), w1)
    }
  }.
Next Obligation.
  unfold maxRetries in *. destruct retries as [|[|[|r]]]; lia.
Qed.

Definition world0 : World := mkWorld 0 [].

(** What the [n]-th call of [fetch] makes of an attempt on [url]. *)
Definition attemptResult (net : Network) (url : string) (n : nat)
  : completion JsVal :=
  fst (attempt net url (mkWorld n [])).

(** The error thrown once the retries are used up. *)
Definition exhausted (url : string) (cause : JsError) : JsError :=
  mkError ErrorK
    ("Failed to fetch " ++ url ++ " after 3 retries: " ++ message cause)%string.

(** The waits before the retries that follow [k] failed attempts. *)
Definition backoff (k : nat) : list Z :=
  map (fun j => retryDelay * 2 ^ Z.of_nat j) (seq 0 k).

(** A network that fails twice (once at the transport, once with a 503)
    and then answers. *)
Definition flaky (payload : JsVal) : Network :=
  fun n _ =>
    match n with
    | 0%nat => NetworkFailure "Failed to fetch"
    | 1%nat => Response 503 "Service Unavailable" (JsonBody JNull)
    | _ => Response 200 "OK" (JsonBody payload)
    end.

(** A network that always answers 404. *)
Definition down : Network :=
  fun _ _ => Response 404 "Not Found" (JsonBody JNull).

End Transport.

(* ===================================================================== *)
(** * The request queue: [queueRequest] and [processQueue]               *)
(* ===================================================================== *)

Module RequestQueue.

(** A queued task [{ requestFn, resolve, reject }].  Tasks are numbered in
    the order of their submission; [resolve] and [reject] settle the
    promise [queueRequest] returned for that submission.  Calling
    [requestFn] either throws at once or returns a promise that settles
    later. *)
Record Task : Type := mkTask {
  taskId : nat;
  throwsAtOnce : option JsError
}.

(** Where an invocation of [processQueue] that entered its loop is
    suspended. *)
Inductive Worker : Type :=
| AwaitingTask (t : nat)        (* at [await requestFn()] *)
| AwaitingDelay (due : Z).      (* at [await this.delay(100)] *)

(** What an observer sees, with the time in milliseconds. *)
Inductive LogEntry : Type :=
| Started (t : nat) (time : Z)                       (* [requestFn()] is called *)
| Finished (t : nat) (o : Settled JsVal) (time : Z).  (* [resolve] or [reject] *)

Record State : Type := mkState {
  requestQueue : list Task;
  isProcessingQueue : bool;
  workers : list Worker;
  submitted : nat;
  now : Z;
  log : list LogEntry
}.

Definition initial : State := mkState [] false [] 0 0 [].

Definition rateLimit : Z := 100.

(** The loop of [processQueue], run by a worker from the test of the
    [while] to its next suspension; [others] are the other suspended
    invocations. *)
Definition loopHead (s : State) (others : list Worker) : State :=
  match requestQueue s with
  | [] =>
      mkState [] false others (submitted s) (now s) (log s)
  | task :: rest =>
      let started := log s ++ [Started (taskId task) (now s)] in
      match throwsAtOnce task with
      | Some error =>
          mkState rest (isProcessingQueue s)
            (others ++ [AwaitingDelay (now s + rateLimit)])
            (submitted s) (now s)
            (started ++ [Finished (taskId task) (Rejected error) (now s)])
      | None =>
          mkState rest (isProcessingQueue s)
            (others ++ [AwaitingTask (taskId task)])
            (submitted s) (now s) started
      end
  end.

Definition processQueue (s : State) : State :=
  if isProcessingQueue s || (length (requestQueue s) =? 0)%nat then s
  else loopHead (mkState (requestQueue s) true (workers s) (submitted s)
                   (now s) (log s))
                (workers s).

Definition queueRequest (throws : option JsError) (s : State) : State :=
  processQueue
    (mkState (requestQueue s ++ [mkTask (submitted s) throws])
       (isProcessingQueue s) (workers s) (S (submitted s)) (now s) (log s)).

(** What the event loop delivers. *)
Inductive Event : Type :=
| Enqueue (throws : option JsError)          (* a caller calls [queueRequest] *)
| TaskSettles (w : nat) (o : Settled JsVal)  (* the promise worker [w] awaits settles *)
| TimerFires (w : nat).                      (* the timer worker [w] awaits fires *)

Fixpoint removeAt {A : Type} (i : nat) (l : list A) : list A :=
  match i, l with
  | _, [] => []
  | O, _ :: rest => rest
  | S i', x :: rest => x :: removeAt i' rest
  end.

(** One turn of the event loop at time [t]; [None] when the event cannot
    happen then (time does not run backwards, a timer does not fire
    early, a worker resumes only from what it awaits). *)
Definition step (s : State) (t : Z) (e : Event) : option State :=
  if t <? now s then None
  else
    let s := mkState (requestQueue s) (isProcessingQueue s) (workers s)
               (submitted s) t (log s) in
    match e with
    | Enqueue throws => Some (queueRequest throws s)
    | TaskSettles w o =>
        match nth_error (workers s) w with
        | Some (AwaitingTask task) =>
            Some (mkState (requestQueue s) (isProcessingQueue s)
                    (removeAt w (workers s)
                     ++ [AwaitingDelay (t + rateLimit)])
                    (submitted s) t
                    (log s ++ [Finished task o t]))
        | _ => None
        end
    | TimerFires w =>
        match nth_error (workers s) w with
        | Some (AwaitingDelay due) =>
            if t <? due then None
            else Some (loopHead s (removeAt w (workers s)))
        | _ => None
        end
    end.

Fixpoint run (s : State) (events : list (Z * Event)) : option State :=
  match events with
  | [] => Some s
  | (t, e) :: rest =>
      match step s t e with
      | Some s' => run s' rest
      | None => None
      end
  end.

(** The executions of the queue: what some sequence of events leads to. *)
Definition reachable (s : State) : Prop :=
  exists events, run initial events = Some s.

(** ** What the log of a serial, rate-limited queue looks like *)

(** The stage a log has reached: [next] tasks started and settled, the
    last at [lastSettled]; or task [current] started at [since] and not
    yet settled. *)
Inductive Stage : Type :=
| Quiet (next : nat) (lastSettled : option Z)
| Running (current : nat) (since : Z).

(** Task [k+1] starts only after task [k] has settled and [rateLimit]
    milliseconds have passed; nothing else is in the log. *)
Inductive Serial : list LogEntry -> Stage -> Prop :=
| Serial_nil : Serial [] (Quiet 0 None)
| Serial_start : forall l k last t,
    Serial l (Quiet k last) ->
    (forall t', last = Some t' -> t' + rateLimit <= t) ->
    Serial (l ++ [Started k t]) (Running k t)
| Serial_settle : forall l k t o t',
    Serial l (Running k t) ->
    t <= t' ->
    Serial (l ++ [Finished k o t']) (Quiet (S k) (Some t')).

Definition startedIds (l : list LogEntry) : list nat :=
  flat_map (fun e => match e with
                     | Started t _ => [t]
                     | Finished _ _ _ => []
                     end) l.

Definition settledIds (l : list LogEntry) : list nat :=
  flat_map (fun e => match e with
                     | Started _ _ => []
                     | Finished t _ _ => [t]
                     end) l.

(** Tasks under execution after a log: started and not settled. *)
Definition executing (l : list LogEntry) : nat :=
  (length (startedIds l) - length (settledIds l))%nat.

(** [e1] is logged before [e2]. *)
Definition precedes (e1 e2 : LogEntry) (l : list LogEntry) : Prop :=
  exists l1 l2 l3, l = l1 ++ e1 :: l2 ++ e2 :: l3.

(** How a state of the queue agrees with the stage of its log. *)
Definition Coherent (s : State) (stage : Stage) : Prop :=
  match stage with
  | Quiet k last =>
      map taskId (requestQueue s) = seq k (submitted s - k)
      /\ (k <= submitted s)%nat
      /\ ((workers s = [] /\ isProcessingQueue s = false
           /\ requestQueue s = []
           /\ forall t', last = Some t' -> t' + rateLimit <= now s)
          \/ (exists t', last = Some t'
                         /\ workers s = [AwaitingDelay (t' + rateLimit)]
                         /\ isProcessingQueue s = true
                         /\ t' <= now s))
  | Running k t =>
      map taskId (requestQueue s) = seq (S k) (submitted s - S k)
      /\ (S k <= submitted s)%nat
      /\ workers s = [AwaitingTask k]
      /\ isProcessingQueue s = true
      /\ t <= now s
  end.

Definition Inv (s : State) : Prop :=
  exists stage, Serial (log s) stage /\ Coherent s stage.

Definition startedCount (stage : Stage) : nat :=
  match stage with
  | Quiet k _ => k
  | Running k _ => S k
  end.

Definition settledCount (stage : Stage) : nat :=
  match stage with
  | Quiet k _ => k
  | Running k _ => k
  end.

Definition boom : JsError := mkError ErrorK "HTTP 500: Internal Server Error".

(** Three submissions in a burst; the second fails. *)
Definition burst : list (Z * Event) :=
  [(0, Enqueue None); (0, Enqueue None); (5, Enqueue None);
   (40, TaskSettles 0 (Fulfilled (JStr "first")));
   (140, TimerFires 0);
   (150, TaskSettles 0 (Rejected boom));
   (250, TimerFires 0)].

Definition afterBurst : State :=
  match run initial burst with
  | Some s => s
  | None => initial
  end.

(** The state after the three submissions of the burst. *)
Definition midBurst : State :=
  match run initial (firstn 3 burst) with
  | Some s => s
  | None => initial
  end.

End RequestQueue.

(* ===================================================================== *)
(** * The service operations: batch, random sample, search               *)
(* ===================================================================== *)

Module Service.

(** An entry [{ name, url }] of the listing [GET /pokemon?limit&offset]. *)
Record ListEntry : Type := mkEntry {
  entryName : string;
  entryUrl : string
}.

(** The requests the service issues, after its own argument checks. *)
Inductive Call : Type :=
| FetchPokemon (id : JsVal)
| FetchList (limit offset : Z).

(** What lies behind a request and is not decided by the operations
    below: how the promise of the [n]-th request settles (cache, queue,
    transport and [Pokemon.fromAPI] for a pokemon; cache, queue and
    transport for a listing), and what the [n]-th call of [Math.random]
    returns. *)
Record Environment : Type := mkEnv {
  pokemonOutcome : nat -> JsVal -> Settled Pokemon;
  listOutcome : nat -> Z -> Z -> Settled (list ListEntry);
  random : nat -> Q
}.

(** The requests issued so far, the lines written by [console.error],
    and the number of calls of [Math.random] made. *)
Record ServiceState : Type := mkService {
  issued : list Call;
  console : list (string * JsError);
  drawn : nat
}.

Definition start : ServiceState := mkService [] [] 0.

Definition getPokemonById (env : Environment) (id : JsVal)
  (st : ServiceState) : Settled Pokemon * ServiceState :=
  if negb (truthy id)
     || (negb (typeof id =? "number")%string
         && negb (typeof id =? "string")%string)
  then (Rejected (mkError ErrorK "Invalid Pokemon ID provided"), st)
  else (pokemonOutcome env (length (issued st)) id,
        mkService (issued st ++ [FetchPokemon id]) (console st) (drawn st)).

Definition getPokemonByName (env : Environment) (name : JsVal)
  (st : ServiceState) : Settled Pokemon * ServiceState :=
  match name with
  | JStr s =>
      if negb (truthy name)
      then (Rejected (mkError ErrorK "Invalid Pokemon name provided"), st)
      else getPokemonById env (JStr (trim (toLowerCase s))) st
  | _ => (Rejected (mkError ErrorK "Invalid Pokemon name provided"), st)
  end.

Definition getPokemonList (env : Environment) (limit offset : Z)
  (st : ServiceState) : Settled (list ListEntry) * ServiceState :=
  if (limit <? 1) || (limit >? 1000)
  then (Rejected (mkError ErrorK "Limit must be between 1 and 1000"), st)
  else if offset <? 0
  then (Rejected (mkError ErrorK "Offset must be non-negative"), st)
  else (listOutcome env (length (issued st)) limit offset,
        mkService (issued st ++ [FetchList limit offset]) (console st)
          (drawn st)).

(** [xs.map(f)] for a callback that starts a request: the requests are
    issued in the order of [xs]. *)
Fixpoint mapRequests {A B : Type}
  (f : A -> ServiceState -> B * ServiceState) (xs : list A)
  (st : ServiceState) : list B * ServiceState :=
  match xs with
  | [] => ([], st)
  | x :: rest =>
      let (y, st1) := f x st in
      let (ys, st2) := mapRequests f rest st1 in
      (y :: ys, st2)
  end.

(** The callback of [results.map] in [getPokemonBatch]: the value of a
    fulfilled promise, or [null] after a line on the console. *)
Fixpoint valueOrNull (ids : list JsVal) (results : list (Settled Pokemon))
  (st : ServiceState) : list (option Pokemon) * ServiceState :=
  match ids, results with
  | id :: ids', Fulfilled value :: results' =>
      let (vs, st') := valueOrNull ids' results' st in
      (Some value :: vs, st')
  | id :: ids', Rejected reason :: results' =>
      let line := (("Failed to fetch Pokemon " ++ ToString id ++ ":")%string,
                   reason) in
      let (vs, st') :=
        valueOrNull ids' results'
          (mkService (issued st) (console st ++ [line]) (drawn st)) in
      (None :: vs, st')
  | _, _ => ([], st)
  end.

(** [.filter(Boolean)] on an array of instances and [null]s: an object is
    truthy, [null] is not. *)
Definition filterBoolean (vs : list (option Pokemon)) : list Pokemon :=
  flat_map (fun v => match v with
                     | Some p => [p]
                     | None => []
                     end) vs.

Definition getPokemonBatch (env : Environment) (ids : JsVal)
  (st : ServiceState) : Settled (list Pokemon) * ServiceState :=
  match ids with
  | JArr items =>
      if (length items =? 0)%nat
      then (Rejected (mkError ErrorK "IDs must be a non-empty array"), st)
      else
        let (results, st1) := mapRequests (getPokemonById env) items st in
        let (values, st2) := valueOrNull items results st1 in
        (Fulfilled (filterBoolean values), st2)
  | _ => (Rejected (mkError ErrorK "IDs must be a non-empty array"), st)
  end.

Definition maxPokemonId : Z := 1010.

(** [Math.floor(Math.random() * maxPokemonId) + 1], on the [k]-th value
    of [Math.random]. *)
Definition randomIdAt (random : nat -> Q) (k : nat) : Z :=
  Qfloor (random k * inject_Z maxPokemonId)%Q + 1.

(** The two loops of [getRandomPokemon]: [i] is the counter of the [for],
    [k] the number of calls of [Math.random] made; a duplicate repeats the
    [do ... while], a fresh identifier is pushed and ends the iteration.
    [fuel] bounds the calls of [Math.random]; [None] when it does not
    suffice. *)
Fixpoint sampleIds (fuel : nat) (random : nat -> Q) (k : nat) (count i : Z)
  (randomIds : list Z) : option (list Z * nat) :=
  if i <? count then
    match fuel with
    | O => None
    | S fuel' =>
        let randomId := randomIdAt random k in
        if existsb (Z.eqb randomId) randomIds
        then sampleIds fuel' random (S k) count i randomIds
        else sampleIds fuel' random (S k) count (i + 1)
               (randomIds ++ [randomId])
    end
  else Some (randomIds, k).

Definition getRandomPokemon (fuel : nat) (env : Environment)
  (count : option Z) (st : ServiceState)
  : option (Settled (list Pokemon) * ServiceState) :=
  let count := match count with Some c => c | None => 1 end in
  if (count <? 1) || (count >? 50)
  then Some (Rejected (mkError ErrorK "Count must be between 1 and 50"), st)
  else
    match sampleIds fuel (random env) (drawn st) count 0 [] with
    | None => None
    | Some (randomIds, k) =>
        Some (getPokemonBatch env
                (JArr (map (fun z => JNum (Fin z)) randomIds))
                (mkService (issued st) (console st) k))
    end.

(** [xs.slice(0, limit)]: a negative [limit] counts from the end. *)
Definition slice0 {A : Type} (limit : Z) (xs : list A) : list A :=
  if limit <? 0
  then firstn (Z.to_nat (Z.max (Z.of_nat (length xs) + limit) 0)) xs
  else firstn (Z.to_nat limit) xs.

(** [results.filter(r => r.status === 'fulfilled').map(r => r.value)] *)
Definition fulfilledValues {A : Type} (results : list (Settled A)) : list A :=
  flat_map (fun r => match r with
                     | Fulfilled value => [value]
                     | Rejected _ => []
                     end) results.

Definition searchPokemon (env : Environment) (query : JsVal)
  (limit : option Z) (st : ServiceState)
  : Settled (list Pokemon) * ServiceState :=
  let limit := match limit with Some l => l | None => 20 end in
  match query with
  | JStr q =>
      if negb (truthy query)
      then (Rejected
              (mkError ErrorK "Search query must be a non-empty string"), st)
      else
        let sanitizedQuery := trim (toLowerCase q) in
        match getPokemonByName env (JStr sanitizedQuery) st with
        | (Fulfilled directMatch, st1) => (Fulfilled [directMatch], st1)
        | (Rejected _, st1) =>
            match getPokemonList env 1000 0 st1 with
            | (Rejected reason, st2) => (Rejected reason, st2)
            | (Fulfilled results, st2) =>
                let matches :=
                  slice0 limit
                    (filter (fun pokemon =>
                               includes (entryName pokemon) sanitizedQuery)
                            results) in
                if (length matches =? 0)%nat then (Fulfilled [], st2)
                else
                  let (settled, st3) :=
                    mapRequests
                      (fun m => getPokemonByName env (JStr (entryName m)))
                      matches st2 in
                  (Fulfilled (fulfilledValues settled), st3)
            end
        end
  | _ => (Rejected
            (mkError ErrorK "Search query must be a non-empty string"), st)
  end.

(** ** What the specification says [searchPokemon] returns on the
    fallback path, word for word: the entries whose lower-cased name
    contains the lower-cased query, capped to [limit]. *)
Definition specFallback (query : string) (limit : nat)
  (entries : list ListEntry) : list ListEntry :=
  firstn limit
    (filter (fun e => includes (toLowerCase (entryName e))
                        (toLowerCase query)) entries).

(** ** Vocabulary of the properties *)

(** The console lines of a batch: one per rejected fetch, in order. *)
Fixpoint failureLines (ids : list JsVal) (results : list (Settled Pokemon))
  : list (string * JsError) :=
  match ids, results with
  | id :: ids', Rejected reason :: results' =>
      (("Failed to fetch Pokemon " ++ ToString id ++ ":")%string, reason)
      :: failureLines ids' results'
  | _ :: ids', Fulfilled _ :: results' => failureLines ids' results'
  | _, _ => []
  end.

(** The identifiers computed from [n] values of [Math.random], from the
    [k]-th on. *)
Definition draws (random : nat -> Q) (k n : nat) : list Z :=
  map (randomIdAt random) (seq k n).

Definition inRange (z : Z) : Prop := 1 <= z <= maxPokemonId.

Definition numbers (zs : list Z) : JsVal := JArr (map (fun z => JNum (Fin z)) zs).

(** A minimal instance. *)
Definition card (n : Z) (name : string) : Pokemon :=
  mkPokemon (Fin n) name (Fin 0) (Fin 0) (Fin 0) [] [] [] (JObj []) (JObj [])
    (JStr "/placeholder-pokemon.png") [] [] (JStr "unknown") (JNum (Fin 0)).

Definition notFound : JsError :=
  mkError ErrorK
    "Failed to fetch https://pokeapi.co/api/v2/pokemon/99999 after 3 retries: HTTP 404: Not Found".

(** A catalog in which every identifier up to 1010 resolves and the
    others do not; [Math.random] runs through 0/1010, 1/1010, ... *)
Definition catalog : Environment :=
  mkEnv (fun _ id =>
           match id with
           | JNum (Fin z) =>
               if (1 <=? z) && (z <=? 1010)
               then Fulfilled (card z "pokemon")
               else Rejected notFound
           | _ => Rejected notFound
           end)
        (fun _ _ _ => Fulfilled [])
        (fun n => Z.of_nat (n mod 1010) # 1010).

(** A listing of five entries, and a catalog in which the lookups of
    "char" and of "charmeleon" fail. *)
Definition kantoListing : list ListEntry :=
  [mkEntry "bulbasaur" "https://pokeapi.co/api/v2/pokemon/1/";
   mkEntry "charmander" "https://pokeapi.co/api/v2/pokemon/4/";
   mkEntry "charmeleon" "https://pokeapi.co/api/v2/pokemon/5/";
   mkEntry "charizard" "https://pokeapi.co/api/v2/pokemon/6/";
   mkEntry "pikachu" "https://pokeapi.co/api/v2/pokemon/25/"].

Definition unavailable : JsError :=
  mkError ErrorK "Failed to fetch the resource after 3 retries: HTTP 503: Service Unavailable".

Definition kanto : Environment :=
  mkEnv (fun _ id =>
           match id with
           | JStr s =>
               if (s =? "bulbasaur")%string then Fulfilled (card 1 s)
               else if (s =? "charmander")%string then Fulfilled (card 4 s)
               else if (s =? "charizard")%string then Fulfilled (card 6 s)
               else if (s =? "pikachu")%string then Fulfilled (card 25 s)
               else Rejected unavailable
           | _ => Rejected unavailable
           end)
        (fun _ _ _ => Fulfilled kantoListing)
        (fun _ => 0%Q).

End Service.

(* ===================================================================== *)
(** * Sorting: [PokemonController.sortCurrentPokemon]                    *)
(* ===================================================================== *)

Module Controller.

(** The value the [switch] on [this.state.sortBy] selects. *)
Definition sortKey (sortBy : string) (a : Pokemon) : completion JsVal :=
  if (sortBy =? "name")%string then Normal (JStr (toLowerCase (name a)))
  else if (sortBy =? "stats")%string then getStatTotal (stats a)
  else if (sortBy =? "type")%string
  then Normal (getPrimaryType (typeNames a))
  else Normal (JNum (id a)).

(** The comparator passed to [sort]. *)
Definition comparator (sortBy sortOrder : string) (a b : Pokemon)
  : completion Z :=
  valueA <- sortKey sortBy a ;;
  valueB <- sortKey sortBy b ;;
  if (sortOrder =? "desc")%string
  then Normal (if js_gt valueB valueA then 1
               else if js_lt valueB valueA then -1 else 0)
  else Normal (if js_gt valueA valueB then 1
               else if js_lt valueA valueB then -1 else 0).

(** [Array.prototype.sort(compare)].  ECMAScript requires the sort to be
    stable and to order by a consistent comparator; it is modelled by the
    insertion sort that moves an element past another one only when the
    comparator returns a positive number for the pair. *)
Fixpoint insertSorted {A : Type} (compare : A -> A -> completion Z) (x : A)
  (sorted : list A) : completion (list A) :=
  match sorted with
  | [] => Normal [x]
  | y :: rest =>
      c <- compare x y ;;
      if 0 <? c
      then placed <- insertSorted compare x rest ;; Normal (y :: placed)
      else Normal (x :: sorted)
  end.

Fixpoint Array_sort {A : Type} (compare : A -> A -> completion Z)
  (xs : list A) : completion (list A) :=
  match xs with
  | [] => Normal []
  | x :: rest =>
      sorted <- Array_sort compare rest ;; insertSorted compare x sorted
  end.

(** [sortCurrentPokemon]: the new value of [this.state.pokemon]. *)
Definition sortCurrentPokemon (sortBy sortOrder : string)
  (pokemon : list Pokemon) : completion (list Pokemon) :=
  Array_sort (comparator sortBy sortOrder) pokemon.

(** The comparator does not ask for [b] before [a]. *)
Definition inOrder {A : Type} (compare : A -> A -> completion Z) (a b : A)
  : Prop :=
  exists c, compare a b = Normal c /\ c <= 0.

(** The entries of [l] whose key is [k], in the order of [l]. *)
Definition entriesWithKey {A K : Type}
  (K_eq_dec : forall x y : K, {x = y} + {x <> y})
  (key : A -> completion K) (k : K) (l : list A) : list A :=
  filter (fun a => match key a with
                   | Normal v => if K_eq_dec v k then true else false
                   | Throw _ => false
                   end) l.

(** The entries of [l] whose sort key is [k], in the order of [l]. *)
Definition withKey (sortBy : string) (k : JsVal) (l : list Pokemon)
  : list Pokemon :=
  entriesWithKey JsVal_eq_dec (sortKey sortBy) k l.

(** The instance built from a payload. *)
Definition built (data : JsVal) : Pokemon :=
  match fromAPI data with
  | Normal p => p
  | Throw _ => mkPokemon (Fin 0) "" (Fin 0) (Fin 0) (Fin 0) [] [] []
                 (JObj []) (JObj []) JUndefined [] [] JUndefined JUndefined
  end.

Definition typed (n : Z) (name type : string) : JsVal :=
  JObj [("id", JNum (Fin n)); ("name", JStr name);
        ("types", JArr [JObj [("type", JObj [("name", JStr type)])]])].

Definition ivysaurCard : Pokemon := built (typed 2 "ivysaur" "grass").
Definition charmanderCard : Pokemon := built (typed 4 "charmander" "fire").
Definition bulbasaurCard : Pokemon := built (typed 1 "bulbasaur" "grass").

(** Every entry's sort key can be read. *)
Definition keysReadable (sortBy : string) (l : list Pokemon) : Prop :=
  forall p, In p l -> exists v, sortKey sortBy p = Normal v.

End Controller.

(* ===================================================================== *)
(** * Vocabulary of the properties of the model class                    *)
(* ===================================================================== *)

Module PokemonSpec.

(** When [validateNumber(data.id, 'ID')] throws. *)
Definition idRejected (v : JsVal) : bool :=
  match v with
  | JNull => true
  | JUndefined => true
  | _ => isNaN v
  end.

(** When [validateString(data.name, 'Name')] throws. *)
Definition nameRejected (v : JsVal) : bool :=
  match v with
  | JStr s => (trim s =? "")%string
  | _ => true
  end.

Definition isNull (v : JsVal) : bool :=
  match v with
  | JNull => true
  | _ => false
  end.

(** No element of an array-valued field is [null]. *)
Definition noNullEntry (v : JsVal) : bool :=
  match v with
  | JArr items => forallb (fun e => negb (isNull e)) items
  | _ => true
  end.

Definition idError : JsError :=
  mkError ErrorK "ID is required and must be a valid number".

Definition nameError : JsError :=
  mkError ErrorK "Name is required and must be a non-empty string".

(** The value [validateArray] and [validateObject] store. *)
Definition arrayOrEmpty (v : JsVal) : list JsVal :=
  match v with
  | JArr items => items
  | _ => []
  end.

Definition objectOrEmpty (v : JsVal) : JsVal :=
  match v with
  | JObj fields => v
  | _ => JObj []
  end.

(** The computed properties, given the validated fields. *)
Definition computed (id : number) (name : string)
  (height weight base_experience : number) (types abilities stats : list JsVal)
  (sprites cries : JsVal) : completion Pokemon :=
  typeNames <- getTypeNames types ;;
  abilityNames <- getAbilityNames abilities ;;
  statTotal <- getStatTotal stats ;;
  Normal (mkPokemon id name height weight base_experience types abilities
            stats sprites cries (getImageUrl sprites) typeNames abilityNames
            (getPrimaryType typeNames) statTotal).

Definition optionalNumber (v : JsVal) : number :=
  if truthy (JNum (ToNumber v)) then ToNumber v else Fin 0.

(** ** The failure condition as the specification words it *)

Definition finiteNumber (v : JsVal) : bool :=
  match v with
  | JNum (Fin _) => true
  | _ => false
  end.

Definition missingOrBlank (v : JsVal) : bool :=
  match v with
  | JUndefined => true
  | JNull => true
  | JStr s => (trim s =? "")%string
  | _ => false
  end.

Definition present (v : JsVal) : bool :=
  match v with
  | JUndefined => false
  | _ => true
  end.

Definition isRecord (v : JsVal) : bool :=
  match v with
  | JObj _ => true
  | _ => false
  end.

(** A required-shape field is present but not of the expected container
    type. *)
Definition wrongShape (data : JsVal) : bool :=
  let sequence k := present (GetOpt data k) && negb (isArray (GetOpt data k)) in
  sequence "types" || sequence "abilities" || sequence "stats"
  || (present (GetOpt data "sprites") && negb (isRecord (GetOpt data "sprites"))).

Definition specRejects (data : JsVal) : bool :=
  negb (finiteNumber (GetOpt data "id"))
  || missingOrBlank (GetOpt data "name")
  || wrongShape data.

(** ** Signs of numbers *)

Definition nonNegative (n : number) : Prop :=
  match n with
  | NaN => False
  | Infinity negative => negative = false
  | Fin z => 0 <= z
  end.

Definition negative (n : number) : Prop :=
  match n with
  | NaN => False
  | Infinity negative => negative = true
  | Fin z => z < 0
  end.

(** A stat entry that is a record with the integer [z] as [base_stat]. *)
Definition hasBaseStat (entry : JsVal) (z : Z) : Prop :=
  exists fields, entry = JObj fields /\ lookup "base_stat" fields = JNum (Fin z).

Definition sum (zs : list Z) : Z := fold_right Z.add 0 zs.

(** The tiers of [getRarity] on an integer total. *)
Definition tier (total : Z) : string :=
  if 600 <=? total then "legendary"
  else if 500 <=? total then "rare"
  else if 400 <=? total then "uncommon"
  else "common".

(** Payloads. *)
Definition pikachuWithTextTypes : JsVal :=
  JObj [("id", JNum (Fin 25)); ("name", JStr "pikachu");
        ("types", JStr "electric")].

Definition negativeHeight : JsVal :=
  JObj [("id", JNum (Fin 1)); ("name", JStr "bulbasaur");
        ("height", JNum (Fin (-7)))].

Definition mewtwoStats : list Z := [106; 110; 90; 154; 90; 50].

Definition mewtwo : JsVal :=
  JObj [("id", JNum (Fin 150)); ("name", JStr "mewtwo");
        ("stats", JArr (map stat mewtwoStats))].

End PokemonSpec.

(* ===================================================================== *)
(** * The cache: [getFromCache], [setCache], [clearCache]                *)
(* ===================================================================== *)

Module Cache.

(** A cached value [{ data, timestamp }]. *)
Record Entry (A : Type) : Type := mkCached {
  data : A;
  timestamp : Z
}.

Arguments mkCached {A} data timestamp.
Arguments data {A} e.
Arguments timestamp {A} e.

(** [this.cache], a [Map] from keys to cached values: its bindings in
    insertion order, with pairwise distinct keys. *)
Definition Store (A : Type) : Type := list (string * Entry A).

Definition cacheExpiry : Z := 5 * 60 * 1000.

Fixpoint Map_get {A : Type} (key : string) (m : Store A) : option (Entry A) :=
  match m with
  | [] => None
  | (k, e) :: rest => if (k =? key)%string then Some e else Map_get key rest
  end.

(** [Map.prototype.set]: the value of an existing key is replaced in
    place, a new key is added at the end. *)
Fixpoint Map_set {A : Type} (key : string) (e : Entry A) (m : Store A)
  : Store A :=
  match m with
  | [] => [(key, e)]
  | (k, e') :: rest =>
      if (k =? key)%string then (k, e) :: rest
      else (k, e') :: Map_set key e rest
  end.

Fixpoint Map_delete {A : Type} (key : string) (m : Store A) : Store A :=
  match m with
  | [] => []
  | (k, e) :: rest =>
      if (k =? key)%string then Map_delete key rest
      else (k, e) :: Map_delete key rest
  end.

(** [getFromCache(key)] when [Date.now()] is [now]: the data, or [None]
    for [null], and the cache it leaves. *)
Definition getFromCache {A : Type} (key : string) (now : Z) (m : Store A)
  : option A * Store A :=
  match Map_get key m with
  | Some cached =>
      if now - timestamp cached <? cacheExpiry
      then (Some (data cached), m)
      else (None, Map_delete key m)
  | None => (None, Map_delete key m)
  end.

(** [setCache(key, data)] when [Date.now()] is [now]. *)
Definition setCache {A : Type} (key : string) (d : A) (now : Z) (m : Store A)
  : Store A :=
  Map_set key (mkCached d now) m.

Definition clearCache {A : Type} (m : Store A) : Store A := [].

End Cache.

(* ===================================================================== *)
(** * The service with its cache: one call at a time                     *)
(* ===================================================================== *)

(** The methods of [PokemonApiService] that go through the cache, for a
    caller that awaits each call before the next: the queue is then idle
    at every call and runs the queued function at once.  [now] is what
    [Date.now()] returns when the cache is read, [storedAt] what it
    returns when the result is stored. *)
Module Api.

Import Cache Transport.

(** What the cache holds: instances of [Pokemon], and payloads as
    [response.json()] gave them. *)
Inductive Cached : Type :=
| Instance (pokemon : Pokemon)
| Payload (payload : JsVal).

(** [if (cached)]: an instance is an object. *)
Definition truthyCached (c : Cached) : bool :=
  match c with
  | Instance _ => true
  | Payload v => truthy v
  end.

Record ApiState : Type := mkApi {
  cache : Store Cached;
  world : World
}.

Definition initialApi : ApiState := mkApi [] world0.

Definition baseUrl : string := "https://pokeapi.co/api/v2".

Definition quote : string := String (ascii_of_nat 34) EmptyString.

(** [JSON.stringify(params)] on the parameter objects of this program,
    whose properties are integers. *)
Definition stringifyParams (params : list (string * Z)) : string :=
  ("{"
   ++ String.concat ","
        (map (fun kv => quote ++ fst kv ++ quote ++ ":"
                        ++ NumberToString (Fin (snd kv))) params)
   ++ "}")%string.

Definition getCacheKey (url : string) (params : list (string * Z)) : string :=
  (url ++ "_" ++ stringifyParams params)%string.

(** [getPokemonById]: read the cache and return a truthy hit; else
    request the payload, build the instance, store it and return it. *)
Definition getPokemonById (net : Network) (id : JsVal) (now storedAt : Z)
  (s : ApiState) : Settled Cached * ApiState :=
  if negb (truthy id)
     || (negb (typeof id =? "number")%string
         && negb (typeof id =? "string")%string)
  then (Rejected (mkError ErrorK "Invalid Pokemon ID provided"), s)
  else
    let cacheKey := getCacheKey ("pokemon/" ++ ToString id)%string [] in
    let (cached, cache1) := getFromCache cacheKey now (cache s) in
    let request :=
      match makeRequest net (baseUrl ++ "/pokemon/" ++ ToString id)%string
              0 (world s) with
      | (Throw e, w) => (Rejected e, mkApi cache1 w)
      | (Normal payload, w) =>
          match fromAPI payload with
          | Throw e => (Rejected e, mkApi cache1 w)
          | Normal pokemon =>
              (Fulfilled (Instance pokemon),
               mkApi (setCache cacheKey (Instance pokemon) storedAt cache1) w)
          end
      end in
    match cached with
    | Some hit =>
        if truthyCached hit then (Fulfilled hit, mkApi cache1 (world s))
        else request
    | None => request
    end.

Definition getPokemonByName (net : Network) (name : JsVal) (now storedAt : Z)
  (s : ApiState) : Settled Cached * ApiState :=
  match name with
  | JStr str =>
      if negb (truthy name)
      then (Rejected (mkError ErrorK "Invalid Pokemon name provided"), s)
      else getPokemonById net (JStr (trim (toLowerCase str))) now storedAt s
  | _ => (Rejected (mkError ErrorK "Invalid Pokemon name provided"), s)
  end.

(** The part common to [getPokemonList], [getPokemonByType] and
    [getAllTypes] after their checks: the payload is cached as it is. *)
Definition cachedPayload (net : Network) (cacheKey url : string)
  (now storedAt : Z) (s : ApiState) : Settled Cached * ApiState :=
  let (cached, cache1) := getFromCache cacheKey now (cache s) in
  let request :=
    match makeRequest net url 0 (world s) with
    | (Throw e, w) => (Rejected e, mkApi cache1 w)
    | (Normal payload, w) =>
        (Fulfilled (Payload payload),
         mkApi (setCache cacheKey (Payload payload) storedAt cache1) w)
    end in
  match cached with
  | Some hit =>
      if truthyCached hit then (Fulfilled hit, mkApi cache1 (world s))
      else request
  | None => request
  end.

Definition getPokemonList (net : Network) (limit offset : Z)
  (now storedAt : Z) (s : ApiState) : Settled Cached * ApiState :=
  if (limit <? 1) || (limit >? 1000)
  then (Rejected (mkError ErrorK "Limit must be between 1 and 1000"), s)
  else if offset <? 0
  then (Rejected (mkError ErrorK "Offset must be non-negative"), s)
  else cachedPayload net
         (getCacheKey "pokemon-list" [("limit", limit); ("offset", offset)])
         (baseUrl ++ "/pokemon?limit=" ++ NumberToString (Fin limit)
          ++ "&offset=" ++ NumberToString (Fin offset))%string
         now storedAt s.

Definition getPokemonByType (net : Network) (type : JsVal) (now storedAt : Z)
  (s : ApiState) : Settled Cached * ApiState :=
  match type with
  | JStr str =>
      if negb (truthy type)
      then (Rejected (mkError ErrorK "Type must be a non-empty string"), s)
      else cachedPayload net (getCacheKey ("type/" ++ str)%string [])
             (baseUrl ++ "/type/" ++ toLowerCase str)%string now storedAt s
  | _ => (Rejected (mkError ErrorK "Type must be a non-empty string"), s)
  end.

Definition getAllTypes (net : Network) (now storedAt : Z) (s : ApiState)
  : Settled Cached * ApiState :=
  cachedPayload net (getCacheKey "types" []) (baseUrl ++ "/type")%string
    now storedAt s.

(** [moves?.slice(0, limit) || []] on the [moves] of a payload; an
    instance of [Pokemon] has no such property. *)
Definition sliceMoves (limit : Z) (moves : JsVal) : JsVal :=
  match moves with
  | JArr items => JArr (Service.slice0 limit items)
  | JStr str =>
      match Service.slice0 limit (list_ascii_of_string str) with
      | [] => JArr []
      | chars => JStr (string_of_list_ascii chars)
      end
  | _ => JArr []
  end.

Definition getPokemonMoves (net : Network) (pokemonId : JsVal)
  (limit : option Z) (now storedAt : Z) (s : ApiState) : JsVal * ApiState :=
  let limit := match limit with Some l => l | None => 10 end in
  match getPokemonById net pokemonId now storedAt s with
  | (Fulfilled (Instance pokemon), s') => (JArr [], s')
  | (Fulfilled (Payload v), s') => (sliceMoves limit (GetOpt v "moves"), s')
  | (Rejected _, s') => (JArr [], s')
  end.

(** The calls a client may make. *)
Inductive Request : Type :=
| ById (id : JsVal)
| ByName (name : JsVal)
| Listing (limit offset : Z)
| ByType (type : JsVal)
| AllTypes
| Moves (id : JsVal) (limit : option Z)
| ClearCache.

Definition perform (net : Network) (r : Request) (now storedAt : Z)
  (s : ApiState) : ApiState :=
  match r with
  | ById id => snd (getPokemonById net id now storedAt s)
  | ByName name => snd (getPokemonByName net name now storedAt s)
  | Listing limit offset => snd (getPokemonList net limit offset now storedAt s)
  | ByType type => snd (getPokemonByType net type now storedAt s)
  | AllTypes => snd (getAllTypes net now storedAt s)
  | Moves id limit => snd (getPokemonMoves net id limit now storedAt s)
  | ClearCache => mkApi (clearCache (cache s)) (world s)
  end.

(** The states of the service: what calls made one after the other lead
    to. *)
Inductive Reachable (net : Network) : ApiState -> Prop :=
| Reachable_initial : Reachable net initialApi
| Reachable_perform : forall s r now storedAt,
    Reachable net s -> Reachable net (perform net r now storedAt s).

(** The keys of [getPokemonById] hold instances only. *)
Definition pokemonKeysHoldInstances (m : Store Cached) : Prop :=
  forall key e,
    Map_get key m = Some e -> prefix "pokemon/" key = true ->
    exists pokemon, data e = Instance pokemon.

(** A network that answers every request with the payload of pikachu. *)
Definition pikachuPayload : JsVal :=
  JObj [("id", JNum (Fin 25)); ("name", JStr "pikachu");
        ("moves", JArr [JObj [("move", JObj [("name", JStr "thunder-shock")])]])].

Definition alwaysPikachu : Network :=
  fun _ _ => Response 200 "OK" (JsonBody pikachuPayload).

End Api.

(* ===================================================================== *)
(** * More methods of the [Pokemon] model class                          *)
(* ===================================================================== *)

Module PokemonMethods.

(** [toJSON()] *)
Definition toJSON (p : Pokemon) : JsVal :=
  JObj [("id", JNum (PokemonModel.id p));
        ("name", JStr (PokemonModel.name p));
        ("height", JNum (height p));
        ("weight", JNum (weight p));
        ("base_experience", JNum (base_experience p));
        ("types", JArr (types p));
        ("abilities", JArr (abilities p));
        ("stats", JArr (stats p));
        ("sprites", sprites p);
        ("cries", cries p);
        ("imageUrl", imageUrl p);
        ("typeNames", JArr (typeNames p));
        ("abilityNames", JArr (abilityNames p));
        ("primaryType", primaryType p);
        ("statTotal", statTotal p)].

(** The callback of [find] in [getStatByName], for a name that is a
    string: [typeof s === 'object' && s.stat && s.stat.name === statName]. *)
Definition isStatNamed (statName : string) (s : JsVal) : completion bool :=
  if (typeof s =? "object")%string
  then inner <- Get s "stat" ;;
       if truthy inner
       then n <- Get inner "name" ;;
            Normal (match n with
                    | JStr str => (str =? statName)%string
                    | _ => false
                    end)
       else Normal false
  else Normal false.

(** [xs.find(f)] for a callback that may throw. *)
Fixpoint findM {A : Type} (f : A -> completion bool) (xs : list A)
  : completion (option A) :=
  match xs with
  | [] => Normal None
  | x :: rest =>
      found <- f x ;;
      if found then Normal (Some x) else findM f rest
  end.

Definition getStatByName (stats : list JsVal) (statName : string)
  : completion JsVal :=
  found <- findM (isStatNamed statName) stats ;;
  match found with
  | Some stat => Get stat "base_stat"
  | None => Normal (JNum (Fin 0))
  end.

(** A stat entry as the catalog gives it:
    [{ base_stat: z, stat: { name: n } }], whatever else it holds. *)
Definition isNamedStat (entry : JsVal) (named : string * Z) : Prop :=
  exists fields inner,
    entry = JObj fields
    /\ lookup "base_stat" fields = JNum (Fin (snd named))
    /\ lookup "stat" fields = JObj inner
    /\ lookup "name" inner = JStr (fst named).

Definition namedStat (named : string * Z) : JsVal :=
  JObj [("base_stat", JNum (Fin (snd named)));
        ("effort", JNum (Fin 0));
        ("stat", JObj [("name", JStr (fst named))])].

Definition pikachuStats : list (string * Z) :=
  [("hp", 35); ("attack", 55); ("defense", 40); ("special-attack", 50);
   ("special-defense", 50); ("speed", 90)].

Definition pikachu : JsVal :=
  JObj [("id", JNum (Fin 25)); ("name", JStr " pikachu ");
        ("height", JNum (Fin 4)); ("weight", JNum (Fin 60));
        ("types", JArr [JObj [("type", JObj [("name", JStr "electric")])]]);
        ("stats", JArr (map namedStat pikachuStats));
        ("sprites", JObj [("front_default", JStr "sprites/25.png")])].

End PokemonMethods.

(* ===================================================================== *)
(** * More of [PokemonController]: duplicates and favorites              *)
(* ===================================================================== *)

Module ControllerState.

(** [a === b] on numbers: [NaN] equals nothing. *)
Definition strictEqualsNumber (a b : number) : bool :=
  match a, b with
  | NaN, _ => false
  | _, NaN => false
  | Infinity s, Infinity t => Bool.eqb s t
  | Fin x, Fin y => x =? y
  | _, _ => false
  end.

(** SameValueZero on numbers, the equality of [includes]: [NaN] equals
    [NaN]. *)
Definition sameValueZero (a b : number) : bool :=
  match a, b with
  | NaN, NaN => true
  | _, _ => strictEqualsNumber a b
  end.

(** [xs.findIndex(f)], counting from [i]. *)
Fixpoint findIndexFrom {A : Type} (f : A -> bool) (i : Z) (xs : list A) : Z :=
  match xs with
  | [] => -1
  | x :: rest => if f x then i else findIndexFrom f (i + 1) rest
  end.

Definition findIndex {A : Type} (f : A -> bool) (xs : list A) : Z :=
  findIndexFrom f 0 xs.

(** [xs.filter((x, index) => f x index)], counting from [i]. *)
Fixpoint filterIndexedFrom {A : Type} (f : A -> Z -> bool) (i : Z)
  (xs : list A) : list A :=
  match xs with
  | [] => []
  | x :: rest =>
      if f x i then x :: filterIndexedFrom f (i + 1) rest
      else filterIndexedFrom f (i + 1) rest
  end.

(** The removal of duplicates in [filterByType]:
    [allResults.filter((pokemon, index, self) =>
       index === self.findIndex(p => p.id === pokemon.id))]. *)
Definition uniqueResults (allResults : list Pokemon) : list Pokemon :=
  filterIndexedFrom
    (fun pokemon index =>
       index =? findIndex (fun p => strictEqualsNumber (PokemonModel.id p)
                                      (PokemonModel.id pokemon))
                  allResults)
    0 allResults.

(** One pass that keeps an entry when its id is a number that no earlier
    entry has. *)
Fixpoint firstOccurrences (earlier rest : list Pokemon) : list Pokemon :=
  match rest with
  | [] => []
  | x :: rest' =>
      if strictEqualsNumber (PokemonModel.id x) (PokemonModel.id x)
         && negb (existsb (fun p => strictEqualsNumber (PokemonModel.id p)
                                      (PokemonModel.id x)) earlier)
      then x :: firstOccurrences (earlier ++ [x]) rest'
      else firstOccurrences (earlier ++ [x]) rest'
  end.

(** [favorites.indexOf(pokemonId)] *)
Definition indexOf (pokemonId : number) (favorites : list number) : Z :=
  findIndex (fun x => strictEqualsNumber x pokemonId) favorites.

(** [isFavorite(pokemonId)]: [this.state.favorites.includes(pokemonId)] *)
Definition isFavorite (favorites : list number) (pokemonId : number) : bool :=
  existsb (fun x => sameValueZero x pokemonId) favorites.

(** [toggleFavorite(pokemonId)]: the new value of
    [this.state.favorites], which is also what is saved and emitted. *)
Definition toggleFavorite (favorites : list number) (pokemonId : number)
  : list number :=
  let index := indexOf pokemonId favorites in
  if index >? -1
  then RequestQueue.removeAt (Z.to_nat index) favorites
  else favorites ++ [pokemonId].

End ControllerState.

(* ===================================================================== *)
(** * The requests of the service, as a log

    Every operation of [Service] checks its arguments before it issues a
    request.  [checkedCall] is what those checks let through, and
    [Extends st st'] says that [st'] is [st] after more requests that
    all passed them. *)
(* ===================================================================== *)

Module ServiceLog.

Import Service.

(** The test of [getPokemonById] on its argument, and the tests of
    [getPokemonList] on its two. *)
Definition checkedCall (c : Call) : bool :=
  match c with
  | FetchPokemon id =>
      truthy id
      && ((typeof id =? "number")%string || (typeof id =? "string")%string)
  | FetchList limit offset =>
      (1 <=? limit) && (limit <=? 1000) && (0 <=? offset)
  end.

Definition Extends (st st' : ServiceState) : Prop :=
  exists added,
    issued st' = issued st ++ added
    /\ forallb checkedCall added = true
    /\ (exists lines, console st' = console st ++ lines).

End ServiceLog.


(* ===================================================================== *)
(** * The stat filter of [filterPokemon]                                  *)
(* ===================================================================== *)

Module Filtering.

(** [xs.filter(f)] for a callback that may throw. *)
Fixpoint filterM {A : Type} (f : A -> completion bool) (xs : list A)
  : completion (list A) :=
  match xs with
  | [] => Normal []
  | x :: rest =>
      keep <- f x ;;
      kept <- filterM f rest ;;
      Normal (if keep then x :: kept else kept)
  end.

(** The callback of the filter:
    [const total = pokemon.getStatTotal();
     if (minStats && total < minStats) return false;
     if (maxStats && total > maxStats) return false;
     return true;] *)
Definition withinStats (minStats maxStats : JsVal) (pokemon : Pokemon)
  : completion bool :=
  total <- getStatTotal (stats pokemon) ;;
  if truthy minStats && js_lt total minStats then Normal false
  else if truthy maxStats && js_gt total maxStats then Normal false
  else Normal true.

(** [if (minStats || maxStats) { results = results.filter(...) }] *)
Definition statFilter (minStats maxStats : JsVal) (results : list Pokemon)
  : completion (list Pokemon) :=
  if truthy minStats || truthy maxStats
  then filterM (withinStats minStats maxStats) results
  else Normal results.

(** A bound as the caller gives it: absent, [null] or an integer; and
    the bound it stands for, 0 standing for none. *)
Definition isBound (v : JsVal) : Prop :=
  v = JUndefined \/ v = JNull \/ exists z, v = JNum (Fin z).

Definition boundOf (v : JsVal) : option Z :=
  match v with
  | JNum (Fin z) => if z =? 0 then None else Some z
  | _ => None
  end.

(** The total of an entity whose stats sum to an integer. *)
Definition statSum (pokemon : Pokemon) : Z :=
  match getStatTotal (stats pokemon) with
  | Normal (JNum (Fin z)) => z
  | _ => 0
  end.

Definition inRange (lo hi : option Z) (total : Z) : bool :=
  match lo with Some m => m <=? total | None => true end
  && match hi with Some m => total <=? m | None => true end.

Definition entityOf (data : JsVal) : list Pokemon :=
  match fromAPI data with
  | Normal pokemon => [pokemon]
  | Throw _ => []
  end.

End Filtering.


(* ===================================================================== *)
(** * Properties                                                         *)
(* ===================================================================== *)

(** ** The built-ins on small inputs *)

Example ToNumber_examples :
  ToNumber (JStr " 12 ") = Fin 12
  /\ ToNumber (JStr "") = Fin 0
  /\ ToNumber (JStr "-7") = Fin (-7)
  /\ ToNumber (JStr "abc") = NaN
  /\ ToNumber JNull = Fin 0
  /\ ToNumber JUndefined = NaN
  /\ ToNumber (JBool true) = Fin 1
  /\ ToNumber (JArr []) = Fin 0
  /\ ToNumber (JArr [JNum (Fin 7)]) = Fin 7
  /\ ToNumber (JArr [JNum (Fin 1); JNum (Fin 2)]) = NaN
  /\ ToNumber (JObj []) = NaN.
Proof. repeat split; reflexivity. Qed.

Example string_examples :
  trim "  a b  " = "a b"
  /\ trim "   " = ""
  /\ toLowerCase "PikaCHU" = "pikachu"
  /\ includes "charmander" "char" = true
  /\ includes "Charmander" "char" = false
  /\ includes "abc" "" = true
  /\ ToString (JArr [JNum (Fin 1); JNull; JStr "a"]) = "1,,a".
Proof. repeat split; reflexivity. Qed.

Example operator_examples :
  js_add (JNum (Fin 318)) (JNum (Fin 45)) = JNum (Fin 363)
  /\ js_add (JNum (Fin 0)) (JStr "45") = JStr "045"
  /\ js_add (JNum (Fin 1)) (JBool true) = JNum (Fin 2)
  /\ js_ge (JNum (Fin 600)) (JNum (Fin 600)) = true
  /\ js_ge (JNum NaN) (JNum (Fin 400)) = false
  /\ js_gt (JStr "b") (JStr "a") = true
  /\ js_lt (JStr "10") (JStr "9") = true
  /\ js_lt (JNum (Fin 9)) (JStr "10") = true.
Proof. repeat split; reflexivity. Qed.

(** A payload without [name]: the validation error that names it. *)
Example missing_name :
  new_Pokemon (JObj [("id", JNum (Fin 25))])
  = Throw (mkError ErrorK "Name is required and must be a non-empty string").
Proof. reflexivity. Qed.

(** A [null] element in [stats]: a [TypeError], not a validation error. *)
Example null_stat :
  new_Pokemon (JObj [("id", JNum (Fin 25)); ("name", JStr "pikachu");
                     ("stats", JArr [JNull])])
  = Throw (mkError TypeErrorK
             "Cannot read properties of null (reading 'base_stat')").
Proof. reflexivity. Qed.

Example burst_log :
  option_map RequestQueue.log (RequestQueue.run RequestQueue.initial RequestQueue.burst)
  = Some [RequestQueue.Started 0 0;
          RequestQueue.Finished 0 (Fulfilled (JStr "first")) 40;
          RequestQueue.Started 1 140;
          RequestQueue.Finished 1 (Rejected RequestQueue.boom) 150;
          RequestQueue.Started 2 250].
Proof. reflexivity. Qed.

Import PokemonSpec.

Lemma bind_Normal {A B : Type} (c : completion A) (k : A -> completion B) b :
  bind c k = Normal b -> exists a, c = Normal a /\ k a = Normal b.
Proof. destruct c; simpl; intros H; [eauto | discriminate]. Qed.

Ltac unbind H :=
  repeat (apply bind_Normal in H;
          let a := fresh "a" in
          let E := fresh "E" in
          destruct H as (a & E & H); cbv beta zeta in H).

(** What the optional validators return: they never throw. *)
Lemma validateNumber_optional v f :
  validateNumber v f false
  = Normal (if truthy (JNum (ToNumber v)) then ToNumber v else Fin 0).
Proof. reflexivity. Qed.

Lemma validateArray_optional v f :
  validateArray v f false = Normal (arrayOrEmpty v).
Proof. reflexivity. Qed.

Lemma validateObject_optional v f :
  validateObject v f false = Normal (objectOrEmpty v).
Proof.
  unfold validateObject. simpl.
  destruct v as [| |[]|[| |z]|[|c s]| |]; simpl; try reflexivity.
  destruct (z =? 0); reflexivity.
Qed.

Lemma validateNumber_required v f :
  validateNumber v f true
  = if idRejected v
    then Throw (mkError ErrorK (f ++ " is required and must be a valid number"))
    else Normal (if truthy (JNum (ToNumber v)) then ToNumber v else Fin 0).
Proof. unfold validateNumber, idRejected. destruct v; simpl; reflexivity. Qed.

Lemma validateString_required v f :
  validateString v f true
  = if nameRejected v
    then Throw (mkError ErrorK
                  (f ++ " is required and must be a non-empty string"))
    else Normal (match v with JStr s => trim s | _ => "" end).
Proof.
  unfold validateString, nameRejected.
  destruct v as [| |[]|[| |z]|s| |]; simpl; try reflexivity.
  - destruct (z =? 0); reflexivity.
  - destruct s as [|c s]; simpl; [reflexivity|].
    destruct (trim (String c s) =? "")%string; reflexivity.
Qed.

(** Reading a property of the constructor's argument. *)
Lemma Get_argument data k :
  data <> JNull ->
  Get (match data with JUndefined => JObj [] | _ => data end) k
  = Normal (GetOpt data k).
Proof. destruct data; intros H; try reflexivity. congruence. Qed.

Lemma Get_truthy v k : truthy v = true -> Get v k = Normal (GetOpt v k).
Proof. destruct v; simpl; intros H; try reflexivity; discriminate. Qed.

(** The constructor, case by case. *)
Lemma new_Pokemon_cases data :
  data <> JNull ->
  new_Pokemon data
  = if idRejected (GetOpt data "id") then Throw idError
    else if nameRejected (GetOpt data "name") then Throw nameError
    else computed (optionalNumber (GetOpt data "id"))
           (match GetOpt data "name" with JStr s => trim s | _ => "" end)
           (optionalNumber (GetOpt data "height"))
           (optionalNumber (GetOpt data "weight"))
           (optionalNumber (GetOpt data "base_experience"))
           (arrayOrEmpty (GetOpt data "types"))
           (arrayOrEmpty (GetOpt data "abilities"))
           (arrayOrEmpty (GetOpt data "stats"))
           (objectOrEmpty (GetOpt data "sprites"))
           (objectOrEmpty (GetOpt data "cries")).
Proof.
  intros Hnull. unfold new_Pokemon, validateAndSet.
  rewrite !(Get_argument data _ Hnull).
  cbn [bind].
  rewrite validateNumber_required.
  destruct (idRejected (GetOpt data "id")); [reflexivity|].
  cbn [bind]. rewrite validateString_required.
  destruct (nameRejected (GetOpt data "name")); [reflexivity|].
  cbn [bind].
  rewrite !validateNumber_optional, !validateArray_optional,
    !validateObject_optional.
  reflexivity.
Qed.

Lemma new_Pokemon_null : exists e, new_Pokemon JNull = Throw e /\ kind e = TypeErrorK.
Proof. eexists. split; reflexivity. Qed.

(** The callbacks do not throw on an element that is not [null]. *)
Lemma nameOf_total k e :
  isNull e = false -> exists v, nameOf k e = Normal v.
Proof.
  intros H. unfold nameOf.
  destruct e; try discriminate; simpl; eauto.
  destruct (truthy (lookup k fields)) eqn:T; eauto.
  rewrite (Get_truthy _ _ T). eauto.
Qed.

Lemma mapM_total {A B : Type} (f : A -> completion B) (ok : A -> bool) xs :
  (forall x, ok x = true -> exists y, f x = Normal y) ->
  forallb ok xs = true -> exists ys, mapM f xs = Normal ys.
Proof.
  intros Hf. induction xs as [|x xs IH]; simpl; intros H; eauto.
  apply andb_true_iff in H. destruct H as [Hx Hxs].
  destruct (Hf x Hx) as [y ->]. destruct (IH Hxs) as [ys ->].
  simpl. eauto.
Qed.

Lemma statValue_total e :
  isNull e = false -> exists v, statValue e = Normal v.
Proof.
  intros H. unfold statValue. destruct e; try discriminate; simpl; eauto.
Qed.

Lemma reduceM_total {A B : Type} (f : B -> A -> completion B)
  (ok : A -> bool) xs :
  (forall acc x, ok x = true -> exists acc', f acc x = Normal acc') ->
  forallb ok xs = true -> forall acc, exists r, reduceM f xs acc = Normal r.
Proof.
  intros Hf. induction xs as [|x xs IH]; simpl; intros H acc; eauto.
  apply andb_true_iff in H. destruct H as [Hx Hxs].
  destruct (Hf acc x Hx) as [acc' ->]. simpl. apply IH, Hxs.
Qed.

Lemma getStatTotal_total items :
  forallb (fun e => negb (isNull e)) items = true ->
  exists v, getStatTotal items = Normal v.
Proof.
  intros H. unfold getStatTotal.
  eapply reduceM_total with (ok := fun e => negb (isNull e)); [|exact H].
  intros acc x Hx. apply negb_true_iff in Hx.
  destruct (statValue_total x Hx) as [v ->]. simpl. eauto.
Qed.

Lemma noNullEntry_arrayOrEmpty v :
  noNullEntry v = true ->
  forallb (fun e => negb (isNull e)) (arrayOrEmpty v) = true.
Proof. destruct v; simpl; auto. Qed.

Lemma computed_total id name h w b types abilities stats sprites cries :
  forallb (fun e => negb (isNull e)) types = true ->
  forallb (fun e => negb (isNull e)) abilities = true ->
  forallb (fun e => negb (isNull e)) stats = true ->
  exists p, computed id name h w b types abilities stats sprites cries
            = Normal p
            /\ PokemonModel.types p = types
            /\ PokemonModel.abilities p = abilities
            /\ PokemonModel.stats p = stats
            /\ PokemonModel.sprites p = sprites.
Proof.
  intros Ht Ha Hs. unfold computed, getTypeNames, getAbilityNames.
  destruct (mapM_total (nameOf "type") (fun e => negb (isNull e)) types)
    as [tn ->]; auto.
  { intros x Hx. apply nameOf_total. now apply negb_true_iff. }
  destruct (mapM_total (nameOf "ability") (fun e => negb (isNull e)) abilities)
    as [an ->]; auto.
  { intros x Hx. apply nameOf_total. now apply negb_true_iff. }
  destruct (getStatTotal_total stats Hs) as [total ->].
  simpl. eexists. repeat split.
Qed.

(** The computed properties throw nothing but a [TypeError]. *)
Lemma Get_throws v k e : Get v k = Throw e -> kind e = TypeErrorK.
Proof. destruct v; simpl; intros H; inversion H; reflexivity. Qed.

Lemma nameOf_throws k x e : nameOf k x = Throw e -> kind e = TypeErrorK.
Proof.
  unfold nameOf. destruct (typeof x =? "object")%string; [|discriminate].
  destruct (Get x k) eqn:G; simpl.
  - destruct (truthy a); [apply Get_throws | discriminate].
  - intros H. inversion H. subst. eapply Get_throws, G.
Qed.

Lemma mapM_throws {A B : Type} (f : A -> completion B) xs e :
  (forall x e, f x = Throw e -> kind e = TypeErrorK) ->
  mapM f xs = Throw e -> kind e = TypeErrorK.
Proof.
  intros Hf. induction xs as [|x xs IH]; simpl; [discriminate|].
  destruct (f x) eqn:F; simpl.
  - destruct (mapM f xs); simpl; [discriminate|].
    intros H. inversion H. subst. now apply IH.
  - intros H. inversion H. subst. eapply Hf, F.
Qed.

Lemma getStatTotal_throws xs e :
  getStatTotal xs = Throw e -> kind e = TypeErrorK.
Proof.
  unfold getStatTotal. generalize (JNum (Fin 0)).
  induction xs as [|x xs IH]; simpl; intros acc; [discriminate|].
  unfold statValue at 1.
  destruct (typeof x =? "object")%string; simpl; [|apply IH].
  destruct (Get x "base_stat") eqn:G; simpl; [apply IH|].
  intros H. inversion H. subst. eapply Get_throws, G.
Qed.

Lemma computed_throws id name h w b types abilities stats sprites cries e :
  computed id name h w b types abilities stats sprites cries = Throw e ->
  kind e = TypeErrorK.
Proof.
  unfold computed, getTypeNames, getAbilityNames.
  destruct (mapM (nameOf "type") types) eqn:T; simpl.
  2:{ intros H. inversion H. subst.
      eapply mapM_throws; [|exact T]. apply nameOf_throws. }
  destruct (mapM (nameOf "ability") abilities) eqn:A; simpl.
  2:{ intros H. inversion H. subst.
      eapply mapM_throws; [|exact A]. apply nameOf_throws. }
  destruct (getStatTotal stats) eqn:S; simpl; [discriminate|].
  intros H. inversion H. subst. eapply getStatTotal_throws, S.
Qed.

Lemma computed_fields id name h w b types abilities stats sprites cries p :
  computed id name h w b types abilities stats sprites cries = Normal p ->
  PokemonModel.id p = id /\ PokemonModel.name p = name
  /\ height p = h /\ weight p = w /\ base_experience p = b
  /\ PokemonModel.types p = types /\ PokemonModel.abilities p = abilities
  /\ PokemonModel.stats p = stats
  /\ getStatTotal stats = Normal (statTotal p).
Proof.
  unfold computed. intros H. unbind H. inversion H; subst; simpl.
  repeat split; auto.
Qed.

(** What construction accepts, and what it stores. *)
Lemma new_Pokemon_accepts data p :
  new_Pokemon data = Normal p ->
  data <> JNull
  /\ idRejected (GetOpt data "id") = false
  /\ nameRejected (GetOpt data "name") = false
  /\ height p = optionalNumber (GetOpt data "height")
  /\ weight p = optionalNumber (GetOpt data "weight")
  /\ base_experience p = optionalNumber (GetOpt data "base_experience")
  /\ stats p = arrayOrEmpty (GetOpt data "stats")
  /\ getStatTotal (stats p) = Normal (statTotal p).
Proof.
  intros H.
  assert (Hnull : data <> JNull) by (intros ->; discriminate).
  rewrite (new_Pokemon_cases data Hnull) in H.
  destruct (idRejected (GetOpt data "id")); [discriminate|].
  destruct (nameRejected (GetOpt data "name")); [discriminate|].
  apply computed_fields in H.
  destruct H as (_ & _ & Hh & Hw & Hb & _ & _ & Hs & Ht).
  rewrite Hs at 2. repeat split; auto.
Qed.




Lemma optionalNumber_spec v :
  optionalNumber v <> NaN
  /\ (ToNumber v = NaN -> optionalNumber v = Fin 0)
  /\ (ToNumber v <> NaN -> optionalNumber v = ToNumber v)
  /\ (nonNegative (optionalNumber v) <-> ~ negative (ToNumber v)).
Proof.
  unfold optionalNumber.
  destruct (ToNumber v) as [| [] | z]; simpl;
    [ | | | destruct (Z.eqb_spec z 0); subst; simpl ];
    repeat split; try discriminate; intros; try lia; try congruence;
    try (exfalso; auto; fail).
Qed.




Lemma statTotal_sum entries zs :
  Forall2 hasBaseStat entries zs ->
  forall acc,
    reduceM (fun total stat => value <- statValue stat ;;
                               Normal (js_add total value))
      entries (JNum (Fin acc))
    = Normal (JNum (Fin (acc + sum zs))).
Proof.
  induction 1 as [|e z entries zs (fields & -> & Hz) _ IH]; intros acc; simpl.
  - f_equal. f_equal. f_equal. lia.
  - rewrite Hz. simpl.
    replace (js_add (JNum (Fin acc))
               (if negb (z =? 0) then JNum (Fin z) else JNum (Fin 0)))
      with (JNum (Fin (acc + z))).
    + rewrite IH. f_equal. f_equal. f_equal. lia.
    + destruct (z =? 0) eqn:Z0; simpl; [|reflexivity].
      apply Z.eqb_eq in Z0. subst. reflexivity.
Qed.

Lemma getRarity_tier p total :
  statTotal p = JNum (Fin total) -> getRarity p = tier total.
Proof.
  intros H.
  assert (G : forall c, js_ge (JNum (Fin total)) (JNum (Fin c))
                        = (c <=? total)).
  { intros c. unfold js_ge, js_compare.
    cbn [ToPrimitive ToNumber number_compare].
    destruct (Z.compare_spec total c); destruct (Z.leb_spec c total);
      try reflexivity; lia. }
  unfold getRarity, tier. rewrite H, !G. reflexivity.
Qed.


Lemma stats_have_base zs : Forall2 hasBaseStat (map stat zs) zs.
Proof.
  induction zs as [|z zs IH]; simpl; constructor; auto.
  eexists. split; reflexivity.
Qed.


(* ===================================================================== *)
(** ** The retrying transport                                            *)
(* ===================================================================== *)

Import Transport.

Lemma makeRequest_unfold net url retries w :
  makeRequest net url retries w
  = match attempt net url w with
    | (Normal payload, w1) => (Normal payload, w1)
    | (Throw error, w1) =>
        if (retries <? maxRetries)%nat
        then makeRequest net url (S retries)
               (delay (retryDelay * 2 ^ Z.of_nat retries) w1)
        else (Throw (mkError ErrorK
                       ("Failed to fetch " ++ url ++ " after "
                        ++ NumberToString (Fin (Z.of_nat maxRetries))
                        ++ " retries: " ++ message error)%string), w1)
    end.
Proof.
  simp makeRequest.
  destruct (attempt net url w) as [[payload|error] w1];
    [reflexivity|].
  unfold makeRequest_unfold_clause_1, makeRequest_unfold_clause_1_clause_2.
  destruct (lt_dec retries maxRetries) as [L|L];
    destruct (Nat.ltb_spec retries maxRetries); try lia; reflexivity.
Qed.

Lemma attempt_at net url w :
  attempt net url w
  = (attemptResult net url (calls w), mkWorld (S (calls w)) (sleeps w)).
Proof.
  unfold attemptResult, attempt. simpl.
  destruct (net (calls w) url) as [m | status text [payload | m]];
    try reflexivity; destruct (negb (ok status)); reflexivity.
Qed.

(** After [k] failed attempts and a successful one: the payload of the
    last attempt, one wait before each retry. *)
Lemma makeRequest_succeeds net url k :
  forall retries w payload,
    (retries + k <= maxRetries)%nat ->
    (forall j, (j < k)%nat ->
               exists e, attemptResult net url (calls w + j) = Throw e) ->
    attemptResult net url (calls w + k) = Normal payload ->
    makeRequest net url retries w
    = (Normal payload,
       mkWorld (S (calls w + k))
         (sleeps w
          ++ map (fun j => retryDelay * 2 ^ Z.of_nat (retries + j))
               (seq 0 k))).
Proof.
  induction k as [|k IH]; intros retries w payload Hk Hfail Hok.
  - rewrite makeRequest_unfold, attempt_at.
    rewrite Nat.add_0_r in Hok. rewrite Hok. simpl.
    now rewrite Nat.add_0_r, app_nil_r.
  - rewrite makeRequest_unfold, attempt_at.
    destruct (Hfail 0%nat) as [e He]; [lia|].
    rewrite Nat.add_0_r in He. rewrite He.
    destruct (Nat.ltb_spec retries maxRetries) as [_|]; [|lia].
    rewrite (IH (S retries) _ payload); simpl calls; simpl sleeps.
    + f_equal. f_equal; [lia|].
      rewrite <- app_assoc. f_equal. simpl. f_equal.
      * now rewrite Nat.add_0_r.
      * rewrite <- seq_shift, map_map. apply map_ext.
        intros j. now rewrite Nat.add_succ_r.
    + lia.
    + intros j Hj. destruct (Hfail (S j)) as [e' He']; [lia|].
      exists e'. now rewrite <- He', Nat.add_succ_r.
    + now rewrite <- Hok, Nat.add_succ_r.
Qed.

(** After four failed attempts: the error names the URL and carries the
    message of the last failure. *)
Lemma makeRequest_exhausted net url cause :
  (forall j, (j < 3)%nat -> exists e, attemptResult net url j = Throw e) ->
  attemptResult net url 3 = Throw cause ->
  makeRequest net url 0 world0
  = (Throw (exhausted url cause), mkWorld 4 (backoff 3)).
Proof.
  intros Hfail Hlast.
  destruct (Hfail 0%nat) as [e0 H0]; [lia|].
  destruct (Hfail 1%nat) as [e1 H1]; [lia|].
  destruct (Hfail 2%nat) as [e2 H2]; [lia|].
  rewrite makeRequest_unfold, attempt_at. simpl calls. rewrite H0.
  cbn [Nat.ltb Nat.leb maxRetries].
  rewrite makeRequest_unfold, attempt_at. simpl calls. rewrite H1.
  cbn [Nat.ltb Nat.leb maxRetries].
  rewrite makeRequest_unfold, attempt_at. simpl calls. rewrite H2.
  cbn [Nat.ltb Nat.leb maxRetries].
  rewrite makeRequest_unfold, attempt_at. simpl calls. rewrite Hlast.
  cbn [Nat.ltb Nat.leb maxRetries].
  reflexivity.
Qed.

(** C3.  [makeRequest] retries a failed attempt up to 3 times and waits
    [retryDelay * 2^i] before retry [i] (1 s, 2 s and 4 s before the
    second, third and fourth attempt).  When the first two attempts fail
    and the third succeeds it resolves with the payload of the third
    after having waited [retryDelay * (2^0 + 2^1)].  When all four
    attempts fail it throws an error that names the URL and carries the
    message of the last failure. *)
Theorem C3_retry_schedule (net : Network) (url : string) :
  (forall k payload,
      (k <= maxRetries)%nat ->
      (forall j, (j < k)%nat -> exists e, attemptResult net url j = Throw e) ->
      attemptResult net url k = Normal payload ->
      makeRequest net url 0 world0 = (Normal payload, mkWorld (S k) (backoff k)))
  /\ backoff 3 = [1000; 2000; 4000]
  /\ (forall payload,
         (forall j, (j < 2)%nat ->
                    exists e, attemptResult net url j = Throw e) ->
         attemptResult net url 2 = Normal payload ->
         exists w, makeRequest net url 0 world0 = (Normal payload, w)
                   /\ calls w = 3%nat
                   /\ elapsed w = retryDelay * (2 ^ 0 + 2 ^ 1))
  /\ (forall cause,
         (forall j, (j < 3)%nat ->
                    exists e, attemptResult net url j = Throw e) ->
         attemptResult net url 3 = Throw cause ->
         makeRequest net url 0 world0
         = (Throw (mkError ErrorK
                     ("Failed to fetch " ++ url ++ " after 3 retries: "
                      ++ message cause)%string),
            mkWorld 4 [1000; 2000; 4000])).
Proof.
  assert (Hs : forall k payload,
             (k <= maxRetries)%nat ->
             (forall j, (j < k)%nat ->
                        exists e, attemptResult net url j = Throw e) ->
             attemptResult net url k = Normal payload ->
             makeRequest net url 0 world0
             = (Normal payload, mkWorld (S k) (backoff k))).
  { intros k payload Hk Hfail Hok.
    now rewrite (makeRequest_succeeds net url k 0%nat world0 payload). }
  split; [exact Hs|]. split; [reflexivity|]. split.
  - intros payload Hfail Hok. eexists. split.
    + apply (Hs 2%nat); [unfold maxRetries; lia | exact Hfail | exact Hok].
    + split; reflexivity.
  - intros cause Hfail Hlast.
    now rewrite (makeRequest_exhausted net url cause).
Qed.

Lemma C3_retry_schedule_witness :
  makeRequest (flaky (JStr "pikachu")) "/pokemon/25" 0 world0
  = (Normal (JStr "pikachu"), mkWorld 3 [1000; 2000])
  /\ makeRequest down "/pokemon/0" 0 world0
     = (Throw (mkError ErrorK
                 "Failed to fetch /pokemon/0 after 3 retries: HTTP 404: Not Found"),
        mkWorld 4 [1000; 2000; 4000]).
Proof.
  split.
  - destruct (C3_retry_schedule (flaky (JStr "pikachu")) "/pokemon/25")
      as (H & _).
    apply (H 2%nat (JStr "pikachu")).
    + unfold maxRetries. lia.
    + intros j Hj.
      destruct j as [|[|j]]; [eexists; reflexivity | eexists; reflexivity | lia].
    + reflexivity.
  - destruct (C3_retry_schedule down "/pokemon/0") as (_ & _ & _ & H).
    apply (H (mkError ErrorK "HTTP 404: Not Found")).
    + intros j Hj. eexists. reflexivity.
    + reflexivity.
Defined.

(* ===================================================================== *)
(** ** The request queue                                                 *)
(* ===================================================================== *)

Import RequestQueue.

Lemma seq_cons_inv {A : Type} (f : A -> nat) (x : A) (xs : list A) k n :
  map f (x :: xs) = seq k n ->
  f x = k /\ map f xs = seq (S k) (n - 1) /\ (1 <= n)%nat.
Proof.
  destruct n as [|n]; simpl; intros H; [discriminate|].
  inversion H. rewrite Nat.sub_0_r. repeat split; auto. lia.
Qed.

Lemma seq_snoc_sub k n :
  (k <= n)%nat -> seq k (n - k) ++ [n] = seq k (S n - k).
Proof.
  intros H. replace (S n - k)%nat with (S (n - k)) by lia.
  rewrite seq_S. do 2 f_equal. lia.
Qed.

(** The loop of [processQueue], entered with the flag set and no other
    worker, after a log that is quiet. *)
Lemma loopHead_Inv s k last :
  Serial (log s) (Quiet k last) ->
  map taskId (requestQueue s) = seq k (submitted s - k) ->
  (k <= submitted s)%nat ->
  isProcessingQueue s = true ->
  (forall t', last = Some t' -> t' + rateLimit <= now s) ->
  Inv (loopHead s []).
Proof.
  intros HS Hq Hk Hflag Hlast. unfold loopHead.
  destruct (requestQueue s) as [|task rest] eqn:Q.
  - exists (Quiet k last). simpl. split; [exact HS|].
    repeat split; auto; left; repeat split; auto.
  - apply seq_cons_inv in Hq. destruct Hq as (Hid & Hrest & Hn).
    rewrite Hid.
    assert (HS' : Serial (log s ++ [Started k (now s)]) (Running k (now s)))
      by (eapply Serial_start; eauto).
    destruct (throwsAtOnce task) as [error|].
    + exists (Quiet (S k) (Some (now s))). simpl. split.
      * eapply Serial_settle; [exact HS' | lia].
      * replace (submitted s - S k)%nat with (submitted s - k - 1)%nat by lia.
        repeat split; auto; try lia;
          right; exists (now s); repeat split; auto; lia.
    + exists (Running k (now s)). simpl. split; [exact HS'|].
      replace (submitted s - S k)%nat with (submitted s - k - 1)%nat by lia.
      repeat split; auto; try lia.
Qed.

Lemma step_Inv s t e s' : Inv s -> step s t e = Some s' -> Inv s'.
Proof.
  intros (stage & HS & HC) Hstep. unfold step in Hstep.
  destruct (Z.ltb_spec t (now s)) as [|Ht]; [discriminate|].
  destruct e as [throws | w o | w]; cbn [requestQueue isProcessingQueue
    workers submitted now log] in Hstep.
  - (* a submission *)
    inversion Hstep; subst s'; clear Hstep.
    unfold queueRequest, processQueue.
    cbn [requestQueue isProcessingQueue workers submitted now log].
    destruct stage as [k last | k t0]; simpl in HC.
    + destruct HC as (Hq & Hk & [(Hw & Hf & Hempty & Hlast)
                                 | (t' & -> & Hw & Hf & Hnow)]).
      * rewrite Hf, Hempty. cbn [app length Nat.eqb orb].
        rewrite Hempty in Hq. simpl in Hq.
        assert (k = submitted s).
        { destruct (submitted s - k)%nat eqn:D; [lia | discriminate]. }
        subst k. rewrite Hw.
        eapply loopHead_Inv with (k := submitted s) (last := last);
          cbn [requestQueue isProcessingQueue workers submitted now log];
          auto.
        -- replace (S (submitted s) - submitted s)%nat with 1%nat by lia.
           reflexivity.
        -- intros t' E. specialize (Hlast t' E). lia.
      * rewrite Hf. cbn [orb].
        exists (Quiet k (Some t')). split; [exact HS|]. simpl.
        rewrite map_app, Hq. simpl. rewrite seq_snoc_sub by lia.
        repeat split; auto;
          right; exists t'; repeat split; auto; lia.
    + destruct HC as (Hq & Hk & Hw & Hf & Hnow).
      rewrite Hf. cbn [orb].
      exists (Running k t0). split; [exact HS|]. simpl.
      rewrite map_app, Hq. simpl. rewrite seq_snoc_sub by lia.
      repeat split; auto. lia.
  - (* the awaited promise settles *)
    destruct (nth_error (workers s) w) as [[task | due]|] eqn:W;
      try discriminate.
    inversion Hstep; subst s'; clear Hstep.
    destruct stage as [k last | k t0]; simpl in HC.
    + destruct HC as (_ & _ & [(Hw & _) | (t' & _ & Hw & _)]);
        rewrite Hw in W; destruct w as [|[|w]]; discriminate.
    + destruct HC as (Hq & Hk & Hw & Hf & Hnow).
      rewrite Hw in W. destruct w as [|[|w]]; try discriminate.
      inversion W; subst task.
      exists (Quiet (S k) (Some t)). simpl. split.
      * eapply Serial_settle; [exact HS | lia].
      * rewrite Hw. simpl. repeat split; auto;
          right; exists t; repeat split; auto; lia.
  - (* the timer fires *)
    destruct (nth_error (workers s) w) as [[task | due]|] eqn:W;
      try discriminate.
    destruct (Z.ltb_spec t due) as [|Hdue]; [discriminate|].
    inversion Hstep; subst s'; clear Hstep.
    destruct stage as [k last | k t0]; simpl in HC.
    + destruct HC as (Hq & Hk & [(Hw & _) | (t' & -> & Hw & Hf & Hnow)]).
      * rewrite Hw in W. destruct w; discriminate.
      * rewrite Hw in W. destruct w as [|[|w]]; try discriminate.
        inversion W; subst due. rewrite Hw. simpl removeAt.
        eapply loopHead_Inv with (k := k) (last := Some t');
          cbn [requestQueue isProcessingQueue workers submitted now log];
          auto.
        intros t'' E. inversion E; subst. exact Hdue.
    + destruct HC as (_ & _ & Hw & _).
      rewrite Hw in W. destruct w as [|[|w]]; discriminate.
Qed.

Lemma initial_Inv : Inv initial.
Proof.
  exists (Quiet 0 None). split; [constructor|]. simpl.
  repeat split; auto; left; repeat split; auto; discriminate.
Qed.

Lemma run_Inv events : forall s s', Inv s -> run s events = Some s' -> Inv s'.
Proof.
  induction events as [|[t e] events IH]; simpl; intros s s' HI H.
  - inversion H; subst; exact HI.
  - destruct (step s t e) as [s1|] eqn:E; [|discriminate].
    eapply IH; [|exact H]. eapply step_Inv; eauto.
Qed.

Lemma reachable_Inv s : reachable s -> Inv s.
Proof. intros (events & H). eapply run_Inv; [apply initial_Inv | exact H]. Qed.

Lemma startedIds_app l1 l2 :
  startedIds (l1 ++ l2) = startedIds l1 ++ startedIds l2.
Proof. apply flat_map_app. Qed.

Lemma settledIds_app l1 l2 :
  settledIds (l1 ++ l2) = settledIds l1 ++ settledIds l2.
Proof. apply flat_map_app. Qed.

(** Tasks start, and settle, in the order of their numbers. *)
Lemma Serial_ids l stage :
  Serial l stage ->
  startedIds l = seq 0 (startedCount stage)
  /\ settledIds l = seq 0 (settledCount stage).
Proof.
  induction 1 as [| l k last t _ [IHs IHf] _ | l k t o t' _ [IHs IHf] _];
    cbn [startedCount settledCount] in *.
  - split; reflexivity.
  - rewrite startedIds_app, settledIds_app, IHs, IHf.
    cbn [startedIds settledIds flat_map app]. rewrite app_nil_r, seq_S.
    split; reflexivity.
  - rewrite startedIds_app, settledIds_app, IHs, IHf.
    cbn [startedIds settledIds flat_map app]. rewrite app_nil_r, seq_S.
    split; reflexivity.
Qed.

Lemma snoc_split {A : Type} (l1 l2 l : list A) (x : A) :
  l1 ++ l2 = l ++ [x] ->
  (l2 = [] /\ l1 = l ++ [x]) \/ (exists l2', l2 = l2' ++ [x] /\ l = l1 ++ l2').
Proof.
  destruct l2 as [|y l2 _] using rev_ind.
  - rewrite app_nil_r. intros ->. left. split; reflexivity.
  - rewrite app_assoc. intros H. apply app_inj_tail in H.
    destruct H as [<- ->]. right. exists l2. split; reflexivity.
Qed.

(** Every prefix of a serial log is a serial log. *)
Lemma Serial_prefix l stage :
  Serial l stage -> forall l1 l2, l = l1 ++ l2 -> exists stage', Serial l1 stage'.
Proof.
  induction 1 as [| l k last t HS IH Hgap | l k t o t' HS IH Hle];
    intros l1 l2 E.
  - symmetry in E. apply app_eq_nil in E. destruct E as [-> _].
    eexists. constructor.
  - symmetry in E. apply snoc_split in E.
    destruct E as [[_ ->] | (l2' & _ & ->)].
    + eexists. eapply Serial_start; eauto.
    + eapply IH. reflexivity.
  - symmetry in E. apply snoc_split in E.
    destruct E as [[_ ->] | (l2' & _ & ->)].
    + eexists. eapply Serial_settle; eauto.
    + eapply IH. reflexivity.
Qed.

Lemma Serial_executing l stage : Serial l stage -> (executing l <= 1)%nat.
Proof.
  intros H. apply Serial_ids in H. destruct H as [Hs Hf].
  unfold executing. rewrite Hs, Hf, !length_seq.
  destruct stage; cbn [startedCount settledCount]; lia.
Qed.

Lemma precedes_snoc e1 e2 l x : precedes e1 e2 l -> precedes e1 e2 (l ++ [x]).
Proof.
  intros (l1 & l2 & l3 & ->). exists l1, l2, (l3 ++ [x]).
  now rewrite <- !app_assoc, <- !app_comm_cons, <- !app_assoc.
Qed.

(** A task starts only after its predecessor has settled and the delay
    has passed. *)
Lemma Serial_spacing l stage :
  Serial l stage ->
  forall k t, In (Started (S k) t) l ->
              exists o t', precedes (Finished k o t') (Started (S k) t) l
                           /\ t' + rateLimit <= t.
Proof.
  induction 1 as [| l j last t0 HS IH Hgap | l j t0 o0 t0' HS IH Hle];
    intros k t Hin.
  - destruct Hin.
  - apply in_app_or in Hin. destruct Hin as [Hin | [E | []]].
    + destruct (IH k t Hin) as (o & t' & Hp & Ht).
      exists o, t'. split; [now apply precedes_snoc | exact Ht].
    + inversion E; subst j t0; clear E.
      inversion HS as [| | l' k' t1 o1 t1' HS' Hle' El Est]; subst.
      exists o1, t1'. split.
      * exists l', [], []. now rewrite <- app_assoc.
      * apply Hgap. reflexivity.
  - apply in_app_or in Hin. destruct Hin as [Hin | [E | []]].
    + destruct (IH k t Hin) as (o & t' & Hp & Ht).
      exists o, t'. split; [now apply precedes_snoc | exact Ht].
    + discriminate.
Qed.

(** A rejection settles the running task only, and the worker goes on:
    it waits, and then calls the next queued task. *)
Lemma rejection_is_isolated s t w e s' :
  Inv s ->
  step s t (TaskSettles w (Rejected e)) = Some s' ->
  (exists k, workers s = [AwaitingTask k]
             /\ log s' = log s ++ [Finished k (Rejected e) t])
  /\ requestQueue s' = requestQueue s
  /\ forall t2, t + 100 <= t2 ->
       exists s'', step s' t2 (TimerFires 0) = Some s''
                   /\ match requestQueue s' with
                      | [] => log s'' = log s'
                      | task :: rest =>
                          requestQueue s'' = rest
                          /\ exists more,
                               log s'' = log s' ++ Started (taskId task) t2 :: more
                      end.
Proof.
  intros (stage & HS & HC) Hstep. unfold step in Hstep.
  destruct (Z.ltb_spec t (now s)) as [|Ht]; [discriminate|].
  cbn [requestQueue isProcessingQueue workers submitted now log] in Hstep.
  destruct (nth_error (workers s) w) as [[task | due]|] eqn:W;
    try discriminate.
  inversion Hstep; subst s'; clear Hstep.
  assert (Hw : workers s = [AwaitingTask task] /\ w = 0%nat).
  { destruct stage as [k last | k t0]; simpl in HC.
    - destruct HC as (_ & _ & [(Hw & _) | (t' & _ & Hw & _)]);
        rewrite Hw in W; destruct w as [|[|w]]; discriminate.
    - destruct HC as (_ & _ & Hw & _). rewrite Hw in W.
      destruct w as [|[|w]]; try discriminate.
      inversion W; subst. split; [exact Hw | reflexivity]. }
  destruct Hw as [Hw ->].
  cbn [requestQueue isProcessingQueue workers submitted now log].
  split; [exists task; split; [exact Hw | reflexivity]|].
  split; [reflexivity|].
  intros t2 Ht2. unfold step.
  cbn [requestQueue isProcessingQueue workers submitted now log].
  destruct (Z.ltb_spec t2 t) as [|_]; [lia|].
  rewrite Hw. cbn [removeAt app nth_error].
  unfold rateLimit.
  destruct (Z.ltb_spec t2 (t + 100)) as [|_]; [lia|].
  eexists. split; [reflexivity|].
  unfold loopHead.
  cbn [requestQueue isProcessingQueue workers submitted now log].
  destruct (requestQueue s) as [|next rest]; [reflexivity|].
  destruct (throwsAtOnce next);
    cbn [requestQueue isProcessingQueue workers submitted now log];
    (split; [reflexivity|]); eexists; rewrite <- ?app_assoc; reflexivity.
Qed.

(** C1.  In every execution of the queue, the tasks are called in the
    order of their submission, none is skipped and at most one is under
    execution at any time; a task is called only when its predecessor has
    resolved or rejected and 100 ms have passed since; only one
    invocation of [processQueue] is ever in its loop.  A rejection
    rejects the promise of the running task only and leaves the queued
    tasks in place, and the worker, after its delay, calls the next one. *)
Theorem C1_queue_is_serial (s : State) :
  reachable s ->
  (exists n, startedIds (log s) = seq 0 n /\ (n <= submitted s)%nat
             /\ map taskId (requestQueue s) = seq n (submitted s - n))
  /\ (forall l1 l2, log s = l1 ++ l2 -> (executing l1 <= 1)%nat)
  /\ (forall k t,
         In (Started (S k) t) (log s) ->
         exists o t', precedes (Finished k o t') (Started (S k) t) (log s)
                      /\ t' + 100 <= t)
  /\ ((length (workers s) <= 1)%nat
      /\ (isProcessingQueue s = true <-> workers s <> []))
  /\ (forall t w e s',
         step s t (TaskSettles w (Rejected e)) = Some s' ->
         (exists k, workers s = [AwaitingTask k]
                    /\ log s' = log s ++ [Finished k (Rejected e) t])
         /\ requestQueue s' = requestQueue s
         /\ forall t2, t + 100 <= t2 ->
              exists s'', step s' t2 (TimerFires 0) = Some s''
                          /\ match requestQueue s' with
                             | [] => log s'' = log s'
                             | task :: rest =>
                                 requestQueue s'' = rest
                                 /\ exists more,
                                      log s''
                                      = log s' ++ Started (taskId task) t2 :: more
                             end).
Proof.
  intros Hr. pose proof (reachable_Inv s Hr) as HI.
  destruct HI as (stage & HS & HC).
  split; [|split; [|split; [|split]]].
  - exists (startedCount stage).
    destruct (Serial_ids _ _ HS) as [Hs _]. split; [exact Hs|].
    destruct stage; simpl in HC; cbn [startedCount]; intuition.
  - intros l1 l2 E.
    destruct (Serial_prefix _ _ HS l1 l2 E) as [stage' HS'].
    eapply Serial_executing, HS'.
  - intros k t Hin. apply (Serial_spacing _ _ HS k t Hin).
  - destruct stage as [k last | k t0]; simpl in HC.
    + destruct HC as (_ & _ & [(Hw & Hf & _) | (t' & _ & Hw & Hf & _)]);
        rewrite Hw, Hf; simpl; split; auto; split; congruence.
    + destruct HC as (_ & _ & Hw & Hf & _).
      rewrite Hw, Hf; simpl; split; auto; split; congruence.
  - intros t w e s' Hstep.
    eapply rejection_is_isolated; [|exact Hstep].
    exists stage. split; assumption.
Qed.

Lemma afterBurst_reachable : reachable afterBurst.
Proof. exists burst. reflexivity. Qed.

(** Three submissions in a burst, the second of which fails: they are
    called in order, 100 ms after the previous one settled. *)
Lemma C1_queue_is_serial_witness :
  reachable afterBurst
  /\ startedIds (log afterBurst) = [0; 1; 2]%nat
  /\ exists o t', precedes (Finished 1 o t') (Started 2 250) (log afterBurst)
                  /\ t' + 100 <= 250.
Proof.
  split; [exact afterBurst_reachable|].
  destruct (C1_queue_is_serial afterBurst afterBurst_reachable)
    as (_ & _ & Hgap & _).
  split; [reflexivity|].
  apply Hgap. vm_compute. auto 10.
Defined.

(* ===================================================================== *)
(** ** Batch fetch and random sample                                     *)
(* ===================================================================== *)

Import Service.

Lemma mapRequests_length {A B : Type}
  (f : A -> ServiceState -> B * ServiceState) xs :
  forall st, length (fst (mapRequests f xs st)) = length xs.
Proof.
  induction xs as [|x xs IH]; intros st; simpl; [reflexivity|].
  destruct (f x st) as [y st1]. specialize (IH st1).
  destruct (mapRequests f xs st1) as [ys st2]. simpl in *. now rewrite IH.
Qed.

Lemma valueOrNull_spec ids :
  forall results st,
    length results = length ids ->
    valueOrNull ids results st
    = (map (fun r => match r with
                     | Fulfilled value => Some value
                     | Rejected _ => None
                     end) results,
       mkService (issued st) (console st ++ failureLines ids results)
         (drawn st)).
Proof.
  induction ids as [|id ids IH]; intros [|[value|reason] results] st Hlen;
    simpl in *; try discriminate.
  - rewrite app_nil_r. destruct st; reflexivity.
  - rewrite IH by lia. reflexivity.
  - rewrite IH by lia. simpl. rewrite <- app_assoc. reflexivity.
Qed.

Lemma filterBoolean_values results :
  filterBoolean (map (fun r => match r with
                               | Fulfilled value => Some value
                               | Rejected _ => None
                               end) results)
  = fulfilledValues results.
Proof.
  induction results as [|[v|e] results IH]; simpl; [reflexivity | |];
    unfold filterBoolean, fulfilledValues in *; simpl; now rewrite IH.
Qed.

Lemma values_and_failures ids :
  forall results : list (Settled Pokemon),
    length results = length ids ->
    (length (fulfilledValues results) + length (failureLines ids results)
     = length ids)%nat.
Proof.
  induction ids as [|id ids IH]; intros [|[v|e] results] Hlen;
    simpl in *; try discriminate; try reflexivity.
  - rewrite IH by lia. reflexivity.
  - rewrite Nat.add_succ_r, IH by lia. reflexivity.
Qed.

(** What a batch over a non-empty array is fulfilled with. *)
Lemma getPokemonBatch_results env items st :
  items <> [] ->
  getPokemonBatch env (JArr items) st
  = (Fulfilled (fulfilledValues (fst (mapRequests (getPokemonById env) items st))),
     let st1 := snd (mapRequests (getPokemonById env) items st) in
     mkService (issued st1)
       (console st1
        ++ failureLines items (fst (mapRequests (getPokemonById env) items st)))
       (drawn st1)).
Proof.
  intros Hne.
  pose proof (mapRequests_length (getPokemonById env) items st) as Hlen.
  unfold getPokemonBatch.
  destruct items as [|i items']; [congruence|].
  cbn [length Nat.eqb].
  destruct (mapRequests (getPokemonById env) (i :: items') st)
    as [results st'] eqn:M.
  cbn [fst snd] in *.
  rewrite valueOrNull_spec by exact Hlen.
  now rewrite filterBoolean_values.
Qed.

(** C4.  For every non-empty list of identifiers, [getPokemonBatch]
    starts one fetch per identifier, waits for all of them, and is
    fulfilled, never rejected, with exactly the values of the fulfilled
    fetches in the order of the identifiers; each rejected fetch writes
    one line on the console and is left out. *)
Theorem C4_batch_partial_failure (env : Environment) (items : list JsVal)
  (st : ServiceState) :
  items <> [] ->
  let outcomes := fst (mapRequests (getPokemonById env) items st) in
  let st1 := snd (mapRequests (getPokemonById env) items st) in
  length outcomes = length items
  /\ getPokemonBatch env (JArr items) st
     = (Fulfilled (fulfilledValues outcomes),
        mkService (issued st1) (console st1 ++ failureLines items outcomes)
          (drawn st1))
  /\ (length (fulfilledValues outcomes) + length (failureLines items outcomes)
      = length items)%nat.
Proof.
  intros Hne outcomes st1.
  assert (Hlen : length outcomes = length items)
    by apply mapRequests_length.
  split; [exact Hlen|]. split.
  - apply getPokemonBatch_results, Hne.
  - apply values_and_failures, Hlen.
Qed.

(** [fetchMany([1, 99999, 4])] where 99999 fails: the entities of 1 and
    4, in that order, and one line on the console. *)
Lemma C4_batch_partial_failure_witness :
  numbers [1; 99999; 4] = JArr [JNum (Fin 1); JNum (Fin 99999); JNum (Fin 4)]
  /\ getPokemonBatch catalog (numbers [1; 99999; 4]) start
     = (Fulfilled [card 1 "pokemon"; card 4 "pokemon"],
        mkService
          [FetchPokemon (JNum (Fin 1)); FetchPokemon (JNum (Fin 99999));
           FetchPokemon (JNum (Fin 4))]
          [("Failed to fetch Pokemon 99999:", notFound)] 0).
Proof.
  split; [reflexivity|].
  assert (Hne : [JNum (Fin 1); JNum (Fin 99999); JNum (Fin 4)] <> [])
    by discriminate.
  destruct (C4_batch_partial_failure catalog _ start Hne) as (_ & H & _).
  exact H.
Defined.

(** An identifier drawn from a value of [Math.random] in [0, 1) lies
    between 1 and 1010. *)
Lemma randomIdAt_range random k :
  (0 <= random k)%Q -> (random k < 1)%Q -> inRange (randomIdAt random k).
Proof.
  intros H0 H1. unfold inRange, randomIdAt, maxPokemonId.
  set (x := (random k * inject_Z 1010)%Q).
  assert (Hlo : (0 <= x)%Q).
  { unfold x. apply Qmult_le_0_compat; [exact H0 | discriminate]. }
  assert (Hhi : (x < inject_Z 1010)%Q).
  { unfold x. rewrite <- (Qmult_1_l (inject_Z 1010)) at 2.
    apply Qmult_lt_compat_r; [reflexivity | exact H1]. }
  split.
  - apply Qfloor_resp_le in Hlo. change (Qfloor 0) with 0 in Hlo. lia.
  - assert (Hf : (inject_Z (Qfloor x) < inject_Z 1010)%Q)
      by (eapply Qle_lt_trans; [apply Qfloor_le | exact Hhi]).
    rewrite <- Zlt_Qlt in Hf. lia.
Qed.

Lemma existsb_eqb_In x l : existsb (Z.eqb x) l = true <-> In x l.
Proof.
  rewrite existsb_exists. split.
  - intros (y & Hy & E). apply Z.eqb_eq in E. now subst.
  - intros H. exists x. split; [exact H | apply Z.eqb_refl].
Qed.

Lemma remove_NoDup x (l : list Z) : NoDup l -> NoDup (remove Z.eq_dec x l).
Proof.
  induction 1 as [|y l Hy _ IH]; simpl; [constructor|].
  destruct (Z.eq_dec x y); [exact IH|].
  constructor; [|exact IH]. intros Hin. apply in_remove in Hin. tauto.
Qed.

Lemma remove_length x (l : list Z) :
  NoDup l -> (length l <= S (length (remove Z.eq_dec x l)))%nat.
Proof.
  induction 1 as [|y l Hy _ IH]; simpl; [lia|].
  destruct (Z.eq_dec x y) as [->|]; simpl; [|lia].
  rewrite notin_remove by exact Hy. lia.
Qed.

(** The two loops end, with as many pairwise distinct identifiers as
    asked for, as soon as the values of [Math.random] they may consume
    yield enough distinct fresh identifiers. *)
Lemma sampleIds_spec random count :
  (forall n, (0 <= random n)%Q /\ (random n < 1)%Q) ->
  forall fuel k i randomIds fresh,
    Z.of_nat (length randomIds) = i -> i <= count ->
    NoDup randomIds -> Forall inRange randomIds ->
    NoDup fresh ->
    (forall v, In v fresh -> In v (draws random k fuel) /\ ~ In v randomIds) ->
    count - i <= Z.of_nat (length fresh) ->
    exists ids k',
      sampleIds fuel random k count i randomIds = Some (ids, k')
      /\ Z.of_nat (length ids) = count
      /\ NoDup ids /\ Forall inRange ids
      /\ (k <= k' <= k + fuel)%nat.
Proof.
  intros Hrange. induction fuel as [|fuel IH];
    intros k i acc fresh Hlen Hle Hnd Hin Hfresh Hsrc Hcount.
  - simpl. destruct fresh as [|v fresh].
    + simpl in Hcount. destruct (Z.ltb_spec i count); [lia|].
      exists acc, k. repeat split; auto; lia.
    + destruct (Hsrc v) as [[] _]. now left.
  - simpl. destruct (Z.ltb_spec i count) as [Hlt|Hge].
    2:{ exists acc, k. repeat split; auto; lia. }
    set (x := randomIdAt random k).
    destruct (existsb (Z.eqb x) acc) eqn:Dup.
    + apply existsb_eqb_In in Dup.
      destruct (IH (S k) i acc fresh) as (ids & k' & E & P); auto.
      * intros v Hv. destruct (Hsrc v Hv) as [Hd Ha]. split; [|exact Ha].
        unfold draws in Hd. simpl in Hd. destruct Hd as [<-|Hd]; [tauto|].
        exact Hd.
      * exists ids, k'. split; [exact E|].
        destruct P as (? & ? & ? & ?). repeat split; auto; lia.
    + assert (Hx : ~ In x acc).
      { intros Hx. apply existsb_eqb_In in Hx. congruence. }
      destruct (IH (S k) (i + 1) (acc ++ [x]) (remove Z.eq_dec x fresh))
        as (ids & k' & E & P); auto.
      * rewrite length_app. simpl. lia.
      * lia.
      * apply NoDup_app; [exact Hnd | repeat constructor; auto |].
        intros a Ha [<-|[]]. exact (Hx Ha).
      * apply Forall_app. split; [exact Hin|].
        constructor; [|constructor].
        destruct (Hrange k). now apply randomIdAt_range.
      * now apply remove_NoDup.
      * intros v Hv. apply in_remove in Hv. destruct Hv as [Hv Hne].
        destruct (Hsrc v Hv) as [Hd Ha]. split.
        -- unfold draws in Hd. simpl in Hd. destruct Hd as [Hd|Hd]; [|exact Hd].
           fold x in Hd. congruence.
        -- intros Hv'. apply in_app_or in Hv'. destruct Hv' as [Hv'|[Hv'|[]]];
             [tauto | congruence].
      * pose proof (remove_length x fresh Hfresh). lia.
      * exists ids, k'. split; [exact E|].
        destruct P as (? & ? & ? & ?). repeat split; auto; lia.
Qed.

(** The fetches of a batch of identifiers that all resolve. *)
Lemma mapRequests_all_fulfilled env ids :
  (forall n z, inRange z ->
               exists p, pokemonOutcome env n (JNum (Fin z)) = Fulfilled p
                         /\ PokemonModel.id p = Fin z) ->
  Forall inRange ids ->
  forall st,
    exists ps,
      fst (mapRequests (getPokemonById env)
             (map (fun z => JNum (Fin z)) ids) st)
      = map Fulfilled ps
      /\ map PokemonModel.id ps = map Fin ids.
Proof.
  intros Hall. induction 1 as [|z ids Hz _ IH]; intros st; simpl.
  - exists []. split; reflexivity.
  - unfold getPokemonById at 1.
    assert (T : truthy (JNum (Fin z)) = true).
    { simpl. unfold inRange in Hz. destruct (Z.eqb_spec z 0); [lia | reflexivity]. }
    rewrite T. cbn [negb orb typeof String.eqb Ascii.eqb Bool.eqb andb].
    destruct (Hall (length (issued st)) z Hz) as (p & Hp & Hid).
    rewrite Hp.
    match goal with
    | |- context [mapRequests _ _ ?st1] =>
        destruct (IH st1) as (ps & Hps & Hids);
        destruct (mapRequests (getPokemonById env)
                    (map (fun z => JNum (Fin z)) ids) st1) as [rs st2]
    end.
    simpl in *. exists (p :: ps). simpl. rewrite Hps, Hid, Hids.
    split; reflexivity.
Qed.

Lemma fulfilledValues_all {A : Type} (ps : list A) :
  fulfilledValues (map Fulfilled ps) = ps.
Proof.
  induction ps as [|p ps IH]; [reflexivity|].
  unfold fulfilledValues in *. simpl. now rewrite IH.
Qed.

Lemma Fin_NoDup ids : NoDup ids -> NoDup (map Fin ids).
Proof.
  induction 1 as [|z ids Hz _ IH]; simpl; constructor; [|exact IH].
  intros Hin. apply in_map_iff in Hin. destruct Hin as (y & E & Hy).
  inversion E. now subst.
Qed.


Lemma catalog_random_range n :
  (0 <= random catalog n)%Q /\ (random catalog n < 1)%Q.
Proof.
  assert (H : (n mod 1010 < 1010)%nat)
    by (apply Nat.mod_upper_bound; discriminate).
  unfold catalog. cbn [random]. unfold Qle, Qlt. cbn [Qnum Qden].
  lia.
Qed.

Lemma catalog_resolves n z :
  inRange z ->
  exists p, pokemonOutcome catalog n (JNum (Fin z)) = Fulfilled p
            /\ PokemonModel.id p = Fin z.
Proof.
  unfold inRange, maxPokemonId. intros Hz. simpl.
  destruct (Z.leb_spec 1 z); [|lia].
  destruct (Z.leb_spec z 1010); [|lia].
  eexists. split; reflexivity.
Qed.


(* ===================================================================== *)
(** ** Search                                                            *)
(* ===================================================================== *)

Lemma getPokemonById_issues env id st result st' :
  getPokemonById env id st = (Fulfilled result, st') ->
  issued st' = issued st ++ [FetchPokemon id] /\ console st' = console st.
Proof.
  unfold getPokemonById.
  destruct (negb (truthy id)
            || negb (typeof id =? "number")%string
               && negb (typeof id =? "string")%string);
    intros H; inversion H; subst; simpl; auto.
Qed.

Lemma getPokemonByName_issues env s st result st' :
  getPokemonByName env (JStr s) st = (Fulfilled result, st') ->
  issued st' = issued st ++ [FetchPokemon (JStr (trim (toLowerCase s)))].
Proof.
  unfold getPokemonByName.
  destruct (negb (truthy (JStr s))); [discriminate|].
  intros H. now apply getPokemonById_issues in H.
Qed.

Lemma fulfilledValues_length {A : Type} (results : list (Settled A)) :
  (length (fulfilledValues results) <= length results)%nat.
Proof.
  induction results as [|[v|e] results IH]; unfold fulfilledValues in *;
    simpl; lia.
Qed.

Lemma slice0_length {A : Type} (limit : Z) (xs : list A) :
  0 <= limit -> Z.of_nat (length (slice0 limit xs)) <= limit.
Proof.
  intros H. unfold slice0. destruct (Z.ltb_spec limit 0); [lia|].
  pose proof (firstn_le_length (Z.to_nat limit) xs). lia.
Qed.

(** C6 (amended).  [searchPokemon(query, limit)] lower-cases and trims
    the query and first attempts an exact lookup by id or name.  If the
    lookup succeeds it returns exactly that match, and the listing is not
    requested.  If it fails, it requests the listing of the first 1000
    entries, selects in listing order the entries whose name contains
    the sanitized query, keeps the first [limit] of them (20 by default),
    fetches the entity of each and returns the entities whose fetch
    succeeded, in that order: at most [limit] results, and the empty
    list, not an error, when no name matches. *)
Theorem C6_search_precedence (env : Environment) (q : string)
  (limit : option Z) (st : ServiceState) :
  q <> "" ->
  let sanitizedQuery := trim (toLowerCase q) in
  let cap := match limit with Some l => l | None => 20 end in
  let direct := getPokemonByName env (JStr sanitizedQuery) st in
  (forall directMatch,
      fst direct = Fulfilled directMatch ->
      searchPokemon env (JStr q) limit st = (Fulfilled [directMatch], snd direct)
      /\ issued (snd direct)
         = issued st ++ [FetchPokemon (JStr (trim (toLowerCase sanitizedQuery)))])
  /\ (forall reason entries st2,
         fst direct = Rejected reason ->
         getPokemonList env 1000 0 (snd direct) = (Fulfilled entries, st2) ->
         let matches :=
           slice0 cap
             (filter (fun e => includes (entryName e) sanitizedQuery) entries) in
         let fetched :=
           mapRequests (fun m => getPokemonByName env (JStr (entryName m)))
             matches st2 in
         searchPokemon env (JStr q) limit st
         = (Fulfilled (fulfilledValues (fst fetched)), snd fetched)
         /\ length (fst fetched) = length matches
         /\ (0 <= cap ->
             Z.of_nat (length (fulfilledValues (fst fetched))) <= cap)
         /\ (matches = [] ->
             searchPokemon env (JStr q) limit st = (Fulfilled [], st2))).
Proof.
  intros Hq sanitizedQuery cap direct.
  assert (T : negb (truthy (JStr q)) = false).
  { simpl. destruct (String.eqb_spec q ""); [congruence | reflexivity]. }
  split.
  - intros directMatch Hd. split.
    + unfold searchPokemon. rewrite T.
      fold sanitizedQuery. fold direct.
      destruct direct as [[p|e] st1]; simpl in Hd; inversion Hd; reflexivity.
    + apply (getPokemonByName_issues env sanitizedQuery st directMatch).
      fold direct. destruct direct; simpl in *. now subst.
  - intros reason entries st2 Hd Hl matches fetched.
    assert (Hlen : length (fst fetched) = length matches)
      by apply mapRequests_length.
    assert (E : searchPokemon env (JStr q) limit st
                = (Fulfilled (fulfilledValues (fst fetched)), snd fetched)).
    { unfold searchPokemon. rewrite T.
      fold sanitizedQuery. fold direct.
      destruct direct as [[p|e] st1]; simpl in Hd; [discriminate|].
      simpl in Hl. rewrite Hl. fold cap. fold matches.
      destruct matches as [|m matches'] eqn:M.
      - reflexivity.
      - cbn [length Nat.eqb]. fold fetched.
        destruct fetched; reflexivity. }
    split; [exact E|]. split; [exact Hlen|]. split.
    + intros Hcap.
      pose proof (fulfilledValues_length (fst fetched)).
      pose proof (slice0_length cap
                    (filter (fun e => includes (entryName e) sanitizedQuery)
                       entries) Hcap).
      fold matches in H0. lia.
    + intros M. rewrite E. subst fetched. rewrite M. reflexivity.
Qed.

(** [search("Pikachu ")]: the single exact match, and no request for the
    listing. *)
Lemma C6_search_precedence_witness :
  "Pikachu " <> ""
  /\ searchPokemon kanto (JStr "Pikachu ") None start
     = (Fulfilled [card 25 "pikachu"],
        mkService [FetchPokemon (JStr "pikachu")] [] 0).
Proof.
  assert (H : "Pikachu " <> "") by discriminate.
  split; [exact H|].
  destruct (C6_search_precedence kanto "Pikachu " None start H) as [Hd _].
  destruct (Hd (card 25 "pikachu") eq_refl) as [E _].
  exact E.
Defined.

(** C6, as stated, fails: "charmeleon" contains "char" and is within the
    cap, but its fetch fails and it is not among the results. *)
Lemma C6_counterexample :
  exists l,
    fst (searchPokemon kanto (JStr "char") None start) = Fulfilled l
    /\ l = [card 4 "charmander"; card 6 "charizard"]
    /\ map entryName (specFallback "char" 20 kantoListing)
       = ["charmander"; "charmeleon"; "charizard"]
    /\ map PokemonModel.name l
       <> map entryName (specFallback "char" 20 kantoListing).
Proof.
  eexists. split; [reflexivity|]. split; [reflexivity|].
  split; [reflexivity|]. discriminate.
Qed.

(* ===================================================================== *)
(** ** Sorting                                                           *)
(* ===================================================================== *)

Import Controller.

Section StableInsertion.

Context {A K : Type}.
Variable K_eq_dec : forall x y : K, {x = y} + {x <> y}.
Variable key : A -> completion K.
Variable compare : A -> A -> completion Z.

(** The comparator returns a number whenever both keys can be read, and
    no positive number on a tie. *)
Hypothesis compare_total :
  forall a b ka kb, key a = Normal ka -> key b = Normal kb ->
                    exists c, compare a b = Normal c.
Hypothesis compare_tie :
  forall a b k c, key a = Normal k -> key b = Normal k ->
                  compare a b = Normal c -> c <= 0.

Lemma insertSorted_stable x :
  forall sorted,
    (exists k, key x = Normal k) ->
    (forall a, In a sorted -> exists k, key a = Normal k) ->
    exists out,
      insertSorted compare x sorted = Normal out
      /\ Permutation (x :: sorted) out
      /\ forall k, entriesWithKey K_eq_dec key k out
                   = entriesWithKey K_eq_dec key k (x :: sorted).
Proof.
  intros sorted [kx Hx]. induction sorted as [|y rest IH]; intros Hr.
  - exists [x]. repeat split; auto.
  - destruct (Hr y (or_introl eq_refl)) as [ky Hy].
    destruct (compare_total x y kx ky Hx Hy) as [c Hc].
    simpl. rewrite Hc. simpl.
    destruct (Z.ltb_spec 0 c) as [Hpos|Hle].
    + destruct IH as (placed & Hp & Hperm & Hkeys).
      { intros a Ha. apply Hr. now right. }
      rewrite Hp. simpl. exists (y :: placed). split; [reflexivity|]. split.
      * rewrite perm_swap. now constructor.
      * intros k. unfold entriesWithKey in *. simpl.
        specialize (Hkeys k). simpl in Hkeys. rewrite Hx in Hkeys.
        rewrite Hx, Hy, Hkeys.
        destruct (K_eq_dec kx k) as [Ex|]; destruct (K_eq_dec ky k) as [Ey|];
          try reflexivity.
        subst kx ky. pose proof (compare_tie x y k c Hx Hy Hc). lia.
    + exists (x :: y :: rest). repeat split; auto.
Qed.

Lemma Array_sort_stable :
  forall l,
    (forall a, In a l -> exists k, key a = Normal k) ->
    exists out,
      Array_sort compare l = Normal out
      /\ Permutation l out
      /\ forall k, entriesWithKey K_eq_dec key k out
                   = entriesWithKey K_eq_dec key k l.
Proof.
  induction l as [|x rest IH]; intros Hr.
  - exists []. repeat split; auto.
  - destruct IH as (sorted & Hs & Hperm & Hkeys).
    { intros a Ha. apply Hr. now right. }
    destruct (insertSorted_stable x sorted) as (out & Ho & Hperm' & Hkeys').
    { apply Hr. now left. }
    { intros a Ha. apply Hr. right.
      eapply Permutation_in; [symmetry; exact Hperm | exact Ha]. }
    simpl. rewrite Hs. simpl. exists out. split; [exact Ho|]. split.
    + rewrite <- Hperm'. now constructor.
    + intros k. rewrite Hkeys'. unfold entriesWithKey in *. simpl.
      now rewrite Hkeys.
Qed.

(** The comparator is antisymmetric. *)
Hypothesis compare_antisym :
  forall a b c, compare a b = Normal c -> 0 < c -> inOrder compare b a.

Lemma insertSorted_ordered x :
  forall sorted out,
    Sorted (inOrder compare) sorted ->
    insertSorted compare x sorted = Normal out ->
    Sorted (inOrder compare) out.
Proof.
  induction sorted as [|y rest IH]; intros out Hs Hi; simpl in Hi.
  - inversion Hi. repeat constructor.
  - destruct (compare x y) as [c|] eqn:Hc; simpl in Hi; [|discriminate].
    destruct (Z.ltb_spec 0 c) as [Hpos|Hle].
    + destruct (insertSorted compare x rest) as [placed|] eqn:Hp;
        simpl in Hi; [|discriminate].
      inversion Hi; subst out; clear Hi.
      inversion Hs as [|? ? Hrest Hhd]; subst.
      constructor; [now apply IH|].
      destruct rest as [|z rest']; simpl in Hp.
      * inversion Hp. constructor. eapply compare_antisym; eauto.
      * destruct (compare x z) as [c'|]; simpl in Hp; [|discriminate].
        destruct (0 <? c').
        -- destruct (insertSorted compare x rest'); simpl in Hp;
             [|discriminate].
           inversion Hp. constructor. now inversion Hhd.
        -- inversion Hp. constructor. eapply compare_antisym; eauto.
    + inversion Hi; subst out. constructor; [exact Hs|].
      constructor. exists c. split; [exact Hc | exact Hle].
Qed.

Lemma Array_sort_ordered :
  forall l out,
    Array_sort compare l = Normal out -> Sorted (inOrder compare) out.
Proof.
  induction l as [|x rest IH]; intros out Hs; simpl in Hs.
  - inversion Hs. constructor.
  - destruct (Array_sort compare rest) as [sorted|]; simpl in Hs;
      [|discriminate].
    eapply insertSorted_ordered; [|exact Hs]. now apply IH.
Qed.

End StableInsertion.

Lemma number_compare_antisym n m :
  number_compare m n = option_map CompOpp (number_compare n m).
Proof.
  destruct n as [| [] | x], m as [| [] | y]; simpl; try reflexivity.
  now rewrite (Z.compare_antisym x y).
Qed.

Lemma js_compare_antisym a b :
  js_compare b a = option_map CompOpp (js_compare a b).
Proof.
  unfold js_compare.
  destruct (ToPrimitive a), (ToPrimitive b);
    try apply number_compare_antisym.
  simpl. now rewrite String.compare_antisym.
Qed.

Lemma js_gt_lt a b : js_gt a b = true -> js_gt b a = false /\ js_lt b a = true.
Proof.
  unfold js_gt, js_lt. rewrite (js_compare_antisym a b).
  destruct (js_compare a b) as [[]|]; simpl; try discriminate. auto.
Qed.

(** No value is greater or smaller than itself. *)
Lemma js_compare_same v : js_gt v v = false /\ js_lt v v = false.
Proof.
  unfold js_gt, js_lt, js_compare.
  assert (Hs : forall x, String.compare x x = Eq).
  { intros x. pose proof (String.compare_antisym x x) as H.
    destruct (String.compare x x); try discriminate; reflexivity. }
  assert (N : forall n, number_compare n n = None \/ number_compare n n = Some Eq).
  { intros [| [] | z]; simpl; auto. right. now rewrite Z.compare_refl. }
  destruct (ToPrimitive v) as [| | b | n | s | items | fields];
    try rewrite Hs; try (split; reflexivity);
    match goal with
    | |- context [number_compare ?n ?n] =>
        destruct (N n) as [E|E]; rewrite E; split; reflexivity
    end.
Qed.

Lemma comparator_total sortBy sortOrder a b ka kb :
  sortKey sortBy a = Normal ka -> sortKey sortBy b = Normal kb ->
  exists c, comparator sortBy sortOrder a b = Normal c.
Proof.
  intros Ha Hb. unfold comparator. rewrite Ha, Hb. simpl.
  destruct (sortOrder =? "desc")%string; eauto.
Qed.

(** On equal sort keys the comparator returns 0, in either order. *)
Lemma comparator_tie sortBy sortOrder a b k :
  sortKey sortBy a = Normal k -> sortKey sortBy b = Normal k ->
  comparator sortBy sortOrder a b = Normal 0.
Proof.
  intros Ha Hb. unfold comparator. rewrite Ha, Hb. simpl.
  destruct (js_compare_same k) as [-> ->].
  destruct (sortOrder =? "desc")%string; reflexivity.
Qed.

(** When the comparator puts [a] after [b], it puts [b] before [a]. *)
Lemma comparator_antisym sortBy sortOrder a b c :
  comparator sortBy sortOrder a b = Normal c -> 0 < c ->
  inOrder (comparator sortBy sortOrder) b a.
Proof.
  unfold comparator, inOrder. intros H Hc.
  destruct (sortKey sortBy a) as [ka|]; simpl in H; [|discriminate].
  destruct (sortKey sortBy b) as [kb|]; simpl in H; [|discriminate].
  simpl.
  destruct (sortOrder =? "desc")%string.
  - destruct (js_gt kb ka) eqn:G.
    + destruct (js_gt_lt kb ka G) as [-> ->]. eexists. split; [reflexivity | lia].
    + destruct (js_lt kb ka); inversion H; lia.
  - destruct (js_gt ka kb) eqn:G.
    + destruct (js_gt_lt ka kb G) as [-> ->]. eexists. split; [reflexivity | lia].
    + destruct (js_lt ka kb); inversion H; lia.
Qed.

Lemma constructed_keysReadable sortBy l :
  (forall p, In p l -> exists data, fromAPI data = Normal p) ->
  keysReadable sortBy l.
Proof.
  intros H p Hp. destruct (H p Hp) as [data Hd].
  apply new_Pokemon_accepts in Hd.
  destruct Hd as (_ & _ & _ & _ & _ & _ & _ & Ht).
  unfold sortKey.
  destruct (sortBy =? "name")%string; [eauto|].
  destruct (sortBy =? "stats")%string; [eauto|].
  destruct (sortBy =? "type")%string; eauto.
Qed.



(* ===================================================================== *)
(** ** Further properties of the transport                               *)
(* ===================================================================== *)

(** From any retry count within the budget: some number [k] of failed
    attempts, each followed by its wait, then either a success or the
    last failure with the budget used up. *)
Lemma makeRequest_outcome net url :
  forall d retries w,
    (retries + d = maxRetries)%nat ->
    exists k,
      (retries + k <= maxRetries)%nat
      /\ snd (makeRequest net url retries w)
         = mkWorld (S (calls w + k))
             (sleeps w
              ++ map (fun j => retryDelay * 2 ^ Z.of_nat (retries + j))
                   (seq 0 k))
      /\ (forall j, (j < k)%nat ->
                    exists e, attemptResult net url (calls w + j) = Throw e)
      /\ match fst (makeRequest net url retries w) with
         | Normal payload =>
             attemptResult net url (calls w + k) = Normal payload
         | Throw e =>
             (retries + k = maxRetries)%nat
             /\ exists cause,
                  attemptResult net url (calls w + k) = Throw cause
                  /\ e = exhausted url cause
         end.
Proof.
  induction d as [|d IH]; intros retries w Hd.
  - exists 0%nat. rewrite makeRequest_unfold, attempt_at.
    destruct (attemptResult net url (calls w)) as [payload|cause] eqn:A.
    + simpl. rewrite !Nat.add_0_r, app_nil_r.
      repeat split; auto; try lia; intros j Hj; lia.
    + destruct (Nat.ltb_spec retries maxRetries) as [|_]; [lia|].
      simpl. rewrite !Nat.add_0_r, app_nil_r.
      repeat split; auto; try lia;
        try (intros j Hj; lia);
        try (exists cause; split; [exact A | reflexivity]).
  - rewrite makeRequest_unfold, attempt_at.
    destruct (attemptResult net url (calls w)) as [payload|cause] eqn:A.
    + exists 0%nat. simpl. rewrite !Nat.add_0_r, app_nil_r.
      repeat split; auto; try lia; intros j Hj; lia.
    + destruct (Nat.ltb_spec retries maxRetries) as [_|]; [|lia].
      destruct (IH (S retries)
                  (delay (retryDelay * 2 ^ Z.of_nat retries)
                     (mkWorld (S (calls w)) (sleeps w))))
        as (k & Hk & Hw & Hfail & Hres); [lia|].
      exists (S k). simpl calls in *. simpl sleeps in *.
      split; [lia|]. split; [|split].
      * rewrite Hw. f_equal; [lia|].
        rewrite <- app_assoc. f_equal. simpl. f_equal.
        -- now rewrite Nat.add_0_r.
        -- rewrite <- seq_shift, map_map. apply map_ext.
           intros j. now rewrite Nat.add_succ_r.
      * intros [|j] Hj.
        -- exists cause. now rewrite Nat.add_0_r.
        -- destruct (Hfail j) as [e He]; [lia|].
           exists e. now rewrite Nat.add_succ_r.
      * replace (calls w + S k)%nat with (S (calls w) + k)%nat by lia.
        destruct (fst (makeRequest net url (S retries) _)); [exact Hres|].
        destruct Hres as [Hm Hc]. split; [lia | exact Hc].
Qed.

Lemma backoff_elapsed k :
  (k <= 3)%nat -> fold_right Z.add 0 (backoff k) <= 7000.
Proof.
  intros H. destruct k as [|[|[|[|k]]]]; try lia; vm_compute; discriminate.
Qed.

(** Whatever the network does, [makeRequest(url)] calls [fetch] at most
    four times, waits 1 s, 2 s and 4 s (at most 7 s in all) between the
    calls it makes, and stops at the first attempt that succeeds: it
    returns the payload of that attempt, or, when four attempts failed,
    the error built from the fourth failure. *)
Theorem makeRequest_is_bounded (net : Network) (url : string) :
  exists k,
    (k <= 3)%nat
    /\ snd (makeRequest net url 0 world0) = mkWorld (S k) (backoff k)
    /\ elapsed (snd (makeRequest net url 0 world0)) <= 7000
    /\ (forall j, (j < k)%nat -> exists e, attemptResult net url j = Throw e)
    /\ match fst (makeRequest net url 0 world0) with
       | Normal payload => attemptResult net url k = Normal payload
       | Throw e =>
           k = 3%nat
           /\ exists cause, attemptResult net url 3 = Throw cause
                            /\ e = exhausted url cause
       end.
Proof.
  destruct (makeRequest_outcome net url 3 0 world0 eq_refl)
    as (k & Hk & Hw & Hfail & Hres).
  simpl in Hk, Hw, Hfail, Hres. exists k.
  split; [exact Hk|]. split; [exact Hw|]. split; [|split].
  - rewrite Hw. unfold elapsed. simpl sleeps. now apply backoff_elapsed.
  - exact Hfail.
  - destruct (fst (makeRequest net url 0 world0)); [exact Hres|].
    destruct Hres as [-> Hc]. split; [reflexivity | exact Hc].
Qed.

(* ===================================================================== *)
(** ** Further properties of the request queue                           *)
(* ===================================================================== *)

(** No task is stranded: while a task is queued a worker is active, and
    when no worker is active every task submitted so far has been called
    and has settled. *)
Theorem queue_never_strands (s : State) :
  reachable s ->
  (requestQueue s <> [] ->
   isProcessingQueue s = true /\ exists w, workers s = [w])
  /\ (isProcessingQueue s = false ->
      requestQueue s = []
      /\ startedIds (log s) = seq 0 (submitted s)
      /\ settledIds (log s) = seq 0 (submitted s)).
Proof.
  intros Hr. destruct (reachable_Inv s Hr) as (stage & HS & HC).
  destruct (Serial_ids _ _ HS) as [Hs Hf].
  destruct stage as [k last | k t0]; simpl in HC; cbn [startedCount settledCount] in *.
  - destruct HC as (Hq & Hk & [(Hw & Hflag & Hempty & _)
                               | (t' & _ & Hw & Hflag & _)]).
    + split; [congruence|]. intros _.
      rewrite Hempty in Hq. simpl in Hq.
      assert (k = submitted s).
      { destruct (submitted s - k)%nat eqn:D; [lia | discriminate]. }
      subst k. repeat split; assumption.
    + split; [|congruence]. intros _. split; [exact Hflag | eauto].
  - destruct HC as (_ & _ & Hw & Hflag & _).
    split; [|congruence]. intros _. split; [exact Hflag | eauto].
Qed.

Lemma queue_never_strands_witness :
  reachable midBurst
  /\ requestQueue midBurst <> []
  /\ isProcessingQueue midBurst = true.
Proof.
  assert (Hr : reachable midBurst) by (exists (firstn 3 burst); reflexivity).
  assert (Hq : requestQueue midBurst <> []) by (vm_compute; discriminate).
  split; [exact Hr|]. split; [exact Hq|].
  destruct (queue_never_strands midBurst Hr) as [H _].
  destruct (H Hq) as [Hflag _]. exact Hflag.
Defined.

(** The starts recorded in a serial log are at least [rateLimit] apart,
    task after task. *)
Lemma Serial_rate l stage :
  Serial l stage ->
  (forall j tj, In (Started j tj) l ->
     match stage with
     | Running k t => (j <= k)%nat /\ tj + rateLimit * Z.of_nat (k - j) <= t
     | Quiet k last =>
         (j < k)%nat
         /\ exists tl, last = Some tl
                       /\ tj + rateLimit * Z.of_nat (k - 1 - j) <= tl
     end)
  /\ (forall j tj k tk,
        In (Started j tj) l -> In (Started k tk) l -> (j <= k)%nat ->
        tj + rateLimit * Z.of_nat (k - j) <= tk).
Proof.
  unfold rateLimit.
  induction 1 as [| l k last t HS [IHb IHp] Hgap | l k t o t' HS [IHb IHp] Hle].
  - split; intros; contradiction.
  - assert (Hb : forall j tj, In (Started j tj) (l ++ [Started k t]) ->
                              (j <= k)%nat /\ tj + 100 * Z.of_nat (k - j) <= t).
    { intros j tj Hin. apply in_app_or in Hin. destruct Hin as [Hin|[E|[]]].
      - destruct (IHb j tj Hin) as (Hj & tl & -> & Hb).
        specialize (Hgap tl eq_refl). unfold rateLimit in Hgap.
        split; [lia|].
        replace (k - j)%nat with (S (k - 1 - j)) by lia. lia.
      - inversion E; subst. split; [lia|].
        rewrite Nat.sub_diag. lia. }
    split; [exact Hb|].
    intros j tj k' tk Hj Hk' Hjk.
    apply in_app_or in Hk'. destruct Hk' as [Hk'|[E|[]]].
    + apply in_app_or in Hj. destruct Hj as [Hj|[E|[]]].
      * now apply IHp.
      * inversion E; subst. destruct (IHb k' tk Hk') as (Hlt & _). lia.
    + inversion E; subst. now apply Hb.
  - split.
    + intros j tj Hin. apply in_app_or in Hin. destruct Hin as [Hin|[E|[]]];
        [|discriminate].
      destruct (IHb j tj Hin) as (Hj & Hb).
      split; [lia|]. exists t'. split; [reflexivity|].
      replace (S k - 1 - j)%nat with (k - j)%nat by lia. lia.
    + intros j tj k' tk Hj Hk' Hjk.
      apply in_app_or in Hj. destruct Hj as [Hj|[E|[]]]; [|discriminate].
      apply in_app_or in Hk'. destruct Hk' as [Hk'|[E|[]]]; [|discriminate].
      now apply IHp.
Qed.

(** The rate limit: in every execution, task [k] is called at least
    [100 * (k - j)] ms after task [j] was, so that [n] tasks take at
    least [100 * (n - 1)] ms to be dispatched. *)
Theorem queue_rate_limit (s : State) :
  reachable s ->
  forall j tj k tk,
    In (Started j tj) (log s) -> In (Started k tk) (log s) -> (j <= k)%nat ->
    tj + 100 * Z.of_nat (k - j) <= tk.
Proof.
  intros Hr. destruct (reachable_Inv s Hr) as (stage & HS & _).
  destruct (Serial_rate _ _ HS) as [_ H]. exact H.
Qed.

Lemma queue_rate_limit_witness :
  reachable afterBurst
  /\ In (Started 0 0) (log afterBurst)
  /\ In (Started 2 250) (log afterBurst)
  /\ 0 + 100 * Z.of_nat (2 - 0) <= 250.
Proof.
  assert (H0 : In (Started 0 0) (log afterBurst)) by (vm_compute; auto 10).
  assert (H2 : In (Started 2 250) (log afterBurst)) by (vm_compute; auto 10).
  repeat split; auto; try exact afterBurst_reachable.
  apply (queue_rate_limit afterBurst afterBurst_reachable 0%nat 0 2%nat 250 H0 H2).
  lia.
Defined.

(* ===================================================================== *)
(** ** The cache                                                         *)
(* ===================================================================== *)

Import Cache.

Lemma Map_get_set_same {A : Type} (key : string) (e : Entry A) m :
  Map_get key (Map_set key e m) = Some e.
Proof.
  induction m as [|[k e'] m IH]; simpl.
  - now rewrite String.eqb_refl.
  - destruct (String.eqb_spec k key) as [->|Hne]; simpl.
    + now rewrite String.eqb_refl.
    + destruct (String.eqb_spec k key); [congruence | exact IH].
Qed.

Lemma Map_get_set_other {A : Type} (key key' : string) (e : Entry A) m :
  key' <> key -> Map_get key' (Map_set key e m) = Map_get key' m.
Proof.
  intros Hne. induction m as [|[k e'] m IH]; simpl.
  - destruct (String.eqb_spec key key'); [congruence | reflexivity].
  - destruct (String.eqb_spec k key) as [->|Hk]; simpl.
    + destruct (String.eqb_spec key key'); [congruence | reflexivity].
    + destruct (String.eqb_spec k key'); [reflexivity | exact IH].
Qed.

Lemma Map_get_delete_same {A : Type} (key : string) (m : Store A) :
  Map_get key (Map_delete key m) = None.
Proof.
  induction m as [|[k e] m IH]; simpl; [reflexivity|].
  destruct (String.eqb_spec k key) as [->|Hne]; simpl; [exact IH|].
  destruct (String.eqb_spec k key); [congruence | exact IH].
Qed.

Lemma Map_get_delete_other {A : Type} (key key' : string) (m : Store A) :
  key' <> key -> Map_get key' (Map_delete key m) = Map_get key' m.
Proof.
  intros Hne. induction m as [|[k e] m IH]; simpl; [reflexivity|].
  destruct (String.eqb_spec k key) as [->|Hk]; simpl.
  - destruct (String.eqb_spec key key'); [congruence | exact IH].
  - destruct (String.eqb_spec k key'); [reflexivity | exact IH].
Qed.

Lemma Map_delete_twice {A : Type} (key : string) (m : Store A) :
  Map_delete key (Map_delete key m) = Map_delete key m.
Proof.
  induction m as [|[k e] m IH]; simpl; [reflexivity|].
  destruct (String.eqb_spec k key) as [->|Hne]; simpl; [exact IH|].
  destruct (String.eqb_spec k key); [congruence|]. now rewrite IH.
Qed.

Lemma getFromCache_other {A : Type} (key key' : string) (now : Z)
  (m m' : Store A) :
  Map_get key' m' = Map_get key' m ->
  fst (getFromCache key' now m') = fst (getFromCache key' now m).
Proof.
  unfold getFromCache. intros ->.
  destruct (Map_get key' m) as [e|]; [|reflexivity].
  destruct (now - timestamp e <? cacheExpiry); reflexivity.
Qed.

(** What is stored is read back for five minutes: within [cacheExpiry]
    of the time of [setCache], [getFromCache] returns the data stored
    last under the key and leaves the cache as it is; storing under one
    key does not change what is read under another. *)
Theorem cache_returns_fresh_entry {A : Type} (key : string) (d : A)
  (storedAt now : Z) (m : Store A) :
  now - storedAt < cacheExpiry ->
  getFromCache key now (setCache key d storedAt m)
  = (Some d, setCache key d storedAt m)
  /\ forall key', key' <> key ->
       fst (getFromCache key' now (setCache key d storedAt m))
       = fst (getFromCache key' now m).
Proof.
  intros Hfresh. split.
  - unfold getFromCache, setCache. rewrite Map_get_set_same. simpl.
    destruct (Z.ltb_spec (now - storedAt) cacheExpiry); [reflexivity | lia].
  - intros key' Hne. apply (getFromCache_other key).
    unfold setCache. now apply Map_get_set_other.
Qed.

Lemma cache_returns_fresh_entry_witness :
  299999 - 0 < cacheExpiry
  /\ getFromCache "pokemon/25_{}" 299999 (setCache "pokemon/25_{}" 25 0 [])
     = (Some 25, [("pokemon/25_{}", mkCached 25 0)]).
Proof.
  assert (H : 299999 - 0 < cacheExpiry) by reflexivity.
  split; [exact H|].
  destruct (cache_returns_fresh_entry "pokemon/25_{}" 25 0 299999 [] H)
    as [E _].
  exact E.
Defined.

(** An entry is stale from [cacheExpiry] on: [getFromCache] then returns
    [null] and deletes the entry, so that the key reads as absent at any
    later time, whatever the clock; the other keys are left as they
    were. *)
Theorem cache_drops_stale_entry {A : Type} (key : string) (d : A)
  (storedAt now : Z) (m : Store A) :
  cacheExpiry <= now - storedAt ->
  let after := snd (getFromCache key now (setCache key d storedAt m)) in
  fst (getFromCache key now (setCache key d storedAt m)) = None
  /\ Map_get key after = None
  /\ (forall now', getFromCache key now' after = (None, after))
  /\ (forall key', key' <> key -> Map_get key' after = Map_get key' m).
Proof.
  intros Hstale after.
  assert (E : getFromCache key now (setCache key d storedAt m)
              = (None, Map_delete key (Map_set key (mkCached d storedAt) m))).
  { unfold getFromCache, setCache. rewrite Map_get_set_same. simpl.
    destruct (Z.ltb_spec (now - storedAt) cacheExpiry); [lia | reflexivity]. }
  subst after. rewrite E. simpl.
  split; [reflexivity|]. split; [apply Map_get_delete_same|]. split.
  - intros now'. unfold getFromCache.
    now rewrite Map_get_delete_same, Map_delete_twice.
  - intros key' Hne. rewrite Map_get_delete_other by exact Hne.
    now apply Map_get_set_other.
Qed.

Lemma cache_drops_stale_entry_witness :
  cacheExpiry <= 300000 - 0
  /\ fst (getFromCache "pokemon/25_{}" 300000
            (setCache "pokemon/25_{}" 25 0 []))
     = None.
Proof.
  assert (H : cacheExpiry <= 300000 - 0) by discriminate.
  split; [exact H|].
  destruct (cache_drops_stale_entry "pokemon/25_{}" 25 0 300000 [] H)
    as [E _].
  exact E.
Defined.

(* ===================================================================== *)
(** ** The service with its cache                                        *)
(* ===================================================================== *)

(** Every call of [makeRequest] calls [fetch] at least once. *)
Lemma makeRequest_calls net url w :
  (calls w < calls (snd (makeRequest net url 0 w)))%nat.
Proof.
  destruct (makeRequest_outcome net url 3 0 w eq_refl) as (k & _ & Hw & _).
  rewrite Hw. simpl. lia.
Qed.

Lemma getPokemonById_hit net id now storedAt s e :
  negb (truthy id)
  || (negb (typeof id =? "number")%string
      && negb (typeof id =? "string")%string) = false ->
  Map_get (Api.getCacheKey ("pokemon/" ++ ToString id)%string []) (Api.cache s)
  = Some e ->
  now - timestamp e < cacheExpiry ->
  Api.truthyCached (data e) = true ->
  Api.getPokemonById net id now storedAt s = (Fulfilled (data e), s).
Proof.
  intros Hid Hget Hfresh Htruthy. unfold Api.getPokemonById.
  rewrite Hid. unfold getFromCache. rewrite Hget.
  destruct (Z.ltb_spec (now - timestamp e) cacheExpiry); [|lia].
  rewrite Htruthy. destruct s; reflexivity.
Qed.

(** A lookup that is not answered by a fresh, truthy entry goes to the
    network. *)
Lemma getPokemonById_miss net id now storedAt s :
  negb (truthy id)
  || (negb (typeof id =? "number")%string
      && negb (typeof id =? "string")%string) = false ->
  (forall e,
      Map_get (Api.getCacheKey ("pokemon/" ++ ToString id)%string [])
        (Api.cache s) = Some e ->
      now - timestamp e < cacheExpiry -> Api.truthyCached (data e) = false) ->
  (calls (Api.world s)
   < calls (Api.world (snd (Api.getPokemonById net id now storedAt s))))%nat.
Proof.
  intros Hid Hmiss. unfold Api.getPokemonById. rewrite Hid.
  unfold getFromCache.
  pose proof (makeRequest_calls net
                (Api.baseUrl ++ "/pokemon/" ++ ToString id)%string
                (Api.world s)) as Hc.
  destruct (makeRequest net _ 0 (Api.world s)) as [[payload|e] w] eqn:M;
    simpl in Hc.
  - destruct (Map_get _ (Api.cache s)) as [e|] eqn:G.
    + destruct (Z.ltb_spec (now - timestamp e) cacheExpiry) as [Hf|Hs].
      * rewrite (Hmiss e eq_refl Hf).
        destruct (fromAPI payload); simpl; exact Hc.
      * destruct (fromAPI payload); simpl; exact Hc.
    + destruct (fromAPI payload); simpl; exact Hc.
  - destruct (Map_get _ (Api.cache s)) as [e'|] eqn:G.
    + destruct (Z.ltb_spec (now - timestamp e') cacheExpiry) as [Hf|Hs].
      * rewrite (Hmiss e' eq_refl Hf). simpl. exact Hc.
      * simpl. exact Hc.
    + simpl. exact Hc.
Qed.

(** What a lookup that went to the network and was fulfilled leaves. *)
Lemma getPokemonById_fetched net id now storedAt s c s1 :
  Api.getPokemonById net id now storedAt s = (Fulfilled c, s1) ->
  calls (Api.world s1) <> calls (Api.world s) ->
  negb (truthy id)
  || (negb (typeof id =? "number")%string
      && negb (typeof id =? "string")%string) = false
  /\ (exists pokemon, c = Api.Instance pokemon)
  /\ Map_get (Api.getCacheKey ("pokemon/" ++ ToString id)%string [])
       (Api.cache s1)
     = Some (mkCached c storedAt).
Proof.
  unfold Api.getPokemonById.
  destruct (negb (truthy id)
            || negb (typeof id =? "number")%string
               && negb (typeof id =? "string")%string);
    [intros H; inversion H; subst; congruence|].
  destruct (getFromCache _ now (Api.cache s)) as [cached cache1].
  destruct (makeRequest net _ 0 (Api.world s)) as [[payload|e] w].
  - destruct (fromAPI payload) as [pokemon|e].
    + destruct cached as [hit|].
      * destruct (Api.truthyCached hit);
          intros H Hc; inversion H; subst; simpl in *; try congruence.
        repeat split; eauto. unfold setCache. apply Map_get_set_same.
      * intros H Hc; inversion H; subst; simpl in *.
        repeat split; eauto. unfold setCache. apply Map_get_set_same.
    + destruct cached as [hit|]; [destruct (Api.truthyCached hit)|];
        intros H Hc; inversion H; subst; simpl in *; congruence.
  - destruct cached as [hit|]; [destruct (Api.truthyCached hit)|];
      intros H Hc; inversion H; subst; simpl in *; congruence.
Qed.

(** An entity fetched from the network is served from the cache for five
    minutes: every lookup whose identifier prints like the one fetched
    (25 and "25", a name in any case) and that is made within
    [cacheExpiry] of the time of storing returns the same instance,
    without any call of [fetch] and without changing the state. *)
Theorem lookup_is_served_from_cache (net : Network) (id : JsVal)
  (now storedAt : Z) (s s1 : Api.ApiState) (c : Api.Cached) :
  Api.getPokemonById net id now storedAt s = (Fulfilled c, s1) ->
  calls (Api.world s1) <> calls (Api.world s) ->
  (exists pokemon, c = Api.Instance pokemon)
  /\ forall id2 now2 storedAt2,
       negb (truthy id2)
       || (negb (typeof id2 =? "number")%string
           && negb (typeof id2 =? "string")%string) = false ->
       ToString id2 = ToString id ->
       now2 - storedAt < cacheExpiry ->
       Api.getPokemonById net id2 now2 storedAt2 s1 = (Fulfilled c, s1).
Proof.
  intros H Hc.
  destruct (getPokemonById_fetched net id now storedAt s c s1 H Hc)
    as (_ & [pokemon ->] & Hget).
  split; [eauto|].
  intros id2 now2 storedAt2 Hid2 Hs Hfresh.
  apply (getPokemonById_hit net id2 now2 storedAt2 s1
           (mkCached (Api.Instance pokemon) storedAt)); auto.
  now rewrite Hs.
Qed.

Lemma lookup_is_served_from_cache_witness :
  exists c s1,
    Api.getPokemonById Api.alwaysPikachu (JNum (Fin 25)) 0 40 Api.initialApi
    = (Fulfilled c, s1)
    /\ calls (Api.world s1) = 1%nat
    /\ Api.getPokemonById Api.alwaysPikachu (JStr "25") 300039 300100 s1
       = (Fulfilled c, s1).
Proof.
  destruct (Api.getPokemonById Api.alwaysPikachu (JNum (Fin 25)) 0 40
              Api.initialApi) as [r s1] eqn:E.
  assert (Hr : exists c, r = Fulfilled c).
  { vm_compute in E. inversion E. eauto. }
  destruct Hr as [c ->].
  assert (Hcalls : calls (Api.world s1) = 1%nat).
  { vm_compute in E. inversion E. reflexivity. }
  exists c, s1. split; [reflexivity|]. split; [exact Hcalls|].
  destruct (lookup_is_served_from_cache _ _ _ _ _ _ _ E) as [_ H].
  { rewrite Hcalls. discriminate. }
  apply H; reflexivity.
Defined.

(** After five minutes the entity is fetched again: a lookup made
    [cacheExpiry] or more after the time of storing calls [fetch]. *)
Theorem stale_lookup_fetches_again (net : Network) (id : JsVal)
  (now storedAt : Z) (s s1 : Api.ApiState) (c : Api.Cached) :
  Api.getPokemonById net id now storedAt s = (Fulfilled c, s1) ->
  calls (Api.world s1) <> calls (Api.world s) ->
  forall now2 storedAt2,
    cacheExpiry <= now2 - storedAt ->
    (calls (Api.world s1)
     < calls (Api.world (snd (Api.getPokemonById net id now2 storedAt2 s1))))%nat.
Proof.
  intros H Hc now2 storedAt2 Hstale.
  destruct (getPokemonById_fetched net id now storedAt s c s1 H Hc)
    as (Hid & _ & Hget).
  apply getPokemonById_miss; [exact Hid|].
  intros e He Hfresh. rewrite Hget in He. inversion He; subst.
  simpl in Hfresh. lia.
Qed.

Lemma stale_lookup_fetches_again_witness :
  exists c s1,
    Api.getPokemonById Api.alwaysPikachu (JNum (Fin 25)) 0 40 Api.initialApi
    = (Fulfilled c, s1)
    /\ calls (Api.world s1) = 1%nat
    /\ (1 < calls (Api.world
                     (snd (Api.getPokemonById Api.alwaysPikachu
                             (JNum (Fin 25)) 300040 300100 s1))))%nat.
Proof.
  destruct (Api.getPokemonById Api.alwaysPikachu (JNum (Fin 25)) 0 40
              Api.initialApi) as [r s1] eqn:E.
  assert (Hr : exists c, r = Fulfilled c).
  { vm_compute in E. inversion E. eauto. }
  destruct Hr as [c ->].
  assert (Hcalls : calls (Api.world s1) = 1%nat).
  { vm_compute in E. inversion E. reflexivity. }
  exists c, s1. split; [reflexivity|]. split; [exact Hcalls|].
  rewrite <- Hcalls at 1.
  apply (stale_lookup_fetches_again _ _ _ _ _ _ _ E).
  - rewrite Hcalls. discriminate.
  - discriminate.
Defined.

(** A lookup that fails leaves nothing to serve: the next lookup of the
    same identifier, whenever it is made, goes to the network again. *)
Theorem failed_lookup_is_not_cached (net : Network) (id : JsVal)
  (now storedAt : Z) (s s1 : Api.ApiState) (e : JsError) :
  Api.getPokemonById net id now storedAt s = (Rejected e, s1) ->
  negb (truthy id)
  || (negb (typeof id =? "number")%string
      && negb (typeof id =? "string")%string) = false ->
  forall now2 storedAt2,
    (calls (Api.world s1)
     < calls (Api.world (snd (Api.getPokemonById net id now2 storedAt2 s1))))%nat.
Proof.
  intros H Hid now2 storedAt2.
  apply getPokemonById_miss; [exact Hid|].
  unfold Api.getPokemonById in H. rewrite Hid in H.
  unfold getFromCache in H.
  intros e' He' _.
  destruct (Map_get _ (Api.cache s)) as [old|] eqn:G.
  - destruct (now - timestamp old <? cacheExpiry).
    + destruct (Api.truthyCached (data old)) eqn:T; [discriminate|].
      destruct (makeRequest net _ 0 (Api.world s)) as [[payload|err] w];
        [destruct (fromAPI payload); [discriminate|]|];
        inversion H; subst; cbn [Api.cache] in He'; rewrite G in He';
        inversion He'; subst; exact T.
    + destruct (makeRequest net _ 0 (Api.world s)) as [[payload|err] w];
        [destruct (fromAPI payload); [discriminate|]|];
        inversion H; subst; cbn [Api.cache] in He';
        rewrite Map_get_delete_same in He'; discriminate.
  - destruct (makeRequest net _ 0 (Api.world s)) as [[payload|err] w];
      [destruct (fromAPI payload); [discriminate|]|];
      inversion H; subst; cbn [Api.cache] in He';
      rewrite Map_get_delete_same in He'; discriminate.
Qed.

Lemma failed_lookup_is_not_cached_witness :
  exists e s1,
    Api.getPokemonById down (JNum (Fin 99999)) 0 0 Api.initialApi
    = (Rejected e, s1)
    /\ calls (Api.world s1) = 4%nat
    /\ (4 < calls (Api.world
                     (snd (Api.getPokemonById down (JNum (Fin 99999)) 1 1 s1))))%nat.
Proof.
  destruct (Api.getPokemonById down (JNum (Fin 99999)) 0 0 Api.initialApi)
    as [r s1] eqn:E.
  assert (Hr : exists e, r = Rejected e).
  { vm_compute in E. inversion E. eauto. }
  destruct Hr as [e ->].
  assert (Hcalls : calls (Api.world s1) = 4%nat).
  { vm_compute in E. inversion E. reflexivity. }
  exists e, s1. split; [reflexivity|]. split; [exact Hcalls|].
  rewrite <- Hcalls at 1.
  apply (failed_lookup_is_not_cached _ _ _ _ _ _ _ E). reflexivity.
Defined.

(** *** The keys of the entities hold nothing but entities *)

Lemma Map_get_delete_Some {A : Type} (key k : string) (m : Store A) e :
  Map_get k (Map_delete key m) = Some e -> Map_get k m = Some e.
Proof.
  destruct (String.eqb_spec k key) as [->|Hne].
  - now rewrite Map_get_delete_same.
  - now rewrite Map_get_delete_other.
Qed.

Lemma keys_getFromCache key now m :
  Api.pokemonKeysHoldInstances m ->
  Api.pokemonKeysHoldInstances (snd (getFromCache key now m)).
Proof.
  intros H. unfold getFromCache.
  destruct (Map_get key m) as [e|];
    [destruct (now - timestamp e <? cacheExpiry)|]; simpl; auto;
    intros k e' Hk Hp; apply (H k e'); auto;
    eapply Map_get_delete_Some; eauto.
Qed.

Lemma keys_set key c t m :
  (prefix "pokemon/" key = true -> exists pokemon, c = Api.Instance pokemon) ->
  Api.pokemonKeysHoldInstances m ->
  Api.pokemonKeysHoldInstances (setCache key c t m).
Proof.
  intros Hc H k e Hk Hp. unfold setCache in Hk.
  destruct (String.eqb_spec k key) as [->|Hne].
  - rewrite Map_get_set_same in Hk. inversion Hk; subst. simpl. auto.
  - rewrite Map_get_set_other in Hk by exact Hne. eapply H; eauto.
Qed.

Lemma getFromCache_hit {A : Type} (key : string) now (m m' : Store A) d :
  getFromCache key now m = (Some d, m') ->
  m' = m /\ exists e, Map_get key m = Some e /\ data e = d.
Proof.
  unfold getFromCache. destruct (Map_get key m) as [e|]; [|discriminate].
  destruct (now - timestamp e <? cacheExpiry); [|discriminate].
  intros H. inversion H. eauto.
Qed.

Lemma pokemon_key_prefix x :
  prefix "pokemon/" (Api.getCacheKey ("pokemon/" ++ x)%string []) = true.
Proof.
  unfold Api.getCacheKey. simpl.
  repeat (destruct (ascii_dec _ _); [|congruence]).
  destruct (x ++ _)%string; reflexivity.
Qed.

Lemma getPokemonById_keys net id now storedAt s :
  Api.pokemonKeysHoldInstances (Api.cache s) ->
  Api.pokemonKeysHoldInstances
    (Api.cache (snd (Api.getPokemonById net id now storedAt s)))
  /\ forall c, fst (Api.getPokemonById net id now storedAt s) = Fulfilled c ->
               exists pokemon, c = Api.Instance pokemon.
Proof.
  intros H. unfold Api.getPokemonById.
  destruct (negb (truthy id) || _); [split; [exact H | discriminate]|].
  pose proof (keys_getFromCache
                (Api.getCacheKey ("pokemon/" ++ ToString id)%string [])
                now (Api.cache s) H) as H1.
  destruct (getFromCache _ now (Api.cache s)) as [cached cache1] eqn:G.
  simpl in H1.
  assert (Hreq :
    let r := match makeRequest net
                     (Api.baseUrl ++ "/pokemon/" ++ ToString id)%string 0
                     (Api.world s) with
             | (Throw e, w) => (Rejected e, Api.mkApi cache1 w)
             | (Normal payload, w) =>
                 match fromAPI payload with
                 | Throw e => (Rejected e, Api.mkApi cache1 w)
                 | Normal pokemon =>
                     (Fulfilled (Api.Instance pokemon),
                      Api.mkApi
                        (setCache
                           (Api.getCacheKey ("pokemon/" ++ ToString id)%string [])
                           (Api.Instance pokemon) storedAt cache1) w)
                 end
             end in
    Api.pokemonKeysHoldInstances (Api.cache (snd r))
    /\ forall c, fst r = Fulfilled c -> exists pokemon, c = Api.Instance pokemon).
  { destruct (makeRequest net _ 0 (Api.world s)) as [[payload|e] w]; simpl.
    - destruct (fromAPI payload) as [pokemon|e]; simpl.
      + split; [apply keys_set; eauto|].
        intros c Hc. inversion Hc. eauto.
      + split; [exact H1 | discriminate].
    - split; [exact H1 | discriminate]. }
  destruct cached as [hit|]; [|exact Hreq].
  destruct (Api.truthyCached hit); [|exact Hreq].
  simpl. split; [exact H1|].
  intros c Hc. inversion Hc; subst.
  apply getFromCache_hit in G. destruct G as (_ & e & He & <-).
  apply (H _ e He). apply pokemon_key_prefix.
Qed.

Lemma cachedPayload_keys net key url now storedAt s :
  prefix "pokemon/" key = false ->
  Api.pokemonKeysHoldInstances (Api.cache s) ->
  Api.pokemonKeysHoldInstances
    (Api.cache (snd (Api.cachedPayload net key url now storedAt s))).
Proof.
  intros Hkey H. unfold Api.cachedPayload.
  pose proof (keys_getFromCache key now (Api.cache s) H) as H1.
  destruct (getFromCache key now (Api.cache s)) as [cached cache1].
  simpl in H1.
  assert (Hreq : Api.pokemonKeysHoldInstances
                   (Api.cache
                      (snd match makeRequest net url 0 (Api.world s) with
                           | (Throw e, w) => (Rejected e, Api.mkApi cache1 w)
                           | (Normal payload, w) =>
                               (Fulfilled (Api.Payload payload),
                                Api.mkApi
                                  (setCache key (Api.Payload payload) storedAt
                                     cache1) w)
                           end))).
  { destruct (makeRequest net url 0 (Api.world s)) as [[payload|e] w]; simpl.
    - apply keys_set; [congruence | exact H1].
    - exact H1. }
  destruct cached as [hit|]; [|exact Hreq].
  destruct (Api.truthyCached hit); [exact H1 | exact Hreq].
Qed.

Lemma perform_keys net r now storedAt s :
  Api.pokemonKeysHoldInstances (Api.cache s) ->
  Api.pokemonKeysHoldInstances (Api.cache (Api.perform net r now storedAt s)).
Proof.
  intros H. destruct r as [id | name | limit offset | type | | id limit |];
    simpl.
  - apply getPokemonById_keys, H.
  - unfold Api.getPokemonByName.
    destruct name; try exact H.
    destruct (negb (truthy (JStr s0))); [exact H|].
    apply getPokemonById_keys, H.
  - unfold Api.getPokemonList.
    destruct ((limit <? 1) || (limit >? 1000)); [exact H|].
    destruct (offset <? 0); [exact H|].
    apply cachedPayload_keys; [reflexivity | exact H].
  - unfold Api.getPokemonByType.
    destruct type; try exact H.
    destruct (negb (truthy (JStr s0))); [exact H|].
    apply cachedPayload_keys; [reflexivity | exact H].
  - unfold Api.getAllTypes.
    apply cachedPayload_keys; [reflexivity | exact H].
  - unfold Api.getPokemonMoves.
    pose proof (getPokemonById_keys net id now storedAt s H) as [Hk _].
    destruct (Api.getPokemonById net id now storedAt s) as [[[p|v]|e] s'];
      exact Hk.
  - intros k e Hk. discriminate.
Qed.

Lemma Reachable_keys net s :
  Api.Reachable net s -> Api.pokemonKeysHoldInstances (Api.cache s).
Proof.
  induction 1 as [|s r now storedAt _ IH].
  - intros k e Hk. discriminate.
  - now apply perform_keys.
Qed.

(** The listings and type payloads that share the cache are never
    served by a lookup of an entity: in every state of the service, a
    fulfilled [getPokemonById] yields an instance of [Pokemon].  Such an
    instance has no [moves], so that [getPokemonMoves] resolves to the
    empty list for every identifier and every limit, also when the
    payload fetched lists moves. *)
Theorem getPokemonMoves_is_always_empty (net : Network) (s : Api.ApiState) :
  Api.Reachable net s ->
  forall id limit now storedAt,
    (forall c, fst (Api.getPokemonById net id now storedAt s) = Fulfilled c ->
               exists pokemon, c = Api.Instance pokemon)
    /\ fst (Api.getPokemonMoves net id limit now storedAt s) = JArr [].
Proof.
  intros Hr id limit now storedAt.
  pose proof (getPokemonById_keys net id now storedAt s (Reachable_keys net s Hr))
    as [_ Hinst].
  split; [exact Hinst|].
  unfold Api.getPokemonMoves.
  destruct (Api.getPokemonById net id now storedAt s) as [[[p|v]|e] s'];
    try reflexivity.
  destruct (Hinst (Api.Payload v) eq_refl) as [p Hp]. discriminate.
Qed.

Lemma getPokemonMoves_is_always_empty_witness :
  Api.Reachable Api.alwaysPikachu
    (Api.perform Api.alwaysPikachu Api.AllTypes 0 10 Api.initialApi)
  /\ GetOpt Api.pikachuPayload "moves" <> JUndefined
  /\ fst (Api.getPokemonMoves Api.alwaysPikachu (JNum (Fin 25)) None 20 30
            (Api.perform Api.alwaysPikachu Api.AllTypes 0 10 Api.initialApi))
     = JArr [].
Proof.
  assert (Hr : Api.Reachable Api.alwaysPikachu
                 (Api.perform Api.alwaysPikachu Api.AllTypes 0 10
                    Api.initialApi))
    by (apply Api.Reachable_perform, Api.Reachable_initial).
  split; [exact Hr|]. split; [discriminate|].
  destruct (getPokemonMoves_is_always_empty _ _ Hr (JNum (Fin 25)) None 20 30)
    as [_ H].
  exact H.
Defined.

(* ===================================================================== *)
(** ** Further properties of the model class                             *)
(* ===================================================================== *)

Import PokemonMethods.

Lemma trimStart_head s :
  trimStart s = ""
  \/ exists c r, trimStart s = String c r /\ is_white_space c = false.
Proof.
  induction s as [|c s IH]; simpl; [now left|].
  destruct (is_white_space c) eqn:W; [exact IH|].
  right. exists c, s. split; [reflexivity | exact W].
Qed.

Lemma trimEnd_twice s : trimEnd (trimEnd s) = trimEnd s.
Proof.
  induction s as [|c s IH]; simpl; [reflexivity|].
  destruct (trimEnd s) as [|d t] eqn:E.
  - destruct (is_white_space c) eqn:W; simpl; [reflexivity|].
    now rewrite W.
  - simpl. simpl in IH. rewrite IH. reflexivity.
Qed.

Lemma trimEnd_keeps_head c r :
  is_white_space c = false -> exists r', trimEnd (String c r) = String c r'.
Proof.
  intros W. simpl. destruct (trimEnd r); [rewrite W|]; eauto.
Qed.

(** [trim] is idempotent. *)
Lemma trim_twice s : trim (trim s) = trim s.
Proof.
  unfold trim.
  destruct (trimStart_head s) as [E | (c & r & E & W)]; rewrite E.
  - reflexivity.
  - destruct (trimEnd_keeps_head c r W) as [r' E'].
    rewrite E'. cbn [trimStart]. rewrite W. rewrite <- E'.
    apply trimEnd_twice.
Qed.

Lemma getImageUrl_truthy sprites : truthy (getImageUrl sprites) = true.
Proof.
  unfold getImageUrl.
  destruct (truthy (GetOpt (GetOpt (GetOpt sprites "other") "official-artwork")
                      "front_default")) eqn:A; [exact A|].
  destruct (truthy (GetOpt (GetOpt (GetOpt sprites "other") "dream_world")
                      "front_default")) eqn:B; [exact B|].
  destruct (truthy (GetOpt sprites "front_default")) eqn:C; [exact C|].
  reflexivity.
Qed.

Lemma filter_truthy l : Forall (fun v => truthy v = true) (filter truthy l).
Proof.
  apply Forall_forall. intros v Hv. apply filter_In in Hv. tauto.
Qed.

Lemma mapM_length {A B : Type} (f : A -> completion B) xs ys :
  mapM f xs = Normal ys -> length ys = length xs.
Proof.
  revert ys. induction xs as [|x xs IH]; simpl; intros ys H.
  - inversion H. reflexivity.
  - unbind H. inversion H; subst. simpl. f_equal. now apply IH.
Qed.

Lemma objectOrEmpty_record v : isRecord (objectOrEmpty v) = true.
Proof. destruct v; reflexivity. Qed.

(** Everything [validateAndSet] assigns, from what it accepted. *)
Lemma new_Pokemon_built data p :
  fromAPI data = Normal p ->
  exists s,
    GetOpt data "name" = JStr s /\ (trim s =? "")%string = false
    /\ computed (optionalNumber (GetOpt data "id")) (trim s)
         (optionalNumber (GetOpt data "height"))
         (optionalNumber (GetOpt data "weight"))
         (optionalNumber (GetOpt data "base_experience"))
         (arrayOrEmpty (GetOpt data "types"))
         (arrayOrEmpty (GetOpt data "abilities"))
         (arrayOrEmpty (GetOpt data "stats"))
         (objectOrEmpty (GetOpt data "sprites"))
         (objectOrEmpty (GetOpt data "cries"))
       = Normal p.
Proof.
  intros H.
  assert (Hnull : data <> JNull) by (intros ->; discriminate).
  unfold fromAPI in H. rewrite (new_Pokemon_cases data Hnull) in H.
  destruct (idRejected (GetOpt data "id")); [discriminate|].
  destruct (nameRejected (GetOpt data "name")) eqn:N; [discriminate|].
  destruct (GetOpt data "name") as [| | | |s| |]; try discriminate.
  exists s. repeat split; auto.
Qed.

Lemma computed_all id name h w b types abilities stats sprites cries p :
  computed id name h w b types abilities stats sprites cries = Normal p ->
  exists typeNames abilityNames total,
    getTypeNames types = Normal typeNames
    /\ getAbilityNames abilities = Normal abilityNames
    /\ getStatTotal stats = Normal total
    /\ p = mkPokemon id name h w b types abilities stats sprites cries
             (getImageUrl sprites) typeNames abilityNames
             (getPrimaryType typeNames) total.
Proof.
  unfold computed. intros H. unbind H. inversion H; subst.
  eexists _, _, _. repeat split; eauto.
Qed.

(** What every constructed entity satisfies: its [id] and optional
    numbers are numbers other than [NaN], its [name] is non-empty and
    trimmed, its [sprites] and [cries] are records, its type and ability
    names are truthy and no more than its types and abilities, its
    primary type is the first type name or "unknown", and its image URL
    and primary type are never empty. *)
Theorem constructed_entity_is_well_formed (data : JsVal) (p : Pokemon) :
  fromAPI data = Normal p ->
  PokemonModel.id p <> NaN
  /\ height p <> NaN /\ weight p <> NaN /\ base_experience p <> NaN
  /\ PokemonModel.name p <> ""
  /\ trim (PokemonModel.name p) = PokemonModel.name p
  /\ isRecord (sprites p) = true /\ isRecord (cries p) = true
  /\ Forall (fun v => truthy v = true) (typeNames p)
  /\ Forall (fun v => truthy v = true) (abilityNames p)
  /\ (length (typeNames p) <= length (types p))%nat
  /\ (length (abilityNames p) <= length (abilities p))%nat
  /\ primaryType p = hd (JStr "unknown") (typeNames p)
  /\ truthy (primaryType p) = true
  /\ truthy (imageUrl p) = true.
Proof.
  intros H. destruct (new_Pokemon_built data p H) as (s & _ & Hs & Hc).
  apply computed_all in Hc.
  destruct Hc as (tn & an & total & Ht & Ha & _ & ->). simpl.
  unfold getTypeNames in Ht. unfold getAbilityNames in Ha.
  apply bind_Normal in Ht. destruct Ht as (rawT & Mt & Ht).
  apply bind_Normal in Ha. destruct Ha as (rawA & Ma & Ha).
  inversion Ht; subst tn. inversion Ha; subst an.
  pose proof (filter_truthy rawT) as Ft.
  assert (Hhd : getPrimaryType (filter truthy rawT)
                = hd (JStr "unknown") (filter truthy rawT)
                /\ truthy (getPrimaryType (filter truthy rawT)) = true).
  { destruct (filter truthy rawT) as [|v l]; [split; reflexivity|].
    simpl. inversion Ft as [|? ? Hv _]; subst. rewrite Hv. auto. }
  destruct Hhd as [Hhd Hpt].
  split; [apply optionalNumber_spec|].
  split; [apply optionalNumber_spec|].
  split; [apply optionalNumber_spec|].
  split; [apply optionalNumber_spec|].
  split; [intros Hn; rewrite Hn in Hs; discriminate|].
  split; [apply trim_twice|].
  split; [apply objectOrEmpty_record|].
  split; [apply objectOrEmpty_record|].
  split; [exact Ft|].
  split; [apply filter_truthy|].
  split; [rewrite <- (mapM_length _ _ _ Mt); apply filter_length_le|].
  split; [rewrite <- (mapM_length _ _ _ Ma); apply filter_length_le|].
  split; [exact Hhd|].
  split; [exact Hpt | apply getImageUrl_truthy].
Qed.

Lemma constructed_entity_is_well_formed_witness :
  exists p, fromAPI pikachu = Normal p
            /\ PokemonModel.name p = "pikachu"
            /\ primaryType p = JStr "electric"
            /\ truthy (imageUrl p) = true.
Proof.
  destruct (fromAPI pikachu) as [p|] eqn:E; [|vm_compute in E; discriminate].
  destruct (constructed_entity_is_well_formed pikachu p E)
    as (_ & _ & _ & _ & _ & _ & _ & _ & _ & _ & _ & _ & _ & _ & Hi).
  assert (Hn : PokemonModel.name p = "pikachu"
               /\ primaryType p = JStr "electric").
  { vm_compute in E. inversion E; subst. split; reflexivity. }
  exists p. split; [reflexivity|].
  split; [apply Hn|]. split; [apply Hn | exact Hi].
Defined.

Lemma optionalNumber_number n : n <> NaN -> optionalNumber (JNum n) = n.
Proof.
  intros H. unfold optionalNumber.
  destruct n as [| s | z]; [congruence | reflexivity |].
  simpl. destruct (Z.eqb_spec z 0); subst; reflexivity.
Qed.

Lemma objectOrEmpty_twice v : objectOrEmpty (objectOrEmpty v) = objectOrEmpty v.
Proof. destruct v; reflexivity. Qed.

Lemma constructed_scalars data p :
  fromAPI data = Normal p ->
  PokemonModel.id p <> NaN
  /\ height p <> NaN /\ weight p <> NaN /\ base_experience p <> NaN
  /\ PokemonModel.name p <> ""
  /\ trim (PokemonModel.name p) = PokemonModel.name p.
Proof.
  intros H. destruct (new_Pokemon_built data p H) as (s & _ & Hs & Hc).
  apply computed_all in Hc.
  destruct Hc as (tn & an & total & _ & _ & _ & ->). simpl.
  split; [apply optionalNumber_spec|].
  split; [apply optionalNumber_spec|].
  split; [apply optionalNumber_spec|].
  split; [apply optionalNumber_spec|].
  split; [intros Hn; rewrite Hn in Hs; discriminate | apply trim_twice].
Qed.

(** Serialization round trip: building an entity from the [toJSON()] of
    a constructed entity succeeds and gives that entity again. *)
Theorem toJSON_round_trip (data : JsVal) (p : Pokemon) :
  fromAPI data = Normal p -> fromAPI (toJSON p) = Normal p.
Proof.
  intros H.
  destruct (constructed_scalars data p H)
    as (Hid & Hh & Hw & Hb & Hne & Htrim).
  destruct (new_Pokemon_built data p H) as (s & _ & _ & Hc).
  pose proof (computed_all _ _ _ _ _ _ _ _ _ _ _ Hc)
    as (tn & an & total & _ & _ & _ & Hp).
  unfold fromAPI.
  rewrite new_Pokemon_cases by discriminate.
  assert (Hfields :
    GetOpt (toJSON p) "id" = JNum (PokemonModel.id p)
    /\ GetOpt (toJSON p) "name" = JStr (PokemonModel.name p)
    /\ GetOpt (toJSON p) "height" = JNum (height p)
    /\ GetOpt (toJSON p) "weight" = JNum (weight p)
    /\ GetOpt (toJSON p) "base_experience" = JNum (base_experience p)
    /\ GetOpt (toJSON p) "types" = JArr (types p)
    /\ GetOpt (toJSON p) "abilities" = JArr (abilities p)
    /\ GetOpt (toJSON p) "stats" = JArr (stats p)
    /\ GetOpt (toJSON p) "sprites" = sprites p
    /\ GetOpt (toJSON p) "cries" = cries p)
    by (repeat split; reflexivity).
  destruct Hfields as (-> & -> & -> & -> & -> & -> & -> & -> & -> & ->).
  assert (Hi : idRejected (JNum (PokemonModel.id p)) = false).
  { unfold idRejected, isNaN. simpl.
    destruct (PokemonModel.id p); [congruence | reflexivity | reflexivity]. }
  rewrite Hi.
  assert (Hn : nameRejected (JStr (PokemonModel.name p)) = false).
  { simpl. rewrite Htrim.
    destruct (String.eqb_spec (PokemonModel.name p) "");
      [congruence | reflexivity]. }
  rewrite Hn, Htrim.
  rewrite !optionalNumber_number by assumption.
  cbn [arrayOrEmpty].
  assert (Hrec : objectOrEmpty (sprites p) = sprites p
                 /\ objectOrEmpty (cries p) = cries p).
  { rewrite Hp. cbn [sprites cries]. split; apply objectOrEmpty_twice. }
  destruct Hrec as [-> ->].
  rewrite Hp at 1 2 3 4 5 6 7 8 9 10.
  cbn [PokemonModel.id PokemonModel.name height weight base_experience
       types abilities stats sprites cries].
  exact Hc.
Qed.

Lemma toJSON_round_trip_witness :
  exists p, fromAPI pikachu = Normal p /\ fromAPI (toJSON p) = Normal p.
Proof.
  destruct (fromAPI pikachu) as [p|] eqn:E; [|vm_compute in E; discriminate].
  exists p. split; [reflexivity|].
  apply (toJSON_round_trip pikachu p E).
Defined.

Lemma isStatNamed_named statName entry named :
  isNamedStat entry named ->
  isStatNamed statName entry = Normal (fst named =? statName)%string
  /\ Get entry "base_stat" = Normal (JNum (Fin (snd named))).
Proof.
  intros (fields & inner & -> & Hb & Hs & Hn).
  unfold isStatNamed. simpl. rewrite Hs, Hb. simpl. rewrite Hn. auto.
Qed.

Lemma named_stats_have_base entries named :
  Forall2 isNamedStat entries named ->
  Forall2 hasBaseStat entries (map snd named).
Proof.
  induction 1 as [|e nz entries named (fields & inner & -> & Hb & _) _ IH];
    simpl; constructor; auto.
  exists fields. auto.
Qed.

(** On stat entries [{ base_stat, stat: { name } }], [getStatByName]
    returns the base value of the first entry of that name and 0 when
    there is none; when the names are pairwise distinct these values,
    taken over the names, add up to [getStatTotal]. *)
Theorem getStatByName_reads_the_named_stat (entries : list JsVal)
  (named : list (string * Z)) :
  Forall2 isNamedStat entries named ->
  (forall n, ~ In n (map fst named) ->
             getStatByName entries n = Normal (JNum (Fin 0)))
  /\ (forall before n z after,
         named = before ++ (n, z) :: after -> ~ In n (map fst before) ->
         getStatByName entries n = Normal (JNum (Fin z)))
  /\ (NoDup (map fst named) ->
      mapM (getStatByName entries) (map fst named)
      = Normal (map (fun nz => JNum (Fin (snd nz))) named))
  /\ getStatTotal entries = Normal (JNum (Fin (sum (map snd named)))).
Proof.
  intros F.
  assert (Habsent : forall n, ~ In n (map fst named) ->
                              getStatByName entries n = Normal (JNum (Fin 0))).
  { induction F as [|e nz entries named He _ IH]; intros n Hn; [reflexivity|].
    destruct (isStatNamed_named n e nz He) as [Hs _].
    unfold getStatByName in *. simpl. rewrite Hs. simpl.
    destruct (String.eqb_spec (fst nz) n) as [E|_].
    - exfalso. apply Hn. now left.
    - apply IH. intros Hin. apply Hn. now right. }
  assert (Hfirst : forall before n z after,
             named = before ++ (n, z) :: after -> ~ In n (map fst before) ->
             getStatByName entries n = Normal (JNum (Fin z))).
  { clear Habsent.
    induction F as [|e nz entries named He _ IH];
      intros before n z after E Hn.
    - destruct before; discriminate.
    - destruct (isStatNamed_named n e nz He) as [Hs Hb].
      unfold getStatByName in *. simpl. rewrite Hs. simpl.
      destruct before as [|b before]; simpl in E; inversion E; subst.
      + simpl. rewrite String.eqb_refl. exact Hb.
      + destruct (String.eqb_spec (fst b) n) as [Eb|_].
        * exfalso. apply Hn. now left.
        * eapply IH; [reflexivity|]. intros Hin. apply Hn. now right. }
  split; [exact Habsent|]. split; [exact Hfirst|]. split.
  - intros Hnd.
    assert (G : forall before rest,
               named = before ++ rest ->
               mapM (getStatByName entries) (map fst rest)
               = Normal (map (fun nz => JNum (Fin (snd nz))) rest)).
    { intros before rest. revert before.
      induction rest as [|[n z] rest IH]; intros before E; [reflexivity|].
      simpl. rewrite (Hfirst before n z rest E).
      - simpl. rewrite (IH (before ++ [(n, z)])); [reflexivity|].
        now rewrite <- app_assoc.
      - rewrite E, map_app in Hnd. simpl in Hnd.
        apply NoDup_remove_2 in Hnd. intros Hin. apply Hnd.
        apply in_or_app. now left. }
    apply (G [] named eq_refl).
  - unfold getStatTotal.
    rewrite (statTotal_sum _ _ (named_stats_have_base _ _ F) 0).
    reflexivity.
Qed.

Lemma named_stats zs : Forall2 isNamedStat (map namedStat zs) zs.
Proof.
  induction zs as [|nz zs IH]; simpl; constructor; auto.
  eexists _, _. repeat split; reflexivity.
Qed.

Lemma getStatByName_reads_the_named_stat_witness :
  Forall2 isNamedStat (map namedStat pikachuStats) pikachuStats
  /\ getStatByName (map namedStat pikachuStats) "speed" = Normal (JNum (Fin 90))
  /\ getStatByName (map namedStat pikachuStats) "accuracy"
     = Normal (JNum (Fin 0))
  /\ getStatTotal (map namedStat pikachuStats) = Normal (JNum (Fin 320)).
Proof.
  pose proof (named_stats pikachuStats) as F.
  destruct (getStatByName_reads_the_named_stat _ _ F) as (Ha & Hf & _ & Ht).
  split; [exact F|]. split; [|split].
  - apply (Hf (firstn 5 pikachuStats) "speed" 90 []); [reflexivity|].
    simpl. intuition discriminate.
  - apply Ha. simpl. intuition discriminate.
  - exact Ht.
Defined.

(* ===================================================================== *)
(** ** Duplicates and favorites in the controller                        *)
(* ===================================================================== *)

Import ControllerState.

Lemma strictEqualsNumber_spec a b :
  strictEqualsNumber a b = true <-> a = b /\ b <> NaN.
Proof.
  destruct a as [| [] | x], b as [| [] | y]; simpl;
    try (split; [discriminate | intros [E N]; congruence]);
    try (split; [intros _; split; [reflexivity | discriminate] | reflexivity]).
  rewrite Z.eqb_eq. split.
  - intros ->. split; [reflexivity | discriminate].
  - intros [E _]. now inversion E.
Qed.

Lemma sameValueZero_spec a b : sameValueZero a b = true <-> a = b.
Proof.
  destruct a as [| [] | x], b as [| [] | y]; simpl;
    try (split; [discriminate | congruence]);
    try (split; reflexivity).
  rewrite Z.eqb_eq. split; [now intros -> | intros E; now inversion E].
Qed.

(** [findIndex]: -1 when nothing satisfies the test, else the position
    of the first element that does. *)
Lemma findIndexFrom_spec {A : Type} (f : A -> bool) xs :
  forall i,
    (existsb f xs = false /\ findIndexFrom f i xs = -1)
    \/ (exists before x after,
           xs = before ++ x :: after
           /\ existsb f before = false /\ f x = true
           /\ findIndexFrom f i xs = i + Z.of_nat (length before)).
Proof.
  induction xs as [|x xs IH]; intros i; simpl; [now left|].
  destruct (f x) eqn:F.
  - right. exists [], x, xs. simpl. repeat split; auto. lia.
  - destruct (IH (i + 1)) as [[E R] | (before & y & after & -> & Eb & Fy & R)].
    + left. split; assumption.
    + right. exists (x :: before), y, after. simpl.
      rewrite F, Eb. repeat split; auto. rewrite R. lia.
Qed.

Lemma removeAt_middle {A : Type} (before : list A) x after :
  RequestQueue.removeAt (length before) (before ++ x :: after) = before ++ after.
Proof. induction before as [|b before IH]; simpl; [reflexivity | now rewrite IH]. Qed.

Lemma isFavorite_In favorites x : isFavorite favorites x = true <-> In x favorites.
Proof.
  unfold isFavorite. rewrite existsb_exists. split.
  - intros (y & Hy & E). apply sameValueZero_spec in E. now subst.
  - intros H. exists x. split; [exact H | now apply sameValueZero_spec].
Qed.

Lemma existsb_strict_false favorites x :
  x <> NaN ->
  existsb (fun y => strictEqualsNumber y x) favorites = false ->
  ~ In x favorites.
Proof.
  intros Hx E Hin.
  assert (existsb (fun y => strictEqualsNumber y x) favorites = true);
    [|congruence].
  apply existsb_exists. exists x. split; [exact Hin|].
  now apply strictEqualsNumber_spec.
Qed.

(** What [toggleFavorite] does to the list, for an id that is a number:
    it removes the first occurrence of a favorite and appends an id
    that is not one. *)
Lemma toggleFavorite_cases favorites x :
  x <> NaN ->
  (~ In x favorites /\ toggleFavorite favorites x = favorites ++ [x])
  \/ (exists before after,
         favorites = before ++ x :: after /\ ~ In x before
         /\ toggleFavorite favorites x = before ++ after).
Proof.
  intros Hx. unfold toggleFavorite, indexOf, findIndex.
  destruct (findIndexFrom_spec (fun y => strictEqualsNumber y x) favorites 0)
    as [[E R] | (before & y & after & -> & Eb & Fy & R)]; rewrite R.
  - left. split; [now apply existsb_strict_false | reflexivity].
  - right. apply strictEqualsNumber_spec in Fy. destruct Fy as [-> _].
    exists before, after. split; [reflexivity|].
    split; [now apply existsb_strict_false|].
    destruct (Z.gtb_spec (0 + Z.of_nat (length before)) (-1)); [|lia].
    replace (Z.to_nat (0 + Z.of_nat (length before))) with (length before)
      by lia.
    apply removeAt_middle.
Qed.

(** Toggling a favorite, for an id that is a number and a list without
    duplicates: the id changes sides, every other id stays where it was,
    the list stays without duplicates, and toggling twice an id that was
    not a favorite gives the list back. *)
Theorem toggleFavorite_flips_membership (favorites : list number)
  (pokemonId : number) :
  pokemonId <> NaN -> NoDup favorites ->
  isFavorite (toggleFavorite favorites pokemonId) pokemonId
  = negb (isFavorite favorites pokemonId)
  /\ (forall other, other <> pokemonId ->
        isFavorite (toggleFavorite favorites pokemonId) other
        = isFavorite favorites other)
  /\ NoDup (toggleFavorite favorites pokemonId)
  /\ (isFavorite favorites pokemonId = false ->
      toggleFavorite (toggleFavorite favorites pokemonId) pokemonId
      = favorites).
Proof.
  intros Hx Hnd.
  assert (Hb : forall l y, isFavorite l y = true \/ isFavorite l y = false)
    by (intros l y; destruct (isFavorite l y); auto).
  assert (Heq : forall l l' y, (In y l <-> In y l') ->
                               isFavorite l y = isFavorite l' y).
  { intros l l' y Hiff.
    destruct (isFavorite l y) eqn:A, (isFavorite l' y) eqn:B; auto.
    - apply isFavorite_In, Hiff, isFavorite_In in A. congruence.
    - apply isFavorite_In, Hiff, isFavorite_In in B. congruence. }
  destruct (toggleFavorite_cases favorites pokemonId Hx)
    as [[Hout E] | (before & after & -> & Hbefore & E)]; rewrite E.
  - assert (Hf : isFavorite favorites pokemonId = false).
    { destruct (isFavorite favorites pokemonId) eqn:A; [|reflexivity].
      apply isFavorite_In in A. contradiction. }
    rewrite Hf. split; [|split; [|split]].
    + apply isFavorite_In, in_or_app. right. now left.
    + intros other Ho. apply Heq. rewrite in_app_iff. simpl.
      intuition congruence.
    + apply NoDup_app; [exact Hnd | repeat constructor; auto |].
      intros a Ha [<-|[]]. contradiction.
    + intros _.
      destruct (toggleFavorite_cases (favorites ++ [pokemonId]) pokemonId Hx)
        as [[Hout' _] | (b' & a' & El & Hb' & ->)].
      * exfalso. apply Hout', in_or_app. right. now left.
      * assert (Ha' : a' = [] /\ b' = favorites).
        { destruct a' as [|z a'] using rev_ind.
          - apply app_inj_tail in El. destruct El as [-> _]. auto.
          - clear IHa'. exfalso.
            rewrite app_comm_cons, app_assoc in El.
            apply app_inj_tail in El. destruct El as [-> ->].
            apply Hout, in_or_app. right. now left. }
        destruct Ha' as [-> ->]. apply app_nil_r.
  - apply NoDup_remove in Hnd. destruct Hnd as [Hnd Hnotin].
    assert (Ht : isFavorite (before ++ pokemonId :: after) pokemonId = true).
    { apply isFavorite_In, in_or_app. right. now left. }
    rewrite Ht. split; [|split; [|split]].
    + simpl. destruct (isFavorite (before ++ after) pokemonId) eqn:A;
        [|reflexivity].
      apply isFavorite_In in A. contradiction.
    + intros other Ho. apply Heq. rewrite !in_app_iff. simpl.
      intuition congruence.
    + exact Hnd.
    + intros Hf. congruence.
Qed.

Lemma toggleFavorite_flips_membership_witness :
  Fin 25 <> NaN /\ NoDup [Fin 1; Fin 25; Fin 4]
  /\ toggleFavorite [Fin 1; Fin 25; Fin 4] (Fin 25) = [Fin 1; Fin 4]
  /\ isFavorite (toggleFavorite [Fin 1; Fin 25; Fin 4] (Fin 25)) (Fin 25)
     = false.
Proof.
  assert (Hx : Fin 25 <> NaN) by discriminate.
  assert (Hn : NoDup [Fin 1; Fin 25; Fin 4]).
  { repeat constructor; simpl; intuition discriminate. }
  destruct (toggleFavorite_flips_membership _ _ Hx Hn) as (H & _).
  repeat split; auto.
Defined.

Lemma findIndexFrom_range {A : Type} (f : A -> bool) xs :
  forall i, findIndexFrom f i xs = -1
            \/ i <= findIndexFrom f i xs < i + Z.of_nat (length xs).
Proof.
  induction xs as [|x xs IH]; intros i; simpl; [now left|].
  destruct (f x); [right; lia|].
  destruct (IH (i + 1)) as [E|R]; [now left | right; lia].
Qed.

Lemma findIndexFrom_app {A : Type} (f : A -> bool) l1 l2 :
  forall i,
    findIndexFrom f i (l1 ++ l2)
    = if existsb f l1 then findIndexFrom f i l1
      else findIndexFrom f (i + Z.of_nat (length l1)) l2.
Proof.
  induction l1 as [|x l1 IH]; intros i; simpl.
  - f_equal. lia.
  - destruct (f x); simpl; [reflexivity|].
    rewrite IH. destruct (existsb f l1); [reflexivity|]. f_equal. lia.
Qed.

Lemma existsb_found {A : Type} (f : A -> bool) xs i :
  existsb f xs = true -> findIndexFrom f i xs <> -1 \/ i < 0.
Proof.
  revert i. induction xs as [|x xs IH]; intros i; simpl; [discriminate|].
  destruct (f x); simpl; [intros _; lia|].
  intros H. destruct (IH (i + 1) H); [now left | right; lia].
Qed.

(** The test of [uniqueResults] at an entry, given the entries before
    it. *)
Lemma uniqueResults_test earlier x rest :
  (Z.of_nat (length earlier)
   =? findIndex (fun p => strictEqualsNumber (PokemonModel.id p)
                            (PokemonModel.id x))
        (earlier ++ x :: rest))
  = strictEqualsNumber (PokemonModel.id x) (PokemonModel.id x)
    && negb (existsb (fun p => strictEqualsNumber (PokemonModel.id p)
                                 (PokemonModel.id x)) earlier).
Proof.
  unfold findIndex. rewrite findIndexFrom_app.
  set (f := fun p => strictEqualsNumber (PokemonModel.id p) (PokemonModel.id x)).
  destruct (existsb f earlier) eqn:E.
  - rewrite andb_false_r.
    destruct (existsb_found f earlier 0 E) as [Hn|]; [|lia].
    destruct (findIndexFrom_range f earlier 0) as [R|R]; [contradiction|].
    apply Z.eqb_neq. lia.
  - rewrite andb_true_r. simpl. fold (f x).
    destruct (f x); [apply Z.eqb_refl|].
    destruct (findIndexFrom_range f rest (Z.of_nat (length earlier) + 1))
      as [R|R]; apply Z.eqb_neq; lia.
Qed.

Lemma uniqueResults_from allResults :
  forall rest earlier,
    allResults = earlier ++ rest ->
    filterIndexedFrom
      (fun pokemon index =>
         index =? findIndex (fun p => strictEqualsNumber (PokemonModel.id p)
                                        (PokemonModel.id pokemon))
                    allResults)
      (Z.of_nat (length earlier)) rest
    = firstOccurrences earlier rest.
Proof.
  induction rest as [|x rest IH]; intros earlier E; [reflexivity|].
  simpl. rewrite E at 1. rewrite uniqueResults_test.
  assert (Hnext : filterIndexedFrom
                    (fun pokemon index =>
                       index =? findIndex
                                  (fun p => strictEqualsNumber
                                              (PokemonModel.id p)
                                              (PokemonModel.id pokemon))
                                  allResults)
                    (Z.of_nat (length earlier) + 1) rest
                  = firstOccurrences (earlier ++ [x]) rest).
  { rewrite <- (IH (earlier ++ [x])).
    - rewrite length_app. simpl. do 2 f_equal. lia.
    - now rewrite <- app_assoc. }
  rewrite Hnext. reflexivity.
Qed.

Lemma firstOccurrences_spec :
  forall rest earlier,
    NoDup (map PokemonModel.id (firstOccurrences earlier rest))
    /\ (forall p, In p (firstOccurrences earlier rest) ->
                  In p rest /\ PokemonModel.id p <> NaN
                  /\ ~ In (PokemonModel.id p) (map PokemonModel.id earlier))
    /\ (forall p, In p rest -> PokemonModel.id p <> NaN ->
                  In (PokemonModel.id p) (map PokemonModel.id earlier)
                  \/ In (PokemonModel.id p)
                       (map PokemonModel.id (firstOccurrences earlier rest))).
Proof.
  induction rest as [|x rest IH]; intros earlier.
  - simpl. repeat split; try constructor; intros; contradiction.
  - destruct (IH (earlier ++ [x])) as (Hnd & Hin & Hcov).
    assert (Hearlier : forall n, In n (map PokemonModel.id (earlier ++ [x]))
                                 <-> In n (map PokemonModel.id earlier)
                                     \/ n = PokemonModel.id x).
    { intros n. rewrite map_app, in_app_iff. simpl. intuition. }
    simpl.
    destruct (strictEqualsNumber (PokemonModel.id x) (PokemonModel.id x)) eqn:S.
    + apply strictEqualsNumber_spec in S. destruct S as [_ Hx].
      destruct (existsb _ earlier) eqn:E; simpl.
      * assert (Hxin : In (PokemonModel.id x) (map PokemonModel.id earlier)).
        { apply existsb_exists in E. destruct E as (q & Hq & Eq).
          apply strictEqualsNumber_spec in Eq. destruct Eq as [<- _].
          now apply in_map. }
        split; [exact Hnd|]. split.
        -- intros p Hp. destruct (Hin p Hp) as (Hr & Hn & Hnot).
           repeat split; auto. intros Hc. apply Hnot, Hearlier. now left.
        -- intros p [<-|Hp] Hn; [now left|].
           destruct (Hcov p Hp Hn) as [Hc|Hc]; [|now right].
           apply Hearlier in Hc. destruct Hc as [Hc| ->]; now left.
      * assert (Hxout : ~ In (PokemonModel.id x) (map PokemonModel.id earlier)).
        { intros Hc. apply in_map_iff in Hc. destruct Hc as (q & Eq & Hq).
          assert (existsb (fun p => strictEqualsNumber (PokemonModel.id p)
                                      (PokemonModel.id x)) earlier = true);
            [|congruence].
          apply existsb_exists. exists q. split; [exact Hq|].
          apply strictEqualsNumber_spec. split; assumption. }
        split; [|split].
        -- constructor; [|exact Hnd]. intros Hc.
           apply in_map_iff in Hc. destruct Hc as (q & Eq & Hq).
           destruct (Hin q Hq) as (_ & _ & Hnot).
           apply Hnot, Hearlier. right. exact Eq.
        -- intros p [<-|Hp]; [repeat split; auto|].
           destruct (Hin p Hp) as (Hr & Hn & Hnot).
           repeat split; auto. intros Hc. apply Hnot, Hearlier. now left.
        -- intros p [<-|Hp] Hn; [right; now left|].
           destruct (Hcov p Hp Hn) as [Hc|Hc]; [|right; now right].
           apply Hearlier in Hc. destruct Hc as [Hc|Hc]; [now left|].
           right. left. now symmetry.
    + simpl.
      assert (Hx : PokemonModel.id x = NaN).
      { destruct (PokemonModel.id x) as [| [] | z]; try reflexivity;
          simpl in S; try discriminate.
        rewrite Z.eqb_refl in S. discriminate. }
      split; [exact Hnd|]. split.
      * intros p Hp. destruct (Hin p Hp) as (Hr & Hn & Hnot).
        repeat split; auto. intros Hc. apply Hnot, Hearlier. now left.
      * intros p [<-|Hp] Hn; [congruence|].
        destruct (Hcov p Hp Hn) as [Hc|Hc]; [|now right].
        apply Hearlier in Hc. destruct Hc as [Hc|Hc]; [now left | congruence].
Qed.

(** The removal of duplicates in [filterByType] keeps, in their order,
    the first entry of every id: the result has pairwise distinct ids,
    holds only entries of the input, and holds an entry for every id of
    the input that is a number. *)
Theorem uniqueResults_keeps_first_of_each_id (allResults : list Pokemon) :
  uniqueResults allResults = firstOccurrences [] allResults
  /\ NoDup (map PokemonModel.id (uniqueResults allResults))
  /\ (forall p, In p (uniqueResults allResults) ->
                In p allResults /\ PokemonModel.id p <> NaN)
  /\ (forall p, In p allResults -> PokemonModel.id p <> NaN ->
                In (PokemonModel.id p)
                   (map PokemonModel.id (uniqueResults allResults))).
Proof.
  assert (E : uniqueResults allResults = firstOccurrences [] allResults)
    by (apply (uniqueResults_from allResults allResults [] eq_refl)).
  destruct (firstOccurrences_spec allResults []) as (Hnd & Hin & Hcov).
  rewrite E. split; [reflexivity|]. split; [exact Hnd|]. split.
  - intros p Hp. destruct (Hin p Hp) as (Hr & Hn & _). auto.
  - intros p Hp Hn. destruct (Hcov p Hp Hn) as [[]|Hc]. exact Hc.
Qed.

Example uniqueResults_example :
  map PokemonModel.id
    (uniqueResults [card 4 "charmander"; card 6 "charizard";
                    card 4 "charmander"; card 149 "dragonite";
                    card 6 "charizard"])
  = [Fin 4; Fin 6; Fin 149].
Proof. reflexivity. Qed.

(** ** The search on its edges *)

Lemma includes_empty s : includes s "" = true.
Proof. destruct s; reflexivity. Qed.

Lemma filter_all {A : Type} (f : A -> bool) xs :
  (forall x, f x = true) -> filter f xs = xs.
Proof.
  intros H. induction xs as [|x xs IH]; simpl; [reflexivity|].
  now rewrite H, IH.
Qed.

Lemma truthy_JStr q : q <> "" -> negb (truthy (JStr q)) = false.
Proof.
  intros Hq. simpl. destruct (String.eqb_spec q ""); [congruence | reflexivity].
Qed.

(** A query of white space only passes the check of the query, since it
    is not the empty string, and is trimmed to the empty string: the
    direct lookup is refused before any request, the first request is
    the listing, every listed name contains the empty string, and the
    search returns the entities of the first [limit] entries of the
    listing whose fetch succeeded.  A listing that fails fails the
    search with its reason. *)
Theorem blank_query_returns_head_of_listing (env : Service.Environment)
  (q : string) (limit : option Z) (st : Service.ServiceState) :
  q <> "" ->
  trim (toLowerCase q) = "" ->
  let cap := match limit with Some l => l | None => 20 end in
  let st1 :=
    Service.mkService
      (Service.issued st ++ [Service.FetchList 1000 0])
      (Service.console st) (Service.drawn st) in
  match Service.listOutcome env (length (Service.issued st)) 1000 0 with
  | Rejected reason =>
      Service.searchPokemon env (JStr q) limit st = (Rejected reason, st1)
  | Fulfilled entries =>
      let fetched :=
        Service.mapRequests
          (fun m => Service.getPokemonByName env
                      (JStr (Service.entryName m)))
          (Service.slice0 cap entries) st1 in
      Service.searchPokemon env (JStr q) limit st
      = (Fulfilled (Service.fulfilledValues (fst fetched)), snd fetched)
  end.
Proof.
  intros Hq Hblank cap st1.
  unfold Service.searchPokemon. rewrite (truthy_JStr q Hq), Hblank.
  change (Service.getPokemonByName env (JStr "") st)
    with (@Rejected Pokemon (mkError ErrorK "Invalid Pokemon name provided"),
          st).
  cbv iota beta.
  change (Service.getPokemonList env 1000 0 st)
    with (Service.listOutcome env (length (Service.issued st)) 1000 0, st1).
  destruct (Service.listOutcome env (length (Service.issued st)) 1000 0)
    as [entries|reason]; [|reflexivity].
  cbv iota beta. fold cap.
  rewrite (filter_all _ entries)
    by (intros x; apply includes_empty).
  destruct (Service.slice0 cap entries) as [|m ms] eqn:E; [reflexivity|].
  cbn [length Nat.eqb].
  destruct (Service.mapRequests _ (m :: ms) st1); reflexivity.
Qed.

Lemma blank_query_returns_head_of_listing_witness :
  Service.searchPokemon Service.kanto (JStr "   ") (Some 2) Service.start
  = (Fulfilled [Service.card 1 "bulbasaur"; Service.card 4 "charmander"],
     Service.mkService
       [Service.FetchList 1000 0;
        Service.FetchPokemon (JStr "bulbasaur");
        Service.FetchPokemon (JStr "charmander")] [] 0).
Proof.
  assert (Hq : "   " <> "") by discriminate.
  assert (Hb : trim (toLowerCase "   ") = "") by reflexivity.
  pose proof (blank_query_returns_head_of_listing Service.kanto "   "
                (Some 2) Service.start Hq Hb) as H.
  cbv zeta in H. simpl Service.listOutcome in H.
  rewrite H. reflexivity.
Defined.


(** ** No request without a checked argument *)

Import ServiceLog.

Lemma Extends_refl st : Extends st st.
Proof.
  exists []. rewrite app_nil_r. repeat split. exists []. now rewrite app_nil_r.
Qed.

Lemma Extends_trans st1 st2 st3 :
  Extends st1 st2 -> Extends st2 st3 -> Extends st1 st3.
Proof.
  intros (a & Ea & Ca & la & La) (b & Eb & Cb & lb & Lb).
  exists (a ++ b). rewrite Eb, Ea, <- app_assoc. split; [reflexivity|].
  split; [rewrite forallb_app, Ca, Cb; reflexivity|].
  exists (la ++ lb). now rewrite Lb, La, <- app_assoc.
Qed.

Lemma getPokemonById_Extends env id st :
  Extends st (snd (Service.getPokemonById env id st)).
Proof.
  unfold Service.getPokemonById.
  destruct (truthy id) eqn:T; simpl; [|apply Extends_refl].
  destruct (typeof id =? "number")%string eqn:N; simpl.
  - exists [FetchPokemon id]. simpl. rewrite T, N. simpl.
    repeat split. exists []. now rewrite app_nil_r.
  - destruct (typeof id =? "string")%string eqn:S'; simpl;
      [|apply Extends_refl].
    exists [FetchPokemon id]. simpl. rewrite T, N, S'. simpl.
    repeat split. exists []. now rewrite app_nil_r.
Qed.

Lemma getPokemonByName_Extends env name st :
  Extends st (snd (Service.getPokemonByName env name st)).
Proof.
  unfold Service.getPokemonByName.
  destruct name; try apply Extends_refl.
  destruct (negb _); [apply Extends_refl | apply getPokemonById_Extends].
Qed.

Lemma getPokemonList_Extends env limit offset st :
  Extends st (snd (Service.getPokemonList env limit offset st)).
Proof.
  unfold Service.getPokemonList.
  destruct (Z.ltb_spec limit 1); simpl; [apply Extends_refl|].
  destruct (Z.gtb_spec limit 1000); simpl; [apply Extends_refl|].
  destruct (Z.ltb_spec offset 0); simpl; [apply Extends_refl|].
  exists [FetchList limit offset]. simpl.
  repeat split.
  - rewrite andb_true_r, !andb_true_iff, !Z.leb_le. lia.
  - exists []. now rewrite app_nil_r.
Qed.

Lemma mapRequests_Extends {A B : Type}
  (f : A -> ServiceState -> B * ServiceState) :
  (forall x st, Extends st (snd (f x st))) ->
  forall xs st, Extends st (snd (Service.mapRequests f xs st)).
Proof.
  intros Hf. induction xs as [|x xs IH]; intros st; simpl;
    [apply Extends_refl|].
  pose proof (Hf x st) as H1. destruct (f x st) as [y st1].
  pose proof (IH st1) as H2. destruct (Service.mapRequests f xs st1).
  simpl in *. eapply Extends_trans; eassumption.
Qed.

Lemma valueOrNull_Extends ids :
  forall results st,
    Extends st (snd (Service.valueOrNull ids results st)).
Proof.
  induction ids as [|id ids IH]; intros [|[v|e] results] st; simpl;
    try apply Extends_refl.
  - pose proof (IH results st) as H.
    destruct (Service.valueOrNull ids results st). exact H.
  - match goal with
    | |- context [Service.valueOrNull ids results ?s] =>
        pose proof (IH results s) as H;
        destruct (Service.valueOrNull ids results s)
    end.
    simpl in *. eapply Extends_trans; [|exact H].
    exists []. simpl. rewrite app_nil_r. repeat split. eexists. reflexivity.
Qed.

Lemma getPokemonBatch_Extends env ids st :
  Extends st (snd (Service.getPokemonBatch env ids st)).
Proof.
  unfold Service.getPokemonBatch.
  destruct ids as [| |b|n|s|items|o]; try apply Extends_refl.
  destruct (length _ =? 0)%nat; [apply Extends_refl|].
  pose proof (mapRequests_Extends (Service.getPokemonById env)
                (getPokemonById_Extends env) items st) as H1.
  destruct (Service.mapRequests _ items st) as [results st1].
  pose proof (valueOrNull_Extends items results st1) as H2.
  destruct (Service.valueOrNull items results st1).
  simpl in *. eapply Extends_trans; eassumption.
Qed.


(** ** The stat filter *)

Import Filtering.

Lemma withinStats_integer minStats maxStats pokemon zs :
  Forall2 hasBaseStat (stats pokemon) zs ->
  isBound minStats -> isBound maxStats ->
  withinStats minStats maxStats pokemon
  = Normal (inRange (boundOf minStats) (boundOf maxStats) (statSum pokemon)).
Proof.
  intros Hs Hmin Hmax.
  assert (Ht : getStatTotal (stats pokemon) = Normal (JNum (Fin (sum zs)))).
  { unfold getStatTotal. now rewrite (statTotal_sum _ _ Hs 0). }
  unfold withinStats, statSum. rewrite Ht. cbn [bind].
  unfold inRange, js_lt, js_gt, js_compare.
  destruct Hmin as [->|[->|(m & ->)]], Hmax as [->|[->|(M & ->)]];
    cbn -[Z.compare Z.leb Z.eqb]; try reflexivity;
    repeat match goal with
           | |- context [?a =? 0] => destruct (Z.eqb_spec a 0)
           end;
    cbn -[Z.compare Z.leb];
    repeat match goal with
           | |- context [?a ?= ?b] => destruct (Z.compare_spec a b)
           end;
    cbn -[Z.leb];
    repeat match goal with
           | |- context [?a <=? ?b] => destruct (Z.leb_spec a b)
           end;
    cbn; try reflexivity; lia.
Qed.

(** On entities whose stat entries hold integers, with each bound
    absent, [null] or an integer, the stat filter of [filterPokemon]
    does not throw and keeps, in their order, the entities whose total
    is at least the lower bound and at most the upper one; a bound of 0
    is no bound, as an absent one. *)
Theorem statFilter_keeps_totals_in_range (minStats maxStats : JsVal)
  (results : list Pokemon) :
  Forall (fun pokemon => exists zs, Forall2 hasBaseStat (stats pokemon) zs)
    results ->
  isBound minStats -> isBound maxStats ->
  statFilter minStats maxStats results
  = Normal (filter (fun pokemon =>
                      inRange (boundOf minStats) (boundOf maxStats)
                        (statSum pokemon))
              results).
Proof.
  intros Hall Hmin Hmax.
  assert (Hf : filterM (withinStats minStats maxStats) results
               = Normal (filter (fun p => inRange (boundOf minStats)
                                            (boundOf maxStats) (statSum p))
                           results)).
  { induction Hall as [|p results (zs & Hs) _ IH]; [reflexivity|].
    cbn [filterM filter].
    rewrite (withinStats_integer _ _ _ zs Hs Hmin Hmax). cbn [bind].
    rewrite IH. reflexivity. }
  unfold statFilter.
  destruct (truthy minStats || truthy maxStats) eqn:T; [exact Hf|].
  apply orb_false_iff in T. destruct T as [Tm TM].
  assert (Bm : boundOf minStats = None).
  { destruct Hmin as [->|[->|(m & ->)]]; try reflexivity.
    simpl in *. now destruct (m =? 0). }
  assert (BM : boundOf maxStats = None).
  { destruct Hmax as [->|[->|(m & ->)]]; try reflexivity.
    simpl in *. now destruct (m =? 0). }
  rewrite Bm, BM. f_equal. symmetry. now apply filter_all.
Qed.

Lemma statFilter_keeps_totals_in_range_witness :
  statFilter (JNum (Fin 400)) (JNum (Fin 0))
    (entityOf bulbasaur ++ entityOf mewtwo)
  = Normal (entityOf mewtwo).
Proof.
  rewrite statFilter_keeps_totals_in_range.
  - reflexivity.
  - repeat constructor.
    + exists [45; 49; 49; 65; 65; 45].
      repeat constructor; eexists; split; reflexivity.
    + exists mewtwoStats.
      repeat constructor; eexists; split; reflexivity.
  - right. right. now exists 400.
  - right. right. now exists 0.
Defined.
